(** * SecureKeep: the client-side encryption service ([src/lib/encryption.ts])

    A shallow embedding of [encryption.ts] and of the browser functions it
    calls, followed by the properties of the encryption engine.

    What is modelled from where.
    - The functions and the class [EncryptionService] of [encryption.ts] are
      translated line by line ([resizeImage], which only draws on a canvas,
      is left out).
    - The code that calls them is translated in the same way: [fetchNotes],
      [handleSaveNote] and the layout of [notes-grid.tsx], the image handlers
      of [note-editor.tsx], the navigation of [image-viewer.tsx], and
      [server-crypto.ts].  What this code gets from the server, from
      [resizeImage] and from the clock is an argument of its model.
    - [btoa], [atob], [TextEncoder] and [TextDecoder] follow the WHATWG HTML,
      Infra and Encoding standards.
    - [crypto.subtle] is an interface ([SubtleCrypto]); the facts the proofs
      need of AES-GCM are stated apart ([SubtleCryptoLaws]) and proved of the
      algorithms the Web Cryptography API names ([WebCrypto]).

    Conventions.
    - An [ArrayBuffer] / [Uint8Array] is a [list byte].
    - A JavaScript string is the list of its UTF-16 code units, each an [N]
      below 65536 ([jsstring]).
    - A function that can throw, and a promise that can reject, returns a
      [Result]; the exception carries the name the platform gives it.
    - Functions that read the CSPRNG or the [EncryptionService] object run in
      the monad [M] over an explicit [World]; a thrown exception keeps the
      world reached so far, as in JavaScript.  Each [await] is run to its
      end before the next statement. *)

From Stdlib Require Import String Ascii Strings.Byte.
From Stdlib Require Import NArith ZArith Bool Lia Arith List.
From Stdlib Require Import DecimalString.
Import ListNotations.

Local Open Scope string_scope.
Local Open Scope list_scope.
Local Open Scope N_scope.

(** ** Values *)

Definition jsstring := list N.

(** The code units of an ASCII literal. *)
Definition js (s : string) : jsstring :=
  map N_of_ascii (list_ascii_of_string s).

(** What JavaScript throws: a [DOMException] with its [name], or a plain
    [Error] with its [message]. *)
Inductive Exn : Type :=
| DOMException (name : string)
| Error (message : string).

Inductive Result (A : Type) : Type :=
| Ok (a : A)
| Throw (e : Exn).
Arguments Ok {A} a.
Arguments Throw {A} e.

Definition rbind {A B} (r : Result A) (f : A -> Result B) : Result B :=
  match r with
  | Ok a => f a
  | Throw e => Throw e
  end.

(** [atob] and [btoa] throw this one. *)
Definition InvalidCharacterError : Exn := DOMException "InvalidCharacterError".
(** [crypto.subtle.decrypt] rejects with this one. *)
Definition OperationError : Exn := DOMException "OperationError".
(** [throw new Error('Encryption service not initialized')]. *)
Definition NotInitializedError : Exn := Error "Encryption service not initialized".

(** The error kinds of the specification, and the exceptions of the code
    that stand for them. *)
Inductive ErrorKind : Type :=
| MalformedEncoding
| DecryptionFailed
| NotInitialized
| Unrelated.

Definition exn_kind (e : Exn) : ErrorKind :=
  match e with
  | DOMException n =>
      if String.eqb n "InvalidCharacterError" then MalformedEncoding
      else if String.eqb n "OperationError" then DecryptionFailed
      else Unrelated
  | Error m =>
      if String.eqb m "Encryption service not initialized" then NotInitialized
      else Unrelated
  end.

(** ** Bytes *)

(** Storing a number into a [Uint8Array] keeps it modulo 256. *)
Definition to_uint8 (n : N) : byte :=
  match Byte.of_N (n mod 256) with
  | Some b => b
  | None => x00
  end.

(** ** [btoa] and [atob]

    [btoa] is the base64 encoding of RFC 4648 with padding; [atob] is the
    forgiving-base64 decoding of the WHATWG Infra standard.  Both work on
    "binary strings": [btoa] throws on a code unit above 255. *)

Module Base64.

(** The character of a sextet, Table 1 of RFC 4648. *)
Definition char_of_sextet (v : N) : N :=
  if v <? 26 then 65 + v
  else if v <? 52 then 97 + (v - 26)
  else if v <? 62 then 48 + (v - 52)
  else if v =? 62 then 43
  else 47.

Definition sextet_of_char (c : N) : option N :=
  if (65 <=? c) && (c <=? 90) then Some (c - 65)
  else if (97 <=? c) && (c <=? 122) then Some (c - 97 + 26)
  else if (48 <=? c) && (c <=? 57) then Some (c - 48 + 52)
  else if c =? 43 then Some 62
  else if c =? 47 then Some 63
  else None.

Definition pad : N := 61.

(** Three octets make four sextets; one octet makes two and two make
    three, the missing bits being zero. *)
Fixpoint sextets_of_octets (bs : list N) : list N :=
  match bs with
  | [] => []
  | [a] => [a / 4; (a mod 4) * 16]
  | [a; b] => [a / 4; (a mod 4) * 16 + b / 16; (b mod 16) * 4]
  | a :: b :: c :: rest =>
      a / 4 :: (a mod 4) * 16 + b / 16 :: (b mod 16) * 4 + c / 64 :: c mod 64
        :: sextets_of_octets rest
  end.

Definition padding (n : nat) : list N :=
  match Nat.modulo n 3 with
  | 1%nat => [pad; pad]
  | 2%nat => [pad]
  | _ => []
  end.

Definition encode (bs : list N) : list N :=
  map char_of_sextet (sextets_of_octets bs) ++ padding (length bs).

Definition btoa (data : jsstring) : Result jsstring :=
  if forallb (fun c => c <=? 255) data then Ok (encode data)
  else Throw InvalidCharacterError.

(** TAB, LF, FF, CR and SPACE. *)
Definition is_ascii_whitespace (c : N) : bool :=
  (c =? 9) || (c =? 10) || (c =? 12) || (c =? 13) || (c =? 32).

Definition remove_whitespace (s : jsstring) : jsstring :=
  filter (fun c => negb (is_ascii_whitespace c)) s.

(** "If data's length divides by 4 leaving no remainder, then: if data ends
    with one or two U+003D (=) code points, then remove them from data." *)
Definition strip_padding (s : jsstring) : jsstring :=
  if (Nat.modulo (length s) 4 =? 0)%nat then
    match rev s with
    | c1 :: c2 :: r =>
        if (c1 =? pad) && (c2 =? pad) then rev r
        else if c1 =? pad then rev (c2 :: r)
        else s
    | [c1] => if c1 =? pad then [] else s
    | [] => s
    end
  else s.

Fixpoint sextets_of_chars (s : jsstring) : option (list N) :=
  match s with
  | [] => Some []
  | c :: s' =>
      match sextet_of_char c, sextets_of_chars s' with
      | Some v, Some vs => Some (v :: vs)
      | _, _ => None
      end
  end.

(** The buffer of the decoder: 24 bits give three octets; at the end 12
    bits give one octet and 18 bits give two, the last four or two bits
    being discarded. *)
Fixpoint octets_of_sextets (vs : list N) : list N :=
  match vs with
  | v0 :: v1 :: v2 :: v3 :: rest =>
      v0 * 4 + v1 / 16 :: (v1 mod 16) * 16 + v2 / 4 :: (v2 mod 4) * 64 + v3
        :: octets_of_sextets rest
  | [v0; v1; v2] => [v0 * 4 + v1 / 16; (v1 mod 16) * 16 + v2 / 4]
  | [v0; v1] => [v0 * 4 + v1 / 16]
  | _ => []
  end.

Definition decode (data : jsstring) : option (list N) :=
  let data := strip_padding (remove_whitespace data) in
  if (Nat.modulo (length data) 4 =? 1)%nat then None
  else option_map octets_of_sextets (sextets_of_chars data).

Definition atob (data : jsstring) : Result jsstring :=
  match decode data with
  | Some bs => Ok bs
  | None => Throw InvalidCharacterError
  end.

End Base64.

(** ** [TextEncoder] and [TextDecoder]

    [new TextEncoder().encode(s)] converts [s] to scalar values (an unpaired
    surrogate becomes U+FFFD) and encodes them in UTF-8.
    [new TextDecoder().decode(b)] is the UTF-8 decoder of the WHATWG Encoding
    standard with its defaults: a leading byte order mark is dropped, and an
    ill-formed sequence gives U+FFFD instead of an exception.  The masks and
    shifts of the standard are written as [mod] and [*]. *)

Module Utf8.

Definition is_lead_surrogate (c : N) : bool := (0xD800 <=? c) && (c <=? 0xDBFF).
Definition is_trail_surrogate (c : N) : bool := (0xDC00 <=? c) && (c <=? 0xDFFF).

Definition replacement : N := 0xFFFD.

(** The scalar values of a string (the conversion to a [USVString]). *)
Fixpoint scalar_values (s : jsstring) : list N :=
  match s with
  | [] => []
  | c :: s' =>
      if is_lead_surrogate c then
        match s' with
        | d :: s'' =>
            if is_trail_surrogate d
            then 0x10000 + (c - 0xD800) * 0x400 + (d - 0xDC00) :: scalar_values s''
            else replacement :: scalar_values s'
        | [] => [replacement]
        end
      else if is_trail_surrogate c then replacement :: scalar_values s'
      else c :: scalar_values s'
  end.

Definition encode_scalar (cp : N) : list N :=
  if cp <? 0x80 then [cp]
  else if cp <? 0x800 then [0xC0 + cp / 64; 0x80 + cp mod 64]
  else if cp <? 0x10000 then
    [0xE0 + cp / 4096; 0x80 + (cp / 64) mod 64; 0x80 + cp mod 64]
  else
    [0xF0 + cp / 262144; 0x80 + (cp / 4096) mod 64; 0x80 + (cp / 64) mod 64;
     0x80 + cp mod 64].

Definition encode (s : jsstring) : list N :=
  flat_map encode_scalar (scalar_values s).

(** The state of the UTF-8 decoder. *)
Record Decoder : Type := mkDecoder {
  code_point : N;
  bytes_seen : N;
  bytes_needed : N;
  lower_boundary : N;
  upper_boundary : N
}.

Definition start : Decoder := mkDecoder 0 0 0 0x80 0xBF.

(** A byte read when no sequence is open: what it emits and the next state. *)
Definition lead (b : N) : list N * Decoder :=
  if b <=? 0x7F then ([b], start)
  else if (0xC2 <=? b) && (b <=? 0xDF) then ([], mkDecoder (b mod 32) 0 1 0x80 0xBF)
  else if (0xE0 <=? b) && (b <=? 0xEF) then
    ([], mkDecoder (b mod 16) 0 2 (if b =? 0xE0 then 0xA0 else 0x80)
           (if b =? 0xED then 0x9F else 0xBF))
  else if (0xF0 <=? b) && (b <=? 0xF4) then
    ([], mkDecoder (b mod 8) 0 3 (if b =? 0xF0 then 0x90 else 0x80)
           (if b =? 0xF4 then 0x8F else 0xBF))
  else ([replacement], start).

Fixpoint run (st : Decoder) (bs : list N) : list N :=
  match bs with
  | [] => if bytes_needed st =? 0 then [] else [replacement]
  | b :: rest =>
      if bytes_needed st =? 0 then
        fst (lead b) ++ run (snd (lead b)) rest
      else if (b <? lower_boundary st) || (upper_boundary st <? b) then
        (* the open sequence is dropped and the byte is read again *)
        replacement :: fst (lead b) ++ run (snd (lead b)) rest
      else
        let cp := code_point st * 64 + b mod 64 in
        if bytes_seen st + 1 =? bytes_needed st then cp :: run start rest
        else run (mkDecoder cp (bytes_seen st + 1) (bytes_needed st) 0x80 0xBF) rest
  end.

(** With [ignoreBOM] false the first scalar value is dropped when it is
    U+FEFF. *)
Definition drop_bom (cps : list N) : list N :=
  match cps with
  | cp :: rest => if cp =? 0xFEFF then rest else cps
  | [] => []
  end.

(** The UTF-16 code units of a code point. *)
Definition code_units (cp : N) : list N :=
  if cp <? 0x10000 then [cp]
  else [0xD800 + (cp - 0x10000) / 0x400; 0xDC00 + (cp - 0x10000) mod 0x400].

Definition decode (bs : list N) : jsstring :=
  flat_map code_units (drop_bom (run start bs)).

(** A string of 16-bit code units in which every surrogate is paired. *)
Fixpoint well_formed (s : jsstring) : bool :=
  match s with
  | [] => true
  | c :: s' =>
      if is_lead_surrogate c then
        match s' with
        | d :: s'' => is_trail_surrogate d && well_formed s''
        | [] => false
        end
      else negb (is_trail_surrogate c) && (c <? 0x10000) && well_formed s'
  end.

Definition starts_with_bom (s : jsstring) : bool :=
  match s with
  | c :: _ => c =? 0xFEFF
  | [] => false
  end.

(** A scalar value: a code point that is not a surrogate. *)
Definition is_scalar (cp : N) : Prop :=
  cp < 0xD800 \/ (0xDFFF < cp /\ cp < 0x110000).

End Utf8.

(** [new TextEncoder().encode(s)] *)
Definition TextEncoder_encode (s : jsstring) : list byte :=
  map to_uint8 (Utf8.encode s).

(** [new TextDecoder().decode(b)] *)
Definition TextDecoder_decode (b : list byte) : jsstring :=
  Utf8.decode (map Byte.to_N b).

(** ** [encryption.ts]: transport encoding *)

(** [String.fromCharCode(bytes[i])] *)
Definition fromCharCode (b : byte) : N := Byte.to_N b.

(** [arrayBufferToBase64]: the loop builds the binary string, [btoa] encodes it. *)
Definition arrayBufferToBase64 (buffer : list byte) : Result jsstring :=
  let binary := fold_left (fun acc b => acc ++ [fromCharCode b]) buffer [] in
  Base64.btoa binary.

(** [base64ToArrayBuffer]: [atob], then [bytes[i] = binary.charCodeAt(i)]. *)
Definition base64ToArrayBuffer (base64 : jsstring) : Result (list byte) :=
  rbind (Base64.atob base64) (fun binary => Ok (map to_uint8 binary)).

(** The text [s] with one bit of its code unit [i] flipped. *)
Definition flip_bit (s : jsstring) (i : nat) (bit : N) : jsstring :=
  firstn i s
    ++ match skipn i s with
       | c :: rest => N.lxor c (2 ^ bit) :: rest
       | [] => []
       end.

(** Valid transport text, in the words of the specification: what the
    encoding for transport produces. *)
Definition valid_transport (text : jsstring) : Prop :=
  exists b, arrayBufferToBase64 b = Ok text.

(** ** The platform: [crypto.subtle] and [crypto.getRandomValues]

    The cryptographic primitives are the browser's.  The model takes them as
    an interface; [WebCrypto] further down gives the algorithms the Web
    Cryptography API names (AES-256-GCM, PBKDF2 with HMAC-SHA-256, SHA-256). *)

Class SubtleCrypto : Type := {
  (** An AES-GCM secret key with the usages [encrypt] and [decrypt], as
      [deriveKey] makes them; it is not extractable. *)
  CryptoKey : Type;
  (** PBKDF2 with HMAC-SHA-256: password, salt, iterations, key length in bits. *)
  pbkdf2_sha256 : list byte -> list byte -> N -> N -> CryptoKey;
  (** AES-GCM with a 128-bit tag and no additional data: key, iv, plaintext. *)
  aes_gcm_encrypt : CryptoKey -> list byte -> list byte -> list byte;
  (** AES-GCM decryption: key, iv, ciphertext and tag; [None] when the
      operation fails. *)
  aes_gcm_decrypt : CryptoKey -> list byte -> list byte -> option (list byte);
  sha256 : list byte -> list byte
}.

(** The facts about AES-GCM that the proofs use; [WebCrypto_laws] proves
    them of the algorithm. *)
Class SubtleCryptoLaws (SC : SubtleCrypto) : Prop := {
  (** decryption inverts encryption; *)
  aes_gcm_correct : forall k iv p,
    aes_gcm_decrypt k iv (aes_gcm_encrypt k iv p) = Some p;
  (** what decryption accepts is the encryption of what it returns; *)
  aes_gcm_tidy : forall k iv c p,
    aes_gcm_decrypt k iv c = Some p -> aes_gcm_encrypt k iv p = c;
  (** an input shorter than the tag is refused. *)
  aes_gcm_short : forall k iv c,
    (length c < 16)%nat -> aes_gcm_decrypt k iv c = None
}.

Section Encryption.
Context {SC : SubtleCrypto}.

(** The key made by [importKey('raw', data, 'PBKDF2', false, ...)]. *)
Inductive PasswordKey : Type := ImportedKey (raw : list byte).

(** The calls of the platform's cryptography, as the program makes them. *)
Inductive Call : Type :=
| GetRandomValues (n : nat)
| ImportKey (data : list byte)
| DeriveKey (salt : list byte) (iterations : N) (length : N)
| Encrypt (iv data : list byte)
| Decrypt (iv data : list byte)
| Digest (data : list byte).

(** The world a call runs in: the bytes the CSPRNG is going to return and
    how many it has returned, the calls made so far, and the fields of the
    [encryptionService] object. *)
Record World : Type := mkWorld {
  entropy : nat -> byte;
  drawn : nat;
  calls : list Call;
  this_key : option CryptoKey;
  this_salt : option jsstring
}.

Definition M (A : Type) : Type := World -> Result A * World.

Definition ret {A} (a : A) : M A := fun w => (Ok a, w).

Definition throw {A} (e : Exn) : M A := fun w => (Throw e, w).

Definition bind {A B} (m : M A) (f : A -> M B) : M B :=
  fun w =>
    match m w with
    | (Ok a, w') => f a w'
    | (Throw e, w') => (Throw e, w')
    end.

Definition lift {A} (r : Result A) : M A := fun w => (r, w).

Definition record (c : Call) : M unit :=
  fun w => (Ok tt, mkWorld (entropy w) (drawn w) (calls w ++ [c]) (this_key w) (this_salt w)).

End Encryption.

Declare Scope m_scope.
Delimit Scope m_scope with M.
Notation "x <- m ;; k" := (bind m (fun x => k))
  (at level 61, m at next level, right associativity) : m_scope.
Notation "m ;; k" := (bind m (fun _ => k))
  (at level 61, right associativity) : m_scope.
Local Open Scope m_scope.

Section EncryptionTs.
Context {SC : SubtleCrypto}.

(** *** Constants of [encryption.ts] *)

Definition SALT_LENGTH : nat := 16.
Definition IV_LENGTH : nat := 12.
Definition PBKDF2_ITERATIONS : N := 600000.
Definition KEY_LENGTH : N := 256.

(** *** Platform calls *)

(** The next [n] bytes of the CSPRNG. *)
Definition next_bytes (w : World) (n : nat) : list byte :=
  map (fun i => entropy w (drawn w + i)%nat) (seq 0 n).

(** [crypto.getRandomValues(new Uint8Array(n))] *)
Definition getRandomValues (n : nat) : M (list byte) :=
  fun w =>
    (Ok (next_bytes w n),
     mkWorld (entropy w) (drawn w + n) (calls w ++ [GetRandomValues n])
       (this_key w) (this_salt w)).

Definition subtle_importKey (data : list byte) : M PasswordKey :=
  record (ImportKey data) ;; ret (ImportedKey data).

Definition subtle_deriveKey (salt : list byte) (iterations : N)
    (baseKey : PasswordKey) (length : N) : M CryptoKey :=
  record (DeriveKey salt iterations length) ;;
  match baseKey with
  | ImportedKey password => ret (pbkdf2_sha256 password salt iterations length)
  end.

Definition subtle_encrypt (iv : list byte) (key : CryptoKey) (data : list byte)
    : M (list byte) :=
  record (Encrypt iv data) ;; ret (aes_gcm_encrypt key iv data).

Definition subtle_decrypt (iv : list byte) (key : CryptoKey) (data : list byte)
    : M (list byte) :=
  record (Decrypt iv data) ;;
  match aes_gcm_decrypt key iv data with
  | Some plaintext => ret plaintext
  | None => throw OperationError
  end.

Definition subtle_digest (data : list byte) : M (list byte) :=
  record (Digest data) ;; ret (sha256 data).

(** *** Typed arrays *)

(** [new Uint8Array(n)] *)
Definition new_Uint8Array (n : nat) : list byte := repeat x00 n.

(** [target.set(source, offset)], for a source that fits. *)
Definition set_at (target source : list byte) (offset : nat) : list byte :=
  firstn offset target ++ source ++ skipn (offset + length source) target.

(** [a.slice(from, to)] and [a.slice(from)] *)
Definition slice (a : list byte) (from to : nat) : list byte :=
  firstn (to - from) (skipn from a).
Definition slice_from (a : list byte) (from : nat) : list byte :=
  skipn from a.

(** *** The functions of [encryption.ts] *)

Definition generateSalt : M jsstring :=
  salt <- getRandomValues SALT_LENGTH ;;
  lift (arrayBufferToBase64 salt).

Definition deriveKeyFromPassword (password salt : jsstring) : M CryptoKey :=
  saltBuffer <- lift (base64ToArrayBuffer salt) ;;
  passwordKey <- subtle_importKey (TextEncoder_encode password) ;;
  encryptionKey <- subtle_deriveKey saltBuffer PBKDF2_ITERATIONS passwordKey KEY_LENGTH ;;
  ret encryptionKey.

(** The IV and the ciphertext copied into one array. *)
Definition combined (iv ciphertext : list byte) : list byte :=
  let buffer := new_Uint8Array (length iv + length ciphertext) in
  let buffer := set_at buffer iv 0 in
  set_at buffer ciphertext (length iv).

Definition encryptBinary (data : list byte) (key : CryptoKey) : M jsstring :=
  iv <- getRandomValues IV_LENGTH ;;
  ciphertext <- subtle_encrypt iv key data ;;
  lift (arrayBufferToBase64 (combined iv ciphertext)).

Definition encryptString (plaintext : jsstring) (key : CryptoKey) : M jsstring :=
  iv <- getRandomValues IV_LENGTH ;;
  let encodedPlaintext := TextEncoder_encode plaintext in
  ciphertext <- subtle_encrypt iv key encodedPlaintext ;;
  lift (arrayBufferToBase64 (combined iv ciphertext)).

Definition decryptBinary (ciphertext : jsstring) (key : CryptoKey) : M (list byte) :=
  combined <- lift (base64ToArrayBuffer ciphertext) ;;
  let iv := slice combined 0 IV_LENGTH in
  let encryptedData := slice_from combined IV_LENGTH in
  subtle_decrypt iv key encryptedData.

Definition decryptString (ciphertext : jsstring) (key : CryptoKey) : M jsstring :=
  combined <- lift (base64ToArrayBuffer ciphertext) ;;
  let iv := slice combined 0 IV_LENGTH in
  let encryptedData := slice_from combined IV_LENGTH in
  decrypted <- subtle_decrypt iv key encryptedData ;;
  ret (TextDecoder_decode decrypted).

Definition hashPassword (password : jsstring) : M jsstring :=
  let data := TextEncoder_encode password in
  hashBuffer <- subtle_digest data ;;
  lift (arrayBufferToBase64 hashBuffer).

(** *** [class EncryptionService] *)

Definition set_salt (salt : option jsstring) : M unit :=
  fun w => (Ok tt, mkWorld (entropy w) (drawn w) (calls w) (this_key w) salt).

Definition set_key (key : option CryptoKey) : M unit :=
  fun w => (Ok tt, mkWorld (entropy w) (drawn w) (calls w) key (this_salt w)).

(** [if (!this.key) throw new Error('Encryption service not initialized')];
    the key read here is the one the rest of the method uses. *)
Definition require_key : M CryptoKey :=
  fun w =>
    match this_key w with
    | Some key => (Ok key, w)
    | None => (Throw NotInitializedError, w)
    end.

Definition initialize (password salt : jsstring) : M unit :=
  set_salt (Some salt) ;;
  key <- deriveKeyFromPassword password salt ;;
  set_key (Some key).

Definition isInitialized : M bool :=
  fun w => (Ok (match this_key w with Some _ => true | None => false end), w).

Definition clear : M unit :=
  set_key None ;; set_salt None.

Record Note : Type := mkNote { title : jsstring; content : jsstring }.

Definition encryptNote (title content : jsstring) : M Note :=
  key <- require_key ;;
  t <- encryptString title key ;;
  c <- encryptString content key ;;
  ret (mkNote t c).

(** [content ? await decryptString(content, this.key) : '']: the empty
    string is the one string that is falsy. *)
Definition decryptNote (title content : jsstring) : M Note :=
  key <- require_key ;;
  t <- decryptString title key ;;
  c <- match content with
       | [] => ret []
       | _ :: _ => decryptString content key
       end ;;
  ret (mkNote t c).

Definition encryptImage (imageData : list byte) : M jsstring :=
  key <- require_key ;;
  encryptBinary imageData key.

Definition decryptImage (encryptedData : jsstring) : M (list byte) :=
  key <- require_key ;;
  decryptBinary encryptedData key.

Definition encryptLabel (name : jsstring) : M jsstring :=
  key <- require_key ;;
  encryptString name key.

Definition decryptLabel (name : jsstring) : M jsstring :=
  key <- require_key ;;
  decryptString name key.

(** *** Derived notions *)

(** The world after some more platform calls. *)
Definition logged (w : World) (cs : list Call) : World :=
  mkWorld (entropy w) (drawn w) (calls w ++ cs) (this_key w) (this_salt w).

(** The world after the CSPRNG gave [n] bytes. *)
Definition advanced (w : World) (n : nat) : World :=
  mkWorld (entropy w) (drawn w + n) (calls w) (this_key w) (this_salt w).

(** The blob made from a nonce and a message. *)
Definition blob_of (key : CryptoKey) (iv data : list byte) : jsstring :=
  Base64.encode (map fromCharCode (iv ++ aes_gcm_encrypt key iv data)).

End EncryptionTs.


(** ** The algorithms behind [crypto.subtle]

    [encryption.ts] names AES-GCM with a 256-bit key, PBKDF2 with SHA-256
    and SHA-256.  These are the algorithms of FIPS 197, NIST SP 800-38D,
    FIPS 180-4, RFC 2104 and RFC 8018, on bytes as numbers below 256; the
    examples at the end of the file check them against published vectors. *)

(** Big-endian numbers. *)
Definition be_to_N (bs : list N) : N :=
  fold_left (fun acc b => acc * 256 + b) bs 0.

Fixpoint N_to_be (len : nat) (n : N) : list N :=
  match len with
  | O => []
  | S len' => N_to_be len' (n / 256) ++ [n mod 256]
  end.

Fixpoint xor_bytes (a b : list N) : list N :=
  match a, b with
  | x :: a', y :: b' => N.lxor x y :: xor_bytes a' b'
  | _, _ => []
  end.

Module AES.

Definition xtime (a : N) : N :=
  let d := 2 * a in if d <? 256 then d else N.lxor (d - 256) 0x1B.

(** Multiplication in GF(2^8). *)
Fixpoint gmul_loop (n : nat) (a b : N) : N :=
  match n with
  | O => 0
  | S n' => N.lxor (if N.odd b then a else 0) (gmul_loop n' (xtime a) (b / 2))
  end.
Definition gmul (a b : N) : N := gmul_loop 8 a b.

Definition ginv (a : N) : N :=
  match find (fun b => gmul a b =? 1) (map N.of_nat (seq 1 255)) with
  | Some b => b
  | None => 0
  end.

Definition rotl8 (x : N) (n : N) : N :=
  N.lor ((x * 2 ^ n) mod 256) (x / 2 ^ (8 - n)).

Definition sbox_of (a : N) : N :=
  let b := ginv a in
  N.lxor (N.lxor (N.lxor (N.lxor (N.lxor b (rotl8 b 1)) (rotl8 b 2)) (rotl8 b 3)) (rotl8 b 4)) 0x63.

Definition sbox_table : list N :=
  Eval vm_compute in map sbox_of (map N.of_nat (seq 0 256)).

Definition sbox (a : N) : N := nth (N.to_nat a) sbox_table 0.

Definition sub_word (w : list N) : list N := map sbox w.

Definition rot_word (w : list N) : list N :=
  match w with
  | a :: rest => rest ++ [a]
  | [] => []
  end.

Definition rcon (i : nat) : N := Nat.iter (i - 1) xtime 1.

(** The key schedule for a 256-bit key: words 8 to 59 from the eight words
    of the key. *)
Fixpoint expand (n i : nat) (ws : list (list N)) : list (list N) :=
  match n with
  | O => ws
  | S n' =>
      let temp := nth (i - 1) ws [] in
      let temp :=
        if (i mod 8 =? 0)%nat then xor_bytes (sub_word (rot_word temp)) [rcon (i / 8); 0; 0; 0]
        else if (i mod 8 =? 4)%nat then sub_word temp
        else temp in
      expand n' (S i) (ws ++ [xor_bytes (nth (i - 8) ws []) temp])
  end.

Fixpoint words (bs : list N) : list (list N) :=
  match bs with
  | a :: b :: c :: d :: rest => [a; b; c; d] :: words rest
  | _ => []
  end.

Definition key_schedule (key : list N) : list (list N) :=
  expand 52 8 (words key).

Definition round_key (ws : list (list N)) (r : nat) : list N :=
  concat (firstn 4 (skipn (4 * r) ws)).

Definition sub_bytes (st : list N) : list N := map sbox st.

Definition shift_rows (st : list N) : list N :=
  map (fun i => nth (i mod 4 + 4 * ((i / 4 + i mod 4) mod 4)) st 0) (seq 0 16).

Fixpoint mix_columns (st : list N) : list N :=
  match st with
  | a0 :: a1 :: a2 :: a3 :: rest =>
      N.lxor (N.lxor (N.lxor (gmul 2 a0) (gmul 3 a1)) a2) a3
      :: N.lxor (N.lxor (N.lxor a0 (gmul 2 a1)) (gmul 3 a2)) a3
      :: N.lxor (N.lxor (N.lxor a0 a1) (gmul 2 a2)) (gmul 3 a3)
      :: N.lxor (N.lxor (N.lxor (gmul 3 a0) a1) a2) (gmul 2 a3)
      :: mix_columns rest
  | _ => []
  end.

Fixpoint rounds (n r : nat) (ws : list (list N)) (st : list N) : list N :=
  match n with
  | O => st
  | S n' =>
      rounds n' (S r) ws
        (xor_bytes (mix_columns (shift_rows (sub_bytes st))) (round_key ws r))
  end.

(** The cipher of FIPS 197 with Nk = 8, Nr = 14, on a block of 16 bytes. *)
Definition encrypt_block (key block : list N) : list N :=
  let ws := key_schedule key in
  let st := xor_bytes block (round_key ws 0) in
  let st := rounds 13 1 ws st in
  xor_bytes (shift_rows (sub_bytes st)) (round_key ws 14).

(** The cipher on blocks as 128-bit numbers. *)
Definition encrypt (key : list N) (block : N) : N :=
  be_to_N (encrypt_block key (N_to_be 16 block)).

End AES.


Module GCM.

(** Blocks are 128-bit numbers, the first bit of the block being the most
    significant one. *)
Definition R : N := 0xE1 * 2 ^ 120.

(** Multiplication in GF(2^128), algorithm 1 of NIST SP 800-38D. *)
Fixpoint mul_loop (n : nat) (x z v : N) : N :=
  match n with
  | O => z
  | S n' =>
      let z := if N.testbit x (N.of_nat n') then N.lxor z v else z in
      let v := if N.odd v then N.lxor (v / 2) R else v / 2 in
      mul_loop n' x z v
  end.
Definition mul (x y : N) : N := mul_loop 128 x 0 y.

Fixpoint blocks (bs : list N) (n : nat) : list (list N) :=
  match n with
  | O => []
  | S n' =>
      match bs with
      | [] => []
      | _ => firstn 16 bs :: blocks (skipn 16 bs) n'
      end
  end.

(** A block of less than 16 bytes is filled with zeros on the right. *)
Definition pad_block (b : list N) : list N :=
  b ++ repeat 0 (16 - length b).

Definition ghash (h : N) (bs : list N) : N :=
  fold_left (fun y b => mul (N.lxor y (be_to_N (pad_block b))) h)
    (blocks bs (length bs)) 0.

Definition inc32 (cb : N) : N :=
  (cb / 2 ^ 32) * 2 ^ 32 + (cb mod 2 ^ 32 + 1) mod 2 ^ 32.

Section Cipher.
(** The block cipher under the key, on blocks as numbers. *)
Variable E : N -> N.

Definition hash_key : N := E 0.

Definition j0 (iv : list N) : N :=
  if (length iv =? 12)%nat then be_to_N iv * 2 ^ 32 + 1
  else
    ghash hash_key
      (concat (map pad_block (blocks iv (length iv)))
         ++ repeat 0 8 ++ N_to_be 8 (8 * N.of_nat (length iv))).

(** The key stream of [n] blocks from counter block [cb]. *)
Fixpoint key_stream (n : nat) (cb : N) : list N :=
  match n with
  | O => []
  | S n' => N_to_be 16 (E cb) ++ key_stream n' (inc32 cb)
  end.

Definition gctr (cb : N) (data : list N) : list N :=
  xor_bytes data (key_stream ((length data + 15) / 16) cb).

(** The tag over a ciphertext, with no additional data. *)
Definition tag (iv c : list N) : list N :=
  let s :=
    ghash hash_key
      (concat (map pad_block (blocks c (length c)))
         ++ N_to_be 8 0 ++ N_to_be 8 (8 * N.of_nat (length c))) in
  N_to_be 16 (N.lxor s (E (j0 iv))).

Definition encrypt (iv p : list N) : list N :=
  let c := gctr (inc32 (j0 iv)) p in
  c ++ tag iv c.

Definition decrypt (iv data : list N) : option (list N) :=
  if (length data <? 16)%nat then None
  else
    let c := firstn (length data - 16) data in
    let t := skipn (length data - 16) data in
    if list_eq_dec N.eq_dec t (tag iv c) then Some (gctr (inc32 (j0 iv)) c)
    else None.

End Cipher.
End GCM.

Module SHA256.

Definition w32 : N := 2 ^ 32.
Definition add32 (a b : N) : N := (a + b) mod w32.
Definition rotr (n x : N) : N := N.lor (x / 2 ^ n) ((x * 2 ^ (32 - n)) mod w32).
Definition shr (n x : N) : N := x / 2 ^ n.
Definition not32 (x : N) : N := w32 - 1 - x.

Definition Ch (x y z : N) : N := N.lxor (N.land x y) (N.land (not32 x) z).
Definition Maj (x y z : N) : N := N.lxor (N.lxor (N.land x y) (N.land x z)) (N.land y z).
Definition Sigma0 x := N.lxor (N.lxor (rotr 2 x) (rotr 13 x)) (rotr 22 x).
Definition Sigma1 x := N.lxor (N.lxor (rotr 6 x) (rotr 11 x)) (rotr 25 x).
Definition sigma0 x := N.lxor (N.lxor (rotr 7 x) (rotr 18 x)) (shr 3 x).
Definition sigma1 x := N.lxor (N.lxor (rotr 17 x) (rotr 19 x)) (shr 10 x).

Definition is_prime (n : nat) : bool :=
  forallb (fun d => negb (n mod d =? 0)%nat) (seq 2 (n - 2)).

Definition primes : list N :=
  Eval vm_compute in map N.of_nat (firstn 64 (filter is_prime (seq 2 400))).

(** The largest [r] with [r ^ 3 <= n], by bisection on the bits. *)
Fixpoint cbrt_loop (bits : nat) (n r : N) : N :=
  match bits with
  | O => r
  | S b =>
      let r' := r + 2 ^ N.of_nat b in
      cbrt_loop b n (if r' * r' * r' <=? n then r' else r)
  end.
Definition cbrt (n : N) : N := cbrt_loop 64 n 0.

(** The first 32 bits of the fractional parts of the square roots of the
    first 8 primes, and of the cube roots of the first 64. *)
Definition H0 : list N :=
  Eval vm_compute in map (fun p => N.sqrt (p * 2 ^ 64) mod w32) (firstn 8 primes).
Definition K : list N :=
  Eval vm_compute in map (fun p => cbrt (p * 2 ^ 96) mod w32) primes.

Fixpoint words32 (bs : list N) : list N :=
  match bs with
  | a :: b :: c :: d :: rest => be_to_N [a; b; c; d] :: words32 rest
  | _ => []
  end.

(** The message schedule: 48 more words after the 16 of the block. *)
Fixpoint schedule (n : nat) (w : list N) : list N :=
  match n with
  | O => w
  | S n' =>
      let t := length w in
      let x :=
        add32 (add32 (sigma1 (nth (t - 2) w 0)) (nth (t - 7) w 0))
          (add32 (sigma0 (nth (t - 15) w 0)) (nth (t - 16) w 0)) in
      schedule n' (w ++ [x])
  end.

Definition round (s : list N) (kw : N * N) : list N :=
  match s with
  | [a; b; c; d; e; f; g; h] =>
      let t1 := add32 (add32 (add32 (add32 h (Sigma1 e)) (Ch e f g)) (fst kw)) (snd kw) in
      let t2 := add32 (Sigma0 a) (Maj a b c) in
      [add32 t1 t2; a; b; c; add32 d t1; e; f; g]
  | _ => s
  end.

Fixpoint add_words (a b : list N) : list N :=
  match a, b with
  | x :: a', y :: b' => add32 x y :: add_words a' b'
  | _, _ => []
  end.

Definition compress (h : list N) (block : list N) : list N :=
  let w := schedule 48 (words32 block) in
  add_words h (fold_left round (combine K w) h).

(** The message, a byte 0x80, zeros up to 56 modulo 64, and the length in
    bits on 8 bytes. *)
Definition pad (m : list N) : list N :=
  let l := length m in
  m ++ [0x80] ++ repeat 0 ((119 - l mod 64) mod 64)%nat
    ++ N_to_be 8 (8 * N.of_nat l).

Fixpoint chunks (bs : list N) (n : nat) : list (list N) :=
  match n with
  | O => []
  | S n' =>
      match bs with
      | [] => []
      | _ => firstn 64 bs :: chunks (skipn 64 bs) n'
      end
  end.

Definition hash (m : list N) : list N :=
  let p := pad m in
  concat (map (N_to_be 4) (fold_left compress (chunks p (length p)) H0)).

End SHA256.

Module HMAC.

Definition block_key (key : list N) : list N :=
  let k := if (64 <? length key)%nat then SHA256.hash key else key in
  k ++ repeat 0 (64 - length k).

Definition hmac_sha256 (key msg : list N) : list N :=
  let k := block_key key in
  SHA256.hash (map (N.lxor 0x5C) k ++ SHA256.hash (map (N.lxor 0x36) k ++ msg)).

End HMAC.

Module PBKDF2.

(** [F (P, S, c, i)] of RFC 8018: the exclusive or of the [c] iterates. *)
Definition F (password salt : list N) (c : N) (i : N) : list N :=
  let u1 := HMAC.hmac_sha256 password (salt ++ N_to_be 4 i) in
  snd (N.iter (c - 1)
         (fun st => let u := HMAC.hmac_sha256 password (fst st) in (u, xor_bytes (snd st) u))
         (u1, u1)).

Definition derive (password salt : list N) (c : N) (bits : N) : list N :=
  let len := N.to_nat (bits / 8) in
  firstn len
    (flat_map (fun i => F password salt c (N.of_nat i)) (seq 1 ((len + 31) / 32))).

End PBKDF2.

Definition octets (b : list byte) : list N := map Byte.to_N b.
Definition bytes (ns : list N) : list byte := map to_uint8 ns.

(** The platform with these algorithms; a key is its 32 bytes. *)
#[export] Instance WebCrypto : SubtleCrypto := {
  CryptoKey := list byte;
  pbkdf2_sha256 password salt iterations length :=
    bytes (PBKDF2.derive (octets password) (octets salt) iterations length);
  aes_gcm_encrypt key iv data :=
    bytes (GCM.encrypt (AES.encrypt (octets key)) (octets iv) (octets data));
  aes_gcm_decrypt key iv data :=
    option_map bytes (GCM.decrypt (AES.encrypt (octets key)) (octets iv) (octets data));
  sha256 data := bytes (SHA256.hash (octets data))
}.

(** A world for the examples: a CSPRNG that returns zeros, no call made, a
    service that holds no key; and the key of 32 zero bytes. *)
Definition zero_world : @World WebCrypto :=
  mkWorld (fun _ => x00) 0 [] None None.
Definition zero_key : @CryptoKey WebCrypto := repeat x00 32.

(** Bytes written in hexadecimal. *)
Definition hex_digit (c : ascii) : N :=
  let n := N_of_ascii c in
  if n <? 58 then n - 48 else if n <? 71 then n - 55 else n - 87.

Fixpoint hex (s : string) : list N :=
  match s with
  | String a (String b rest) => hex_digit a * 16 + hex_digit b :: hex rest
  | _ => []
  end.

(** A character of the base64 alphabet, or the padding character. *)
Definition is_base64_char (c : N) : bool :=
  match Base64.sextet_of_char c with
  | Some _ => true
  | None => c =? Base64.pad
  end.

(** The string with every unpaired surrogate replaced by U+FFFD. *)
Definition to_well_formed (s : jsstring) : jsstring :=
  flat_map Utf8.code_units (Utf8.scalar_values s).

(** * The notes grid ([notes-grid.tsx])

    The component that calls the service: [fetchNotes] decrypts what the
    server returns, [handleSaveNote] encrypts what the editor made. *)

(** ** The objects *)

(** [interface DecryptedImage] of [types.ts]. *)
Module DecryptedImage.
Record t : Type := mk {
  id : jsstring;
  data : jsstring;
  mimeType : jsstring;
  order : Z
}.
End DecryptedImage.

(** [interface EncryptedImageInput] of [types.ts]. *)
Module EncryptedImageInput.
Record t : Type := mk {
  data : jsstring;
  mimeType : jsstring;
  order : Z
}.
End EncryptedImageInput.

(** A [Date] object, by the string it was made from. *)
Inductive Date : Type := new_Date (value : jsstring).

(** The notes of the component.  The editor makes them without [id] and
    without dates. *)
Module DecryptedNote.
Record t : Type := mk {
  id : option jsstring;
  title : jsstring;
  content : jsstring;
  color : option jsstring;
  isPinned : bool;
  images : list DecryptedImage.t;
  labels : list jsstring;
  createdAt : option Date;
  updatedAt : option Date
}.
End DecryptedNote.

(** An image of a note as [GET /api/notes] returns it. *)
Module ImageRow.
Record t : Type := mk {
  id : jsstring;
  data : jsstring;
  mimeType : jsstring;
  order : Z
}.
End ImageRow.

(** A note as [GET /api/notes] returns it ([note: any] in the component):
    [content] and [color] may be [null]; an element of [labels] is given by
    the name of its [label], if it has one. *)
Module NoteRow.
Record t : Type := mk {
  id : jsstring;
  title : jsstring;
  content : option jsstring;
  color : option jsstring;
  isPinned : bool;
  images : option (list ImageRow.t);
  labels : option (list (option jsstring));
  createdAt : jsstring;
  updatedAt : jsstring
}.
End NoteRow.

(** The signed-in user of the auth store ([User] of [auth-store.ts]); the
    store holds [null] when nobody is signed in. *)
Module User.
Record t : Type := mk {
  id : jsstring;
  email : jsstring;
  name : option jsstring;
  keySalt : jsstring
}.
End User.

(** The body of the request [handleSaveNote] sends. *)
Module NoteData.
Record t : Type := mk {
  userId : jsstring;
  title : jsstring;
  content : jsstring;
  color : option jsstring;
  isPinned : bool;
  images : list EncryptedImageInput.t
}.
End NoteData.

(** ** Strings and arrays *)

(** [s || '']: [null], [undefined] and [''] give ['']. *)
Definition or_empty (s : option jsstring) : jsstring :=
  match s with
  | Some c => c
  | None => []
  end.

(** [new Uint8Array(buffer).reduce((data, byte) => data + String.fromCharCode(byte), '')] *)
Definition reduce_fromCharCode (buffer : list byte) : jsstring :=
  fold_left (fun data byte => data ++ [fromCharCode byte]) buffer [].

(** [s.split('')]: the code units of [s], each a string. *)
Definition split_units (s : jsstring) : list jsstring :=
  map (fun c => [c]) s.

(** [c.charCodeAt(0)]; it is [NaN] for the empty string, which a
    [Uint8Array] stores as 0. *)
Definition charCodeAt0 (c : jsstring) : N :=
  match c with
  | u :: _ => u
  | [] => 0
  end.

(** [new Uint8Array(atob(data).split('').map(c => c.charCodeAt(0))).buffer] *)
Definition buffer_of_base64 (data : jsstring) : Result (list byte) :=
  rbind (Base64.atob data)
    (fun binary => Ok (map to_uint8 (map charCodeAt0 (split_units binary)))).

Section NotesGrid.
Context {SC : SubtleCrypto}.

(** [try { body } catch (e) { handler }] *)
Definition try_catch {A} (body : M A) (handler : Exn -> M A) : M A :=
  fun w =>
    match body w with
    | (Ok a, w') => (Ok a, w')
    | (Throw e, w') => handler e w'
    end.

(** ** [fetchNotes] *)

(** [for (const image of note.images)]: an image that does not decrypt is
    left out ([console.error] apart, which writes to the console only). *)
Fixpoint decryptImages (images : list ImageRow.t)
    (decryptedImages : list DecryptedImage.t) : M (list DecryptedImage.t) :=
  match images with
  | [] => ret decryptedImages
  | image :: rest =>
      decryptedImages <-
        try_catch
          (decryptedBuffer <- decryptImage (ImageRow.data image) ;;
           base64 <- lift (Base64.btoa (reduce_fromCharCode decryptedBuffer)) ;;
           ret (decryptedImages
                  ++ [DecryptedImage.mk (ImageRow.id image) base64
                        (ImageRow.mimeType image) (ImageRow.order image)]))
          (fun imgError => ret decryptedImages) ;;
      decryptImages rest decryptedImages
  end.

(** The function [fetchNotes] maps over [data.notes]: the decrypted note,
    or [null] when the title or the content does not decrypt. *)
Definition fetchNotes_note (note : NoteRow.t) : M (option DecryptedNote.t) :=
  try_catch
    (decrypted <- decryptNote (NoteRow.title note) (or_empty (NoteRow.content note)) ;;
     decryptedImages <-
       match NoteRow.images note with
       | Some (image :: rest) => decryptImages (image :: rest) []
       | _ => ret []
       end ;;
     ret (Some (DecryptedNote.mk
                  (Some (NoteRow.id note))
                  (title decrypted)
                  (content decrypted)
                  (NoteRow.color note)
                  (NoteRow.isPinned note)
                  decryptedImages
                  match NoteRow.labels note with
                  | Some ls => map or_empty ls
                  | None => []
                  end
                  (Some (new_Date (NoteRow.createdAt note)))
                  (Some (new_Date (NoteRow.updatedAt note))))))
    (fun error => ret None).

(** ** [handleSaveNote] *)

(** [for (const image of note.images)] *)
Fixpoint encryptImages (images : list DecryptedImage.t)
    (encryptedImages : list EncryptedImageInput.t) : M (list EncryptedImageInput.t) :=
  match images with
  | [] => ret encryptedImages
  | image :: rest =>
      imageBuffer <- lift (buffer_of_base64 (DecryptedImage.data image)) ;;
      encryptedData <- encryptImage imageBuffer ;;
      encryptImages rest
        (encryptedImages
           ++ [EncryptedImageInput.mk encryptedData (DecryptedImage.mimeType image)
                 (DecryptedImage.order image)])
  end.

(** [handleSaveNote] up to the [noteData] it makes for the [user] of the
    store.  [if (!user?.id) return;] comes first: without a user, or for a
    user whose [id] is the empty string, nothing is encrypted and nothing is
    sent, which is [None] here.  Otherwise the request that carries the
    [noteData] is sent only when this returns it; what is thrown on the way
    is caught by the handler, which then sends nothing. *)
Definition handleSaveNote_noteData (user : option User.t) (note : DecryptedNote.t)
    : M (option NoteData.t) :=
  match user with
  | None => ret None
  | Some u =>
      match User.id u with
      | [] => ret None
      | _ :: _ =>
          encrypted <- encryptNote (DecryptedNote.title note)
                         (DecryptedNote.content note) ;;
          encryptedImages <- encryptImages (DecryptedNote.images note) [] ;;
          ret (Some (NoteData.mk (User.id u) (title encrypted) (content encrypted)
                       (DecryptedNote.color note) (DecryptedNote.isPinned note)
                       encryptedImages))
      end
  end.

End NotesGrid.

(** ** The layout *)

(** [handleResize]: the number of columns for a window of [width] pixels. *)
Definition handleResize (width : Z) : nat :=
  if (width <? 640)%Z then 1%nat
  else if (width <? 768)%Z then 2%nat
  else if (width <? 1024)%Z then 3%nat
  else if (width <? 1280)%Z then 3%nat
  else 4%nat.

(** [masonryColumns[index % columns].push(note)] *)
Definition push_at {A} (masonryColumns : list (list A)) (i : nat) (note : A)
    : list (list A) :=
  firstn i masonryColumns
    ++ match skipn i masonryColumns with
       | column :: rest => (column ++ [note]) :: rest
       | [] => []
       end.

(** [filteredNotes.forEach((note, index) => ...)], from [index].  The
    state [columns] is 4 at first and then what [handleResize] gives; it is
    never 0. *)
Fixpoint forEach_push {A} (columns : nat) (notes : list A) (index : nat)
    (masonryColumns : list (list A)) : list (list A) :=
  match notes with
  | [] => masonryColumns
  | note :: rest =>
      forEach_push columns rest (S index)
        (push_at masonryColumns (index mod columns) note)
  end.

(** [Array.from({ length: columns }, () => [])], then the loop. *)
Definition masonryColumns {A} (columns : nat) (filteredNotes : list A) : list (list A) :=
  forEach_push columns filteredNotes 0 (repeat [] columns).

(** *** Derived notions *)

(** The world [w'] differs from [w] by calls of the platform that take no
    random byte: the CSPRNG and the fields of the service are the same. *)
Definition same_service {SC : SubtleCrypto} (w w' : World) : Prop :=
  entropy w' = entropy w /\ drawn w' = drawn w
  /\ this_key w' = this_key w /\ this_salt w' = this_salt w.

(** The image the grid shows for [image] when it decrypts to [buffer]. *)
Definition shown_image (image : ImageRow.t) (buffer : list byte) : DecryptedImage.t :=
  DecryptedImage.mk (ImageRow.id image) (Base64.encode (map fromCharCode buffer))
    (ImageRow.mimeType image) (ImageRow.order image).

(** The elements of an array that may be missing. *)
Definition or_nil {A} (l : option (list A)) : list A :=
  match l with
  | Some l => l
  | None => []
  end.

(** The image [enc] is [image] sealed under [key] and the nonce [iv]: the
    bytes of [image] encrypted under them after the nonce, with the same
    type and rank. *)
Definition sealed {SC : SubtleCrypto} (key : CryptoKey) (iv : list byte)
    (image : DecryptedImage.t) (enc : EncryptedImageInput.t) : Prop :=
  exists buffer,
    base64ToArrayBuffer (DecryptedImage.data image) = Ok buffer
    /\ EncryptedImageInput.data enc = blob_of key iv buffer
    /\ EncryptedImageInput.mimeType enc = DecryptedImage.mimeType image
    /\ EncryptedImageInput.order enc = DecryptedImage.order image.

(** The images [encs] are the images [images] sealed one by one under the
    nonces the CSPRNG gives from its byte [d] on, 12 bytes each. *)
Fixpoint sealed_from {SC : SubtleCrypto} (key : CryptoKey) (entropy : nat -> byte)
    (d : nat) (images : list DecryptedImage.t) (encs : list EncryptedImageInput.t)
    : Prop :=
  match images, encs with
  | [], [] => True
  | image :: images', enc :: encs' =>
      sealed key (map (fun i => entropy (d + i)%nat) (seq 0 12)) image enc
      /\ sealed_from key entropy (d + 12) images' encs'
  | _, _ => False
  end.

(** * The note editor ([note-editor.tsx]) *)

(** [a === b] on strings. *)
Definition string_eq (a b : jsstring) : bool :=
  if list_eq_dec N.eq_dec a b then true else false.

(** A natural number in a template literal: its decimal digits. *)
Definition decimal (n : N) : jsstring :=
  js (NilZero.string_of_uint (N.to_uint n)).

(** [a.findIndex(p)], counting from [i]: -1 when no element satisfies [p]. *)
Fixpoint findIndex_from {A} (p : A -> bool) (a : list A) (i : Z) : Z :=
  match a with
  | [] => (-1)%Z
  | x :: rest => if p x then i else findIndex_from p rest (i + 1)%Z
  end.
Definition findIndex {A} (p : A -> bool) (a : list A) : Z := findIndex_from p a 0.

(** [a[k]] in an array whose elements may be [undefined]; it is
    [undefined] as well when [k] is not an index of the array. *)
Definition at_index {A} (a : list (option A)) (k : Z) : option A :=
  if (0 <=? k)%Z then nth (Z.to_nat k) a None else None.

(** [a[k] = v]: at a negative [k] this sets a property and leaves the
    elements; past the end the array grows. *)
Definition assign {A} (a : list (option A)) (k : Z) (v : option A) : list (option A) :=
  if (k <? 0)%Z then a
  else if (k <? Z.of_nat (length a))%Z
       then firstn (Z.to_nat k) a ++ v :: skipn (S (Z.to_nat k)) a
       else a ++ repeat None (Z.to_nat k - length a) ++ [v].

Inductive Direction : Type := Left | Right.

Module NoteEditor.

(** [images.map((img, idx) => ({ ...img, order: idx }))], from [idx]. *)
Fixpoint map_order (images : list DecryptedImage.t) (idx : nat)
    : list DecryptedImage.t :=
  match images with
  | [] => []
  | img :: rest =>
      DecryptedImage.mk (DecryptedImage.id img) (DecryptedImage.data img)
        (DecryptedImage.mimeType img) (Z.of_nat idx)
        :: map_order rest (S idx)
  end.

(** The same on an array that may hold [undefined]: [{ ...undefined,
    order: idx }] has an [order] and nothing else, it is not an image. *)
Fixpoint map_order_opt (images : list (option DecryptedImage.t)) (idx : nat)
    : list (option DecryptedImage.t) :=
  match images with
  | [] => []
  | img :: rest =>
      option_map
        (fun img =>
           DecryptedImage.mk (DecryptedImage.id img) (DecryptedImage.data img)
             (DecryptedImage.mimeType img) (Z.of_nat idx)) img
        :: map_order_opt rest (S idx)
  end.

(** The loop of [handleImageSelect] from the file of rank [i].  Each file
    is given by what [resizeImage] returns or throws for it and by what
    [Date.now()] is when its image is made. *)
Fixpoint select_files (images : list DecryptedImage.t)
    (files : list (Result (list byte) * N)) (i : nat)
    (newImages : list DecryptedImage.t) : Result (list DecryptedImage.t) :=
  match files with
  | [] => Ok newImages
  | (resized, now) :: rest =>
      rbind resized (fun resizedBuffer =>
      rbind (Base64.btoa (reduce_fromCharCode resizedBuffer)) (fun base64 =>
      select_files images rest (S i)
        (newImages
           ++ [DecryptedImage.mk
                 (js "temp-" ++ decimal now ++ js "-" ++ decimal (N.of_nat i))
                 base64 (js "image/jpeg") (Z.of_nat (length images + i))])))
  end.

(** [handleImageSelect]: the images of the editor after it. *)
Definition handleImageSelect (images : list DecryptedImage.t)
    (files : list (Result (list byte) * N)) : list DecryptedImage.t :=
  match files with
  | [] => images
  | _ :: _ =>
      match select_files images files 0 [] with
      | Ok newImages => images ++ newImages
      | Throw _ => images
      end
  end.

(** [handleRemoveImage]: the images of the editor after it. *)
Definition handleRemoveImage (images : list DecryptedImage.t) (imageId : jsstring)
    : list DecryptedImage.t :=
  map_order
    (filter (fun img => negb (string_eq (DecryptedImage.id img) imageId)) images) 0.

(** [handleReorderImage]: the array the editor holds after it. *)
Definition handleReorderImage (images : list DecryptedImage.t) (imageId : jsstring)
    (direction : Direction) : list (option DecryptedImage.t) :=
  let index := findIndex (fun img => string_eq (DecryptedImage.id img) imageId) images in
  if match direction with
     | Left => (index =? 0)%Z
     | Right => (index =? Z.of_nat (length images) - 1)%Z
     end
  then map Some images
  else
    let newImages := map Some images in
    let swapIndex :=
      match direction with
      | Left => (index - 1)%Z
      | Right => (index + 1)%Z
      end in
    let a := at_index newImages swapIndex in
    let b := at_index newImages index in
    let newImages := assign newImages index a in
    let newImages := assign newImages swapIndex b in
    map_order_opt newImages 0.

End NoteEditor.

(** * The image viewer ([image-viewer.tsx]) *)

Module ImageViewer.

(** [handlePrevious] and [handleNext]: the index after them, for [length]
    images. *)
Definition handlePrevious (length : Z) (prev : Z) : Z :=
  if (prev >? 0)%Z then (prev - 1)%Z else (length - 1)%Z.

Definition handleNext (length : Z) (prev : Z) : Z :=
  if (prev <? length - 1)%Z then (prev + 1)%Z else 0%Z.

End ImageViewer.

(** * [server-crypto.ts] *)

Module ServerCrypto.

(** [randomBytes(n)]: the next [n] bytes of the CSPRNG of the server. *)
Definition randomBytes (entropy : nat -> byte) (n : nat) : list byte :=
  map entropy (seq 0 n).

(** [buffer.toString('base64')] *)
Definition toString_base64 (buffer : list byte) : jsstring :=
  Base64.encode (map Byte.to_N buffer).

(** [generateSalt] *)
Definition generateSalt (entropy : nat -> byte) : jsstring :=
  let salt := randomBytes entropy 16 in
  toString_base64 salt.

(** [hashPassword]: [update] takes the string in UTF-8. *)
Definition hashPassword {SC : SubtleCrypto} (password : jsstring) : jsstring :=
  toString_base64 (sha256 (TextEncoder_encode password)).

End ServerCrypto.

(** *** Derived notions *)

(** An image without its rank. *)
Definition unranked (img : DecryptedImage.t) : jsstring * jsstring * jsstring :=
  (DecryptedImage.id img, DecryptedImage.data img, DecryptedImage.mimeType img).

(** The ranks of the images are 0, 1, 2, ... *)
Definition ranked (images : list DecryptedImage.t) : Prop :=
  map DecryptedImage.order images = map Z.of_nat (seq 0 (length images)).

(** A service that holds the key of 32 zero bytes. *)
Definition keyed_world : @World WebCrypto :=
  mkWorld (fun _ => x00) 0 [] (Some zero_key) None.

(** A note with one image, the byte 0x41. *)
Definition shopping_note : DecryptedNote.t :=
  DecryptedNote.mk None (js "Groceries") (js "milk, eggs") None false
    [DecryptedImage.mk (js "temp-1-0") (js "QQ==") (js "image/jpeg") 0]
    [] None None.

(** A signed-in user. *)
Definition ada : User.t :=
  User.mk (js "user-1") (js "ada@example.org") None (js "QmFzZTY0U2FsdA==").

(** * Properties *)

Ltac Zify.zify_post_hook ::= Z.to_euclidean_division_equations.

(** Case analysis on every boolean comparison of the goal. *)
Ltac ncases :=
  repeat match goal with
    | |- context [?a <? ?b] => destruct (N.ltb_spec a b)
    | |- context [?a <=? ?b] => destruct (N.leb_spec a b)
    | |- context [?a =? ?b] => destruct (N.eqb_spec a b)
    end; cbn [andb orb negb]; try reflexivity; try lia.

Lemma to_uint8_to_N (b : byte) : to_uint8 (Byte.to_N b) = b.
Proof.
  unfold to_uint8. pose proof (Byte.to_N_bounded b).
  rewrite N.mod_small by lia. now rewrite Byte.of_to_N.
Qed.

Lemma list_ind3 {A} (P : list A -> Prop) :
  P [] -> (forall a, P [a]) -> (forall a b, P [a; b]) ->
  (forall a b c l, P l -> P (a :: b :: c :: l)) ->
  forall l, P l.
Proof.
  intros H0 H1 H2 H3.
  fix IH 1. intros [|a [|b [|c l]]];
    [apply H0 | apply H1 | apply H2 | apply H3, IH].
Qed.

Section Base64Facts.
Import Base64.

Lemma sextet_of_char_of_sextet v :
  v < 64 -> sextet_of_char (char_of_sextet v) = Some v.
Proof.
  intros Hv. unfold sextet_of_char, char_of_sextet.
  ncases; f_equal; lia.
Qed.

Lemma char_of_sextet_plain v :
  v < 64 ->
  char_of_sextet v <> pad /\ is_ascii_whitespace (char_of_sextet v) = false
  /\ char_of_sextet v <= 255.
Proof.
  intros Hv. unfold char_of_sextet, is_ascii_whitespace, pad.
  ncases; repeat split; try lia; ncases.
Qed.

Lemma sextets_of_octets_lt bs :
  Forall (fun b => b < 256) bs -> Forall (fun v => v < 64) (sextets_of_octets bs).
Proof.
  induction bs as [|a|a b|a b c l IH] using list_ind3; intros H; cbn [sextets_of_octets].
  - constructor.
  - inversion_clear H. repeat (apply Forall_cons; [lia|]). apply Forall_nil.
  - inversion_clear H as [|? ? Ha H']. inversion_clear H'.
    repeat (apply Forall_cons; [lia|]). apply Forall_nil.
  - inversion_clear H as [|? ? Ha H']. inversion_clear H' as [|? ? Hb H''].
    inversion_clear H'' as [|? ? Hc Hl].
    repeat (apply Forall_cons; [lia|]). auto.
Qed.

Lemma octets_of_sextets_of_octets bs :
  Forall (fun b => b < 256) bs -> octets_of_sextets (sextets_of_octets bs) = bs.
Proof.
  induction bs as [|a|a b|a b c l IH] using list_ind3; intros H;
    cbn [sextets_of_octets octets_of_sextets].
  - reflexivity.
  - f_equal. lia.
  - inversion_clear H as [|? ? Ha H']. inversion_clear H'.
    repeat f_equal; lia.
  - inversion_clear H as [|? ? Ha H']. inversion_clear H' as [|? ? Hb H''].
    inversion_clear H'' as [|? ? Hc Hl].
    rewrite (IH Hl). repeat f_equal; lia.
Qed.

Lemma padding_SSS n : padding (S (S (S n))) = padding n.
Proof.
  unfold padding. replace (S (S (S n))) with (n + 1 * 3)%nat by lia.
  now rewrite Nat.Div0.mod_add.
Qed.

(** The data characters number 0, 2 or 3 modulo 4, and the padding fills
    the last group. *)
Lemma sextets_of_octets_length bs :
  (length (sextets_of_octets bs) mod 4 <> 1
   /\ (length (sextets_of_octets bs) + length (padding (length bs))) mod 4 = 0)%nat.
Proof.
  induction bs as [|a|a b|a b c l IH] using list_ind3;
    try (cbn; split; [lia | reflexivity]).
  cbn [sextets_of_octets]. cbn [length] in *. rewrite padding_SSS.
  destruct IH as [IH1 IH2].
  replace (S (S (S (S (length (sextets_of_octets l))))))
    with (length (sextets_of_octets l) + 1 * 4)%nat by lia.
  split.
  - now rewrite Nat.Div0.mod_add.
  - replace (length (sextets_of_octets l) + 1 * 4 + length (padding (length l)))%nat
      with (length (sextets_of_octets l) + length (padding (length l)) + 1 * 4)%nat by lia.
    now rewrite Nat.Div0.mod_add.
Qed.

Lemma padding_cases n : padding n = [] \/ padding n = [pad] \/ padding n = [pad; pad].
Proof.
  unfold padding. destruct (n mod 3)%nat as [|[|[|?]]]; auto.
Qed.

Lemma strip_padding_app xs p :
  (length (xs ++ p) mod 4 = 0)%nat ->
  p = [] \/ p = [pad] \/ p = [pad; pad] ->
  Forall (fun c => c <> pad) xs ->
  strip_padding (xs ++ p) = xs.
Proof.
  intros Hlen Hp Hxs. unfold strip_padding. rewrite Hlen. cbn [Nat.eqb].
  rewrite rev_app_distr.
  assert (Hrev : Forall (fun c => c <> pad) (rev xs)).
  { apply Forall_forall. intros c Hc. apply in_rev in Hc.
    revert c Hc. now apply Forall_forall. }
  destruct Hp as [-> | [-> | ->]]; cbn [rev app].
  - rewrite app_nil_r.
    destruct (rev xs) as [|c1 [|c2 r]] eqn:E; try reflexivity.
    + inversion_clear Hrev. destruct (N.eqb_spec c1 pad); [contradiction | reflexivity].
    + inversion_clear Hrev. destruct (N.eqb_spec c1 pad); [contradiction | reflexivity].
  - destruct (rev xs) as [|c2 r] eqn:E.
    + rewrite N.eqb_refl. apply (f_equal (@rev N)) in E.
      rewrite rev_involutive in E. now subst xs.
    + inversion_clear Hrev. rewrite N.eqb_refl.
      destruct (N.eqb_spec c2 pad); [contradiction |]. cbn [andb].
      change (rev r ++ [c2]) with (rev (c2 :: r)).
      rewrite <- E. apply rev_involutive.
  - rewrite !N.eqb_refl. cbn [andb]. apply rev_involutive.
Qed.

Lemma sextets_of_chars_of_sextets vs :
  Forall (fun v => v < 64) vs ->
  sextets_of_chars (map char_of_sextet vs) = Some vs.
Proof.
  induction 1 as [|v vs Hv _ IH]; cbn [map sextets_of_chars]; [reflexivity|].
  now rewrite sextet_of_char_of_sextet, IH.
Qed.

Lemma remove_whitespace_id s :
  Forall (fun c => is_ascii_whitespace c = false) s -> remove_whitespace s = s.
Proof.
  unfold remove_whitespace.
  induction 1 as [|c s Hc _ IH]; cbn [filter]; [reflexivity|].
  rewrite Hc. cbn [negb]. now rewrite IH.
Qed.

Lemma encode_chars_plain bs :
  Forall (fun b => b < 256) bs ->
  Forall (fun c => c <> pad /\ is_ascii_whitespace c = false /\ c <= 255)
    (map char_of_sextet (sextets_of_octets bs)).
Proof.
  intros H. apply sextets_of_octets_lt in H.
  induction H; cbn [map]; constructor; auto using char_of_sextet_plain.
Qed.

(** [atob] inverts [btoa] on every sequence of octets. *)
Lemma decode_encode bs :
  Forall (fun b => b < 256) bs -> decode (encode bs) = Some bs.
Proof.
  intros H. unfold decode.
  pose proof (encode_chars_plain bs H) as Hplain.
  pose proof (sextets_of_octets_length bs) as [Hlen1 Hlen4].
  assert (Hws : remove_whitespace (encode bs) = encode bs).
  { apply remove_whitespace_id. unfold encode. apply Forall_app. split.
    - eapply Forall_impl; [|exact Hplain]. cbn. tauto.
    - destruct (padding_cases (length bs)) as [-> | [-> | ->]];
        repeat constructor. }
  rewrite Hws. unfold encode.
  rewrite strip_padding_app.
  - rewrite length_map.
    destruct (Nat.eqb_spec (length (sextets_of_octets bs) mod 4) 1); [contradiction|].
    rewrite sextets_of_chars_of_sextets by now apply sextets_of_octets_lt.
    cbn [option_map]. now rewrite octets_of_sextets_of_octets.
  - now rewrite length_app, length_map.
  - apply padding_cases.
  - eapply Forall_impl; [|exact Hplain]. cbn. tauto.
Qed.

End Base64Facts.

Lemma fold_left_snoc {A B} (f : A -> B) (l : list A) (acc : list B) :
  fold_left (fun acc a => acc ++ [f a]) l acc = acc ++ map f l.
Proof.
  revert acc. induction l as [|a l IH]; intros acc; cbn [fold_left map].
  - now rewrite app_nil_r.
  - rewrite IH, <- app_assoc. reflexivity.
Qed.

Lemma octets_of_bytes (bs : list byte) :
  Forall (fun b => b < 256) (map fromCharCode bs).
Proof.
  apply Forall_forall. intros n Hn. apply in_map_iff in Hn.
  destruct Hn as [b [<- _]]. pose proof (Byte.to_N_bounded b).
  unfold fromCharCode. lia.
Qed.

Lemma map_to_uint8_fromCharCode (bs : list byte) :
  map to_uint8 (map fromCharCode bs) = bs.
Proof.
  induction bs as [|b bs IH]; cbn [map]; [reflexivity|].
  unfold fromCharCode at 1. now rewrite to_uint8_to_N, IH.
Qed.

(** [arrayBufferToBase64] never throws: every byte is a code unit below 256. *)
Lemma arrayBufferToBase64_eq (b : list byte) :
  arrayBufferToBase64 b = Ok (Base64.encode (map fromCharCode b)).
Proof.
  unfold arrayBufferToBase64, Base64.btoa. rewrite fold_left_snoc. cbn [app].
  replace (forallb (fun c => c <=? 255) (map fromCharCode b)) with true; [reflexivity|].
  symmetry. apply forallb_forall. intros n Hn.
  pose proof (octets_of_bytes b) as H. rewrite Forall_forall in H.
  apply H in Hn. apply N.leb_le. lia.
Qed.

Lemma base64ToArrayBuffer_encode (b : list byte) :
  base64ToArrayBuffer (Base64.encode (map fromCharCode b)) = Ok b.
Proof.
  unfold base64ToArrayBuffer, Base64.atob.
  rewrite decode_encode by apply octets_of_bytes.
  cbn [rbind]. now rewrite map_to_uint8_fromCharCode.
Qed.

(** C7. Transport-encoding round trip: for every byte array [b],
    [arrayBufferToBase64 b] returns a text and [base64ToArrayBuffer] of that
    text returns [b]. *)
Theorem base64_round_trip (b : list byte) :
  rbind (arrayBufferToBase64 b) base64ToArrayBuffer = Ok b.
Proof.
  rewrite arrayBufferToBase64_eq. cbn [rbind].
  apply base64ToArrayBuffer_encode.
Qed.

(** ** The functions of [encryption.ts], step by step *)

Section Runs.
Context {SC : SubtleCrypto}.

Lemma length_next_bytes w n : length (next_bytes w n) = n.
Proof. unfold next_bytes. now rewrite length_map, length_seq. Qed.

Lemma combined_app (iv ciphertext : list byte) :
  combined iv ciphertext = iv ++ ciphertext.
Proof.
  unfold combined, set_at, new_Uint8Array. cbn [firstn app Nat.add].
  set (r := skipn (length iv) (repeat x00 (length iv + length ciphertext))).
  assert (Hr : length r = length ciphertext).
  { unfold r. rewrite length_skipn, repeat_length. lia. }
  rewrite firstn_app, firstn_all, Nat.sub_diag. cbn [firstn].
  rewrite app_nil_r, skipn_all2 by (rewrite length_app; lia).
  now rewrite app_nil_r.
Qed.

Lemma encryptBinary_run data key w :
  encryptBinary data key w =
    (Ok (blob_of key (next_bytes w IV_LENGTH) data),
     logged (advanced w IV_LENGTH)
       [GetRandomValues IV_LENGTH; Encrypt (next_bytes w IV_LENGTH) data]).
Proof.
  unfold encryptBinary, bind, getRandomValues, subtle_encrypt, bind, record, ret, lift.
  cbn [entropy drawn calls this_key this_salt].
  rewrite combined_app, arrayBufferToBase64_eq.
  unfold logged, advanced, blob_of. cbn [entropy drawn calls this_key this_salt].
  now rewrite <- app_assoc.
Qed.

Lemma encryptString_run plaintext key w :
  encryptString plaintext key w =
    encryptBinary (TextEncoder_encode plaintext) key w.
Proof. reflexivity. Qed.

Lemma decryptBinary_run ciphertext key w :
  decryptBinary ciphertext key w =
    match base64ToArrayBuffer ciphertext with
    | Ok bs =>
        (match aes_gcm_decrypt key (firstn IV_LENGTH bs) (skipn IV_LENGTH bs) with
         | Some plaintext => Ok plaintext
         | None => Throw OperationError
         end,
         logged w [Decrypt (firstn IV_LENGTH bs) (skipn IV_LENGTH bs)])
    | Throw e => (Throw e, w)
    end.
Proof.
  unfold decryptBinary, bind, lift.
  destruct (base64ToArrayBuffer ciphertext) as [bs|e]; [|reflexivity].
  unfold subtle_decrypt, bind, record, slice, slice_from. cbn [skipn Nat.sub].
  replace (IV_LENGTH - 0)%nat with IV_LENGTH by reflexivity.
  destruct (aes_gcm_decrypt key (firstn IV_LENGTH bs) (skipn IV_LENGTH bs));
    reflexivity.
Qed.

Lemma decryptString_run ciphertext key w :
  decryptString ciphertext key w =
    (match fst (decryptBinary ciphertext key w) with
     | Ok decrypted => Ok (TextDecoder_decode decrypted)
     | Throw e => Throw e
     end,
     snd (decryptBinary ciphertext key w)).
Proof.
  rewrite decryptBinary_run.
  unfold decryptString, bind, lift.
  destruct (base64ToArrayBuffer ciphertext) as [bs|e]; [|reflexivity].
  unfold subtle_decrypt, bind, record, slice, slice_from. cbn [skipn Nat.sub].
  replace (IV_LENGTH - 0)%nat with IV_LENGTH by reflexivity.
  destruct (aes_gcm_decrypt key (firstn IV_LENGTH bs) (skipn IV_LENGTH bs));
    reflexivity.
Qed.

Lemma deriveKeyFromPassword_run password salt w :
  deriveKeyFromPassword password salt w =
    match base64ToArrayBuffer salt with
    | Ok saltBuffer =>
        (Ok (pbkdf2_sha256 (TextEncoder_encode password) saltBuffer
               PBKDF2_ITERATIONS KEY_LENGTH),
         logged w [ImportKey (TextEncoder_encode password);
                   DeriveKey saltBuffer PBKDF2_ITERATIONS KEY_LENGTH])
    | Throw e => (Throw e, w)
    end.
Proof.
  unfold deriveKeyFromPassword, bind, lift.
  destruct (base64ToArrayBuffer salt) as [sb|e]; [|reflexivity].
  unfold subtle_importKey, subtle_deriveKey, bind, record, ret, logged.
  cbn [entropy drawn calls this_key this_salt].
  now rewrite <- app_assoc.
Qed.

(** The blob decodes to the nonce followed by the output of AES-GCM. *)
Lemma base64ToArrayBuffer_blob key iv data :
  base64ToArrayBuffer (blob_of key iv data) = Ok (iv ++ aes_gcm_encrypt key iv data).
Proof. apply base64ToArrayBuffer_encode. Qed.

End Runs.

(** ** Key derivation *)

Section KeyDerivation.
Context {SC : SubtleCrypto}.

(** C4. KDF determinism: the key [deriveKeyFromPassword] returns is
    PBKDF2-HMAC-SHA-256 of the encoded password and the decoded salt with
    600000 iterations and 256 bits, whatever the world it runs in: two calls
    with the same password and salt give the same result, and the call reads
    no random byte and leaves the service untouched. *)
Theorem deriveKeyFromPassword_deterministic (password salt : jsstring) (w1 w2 : World) :
  fst (deriveKeyFromPassword password salt w1)
    = fst (deriveKeyFromPassword password salt w2)
  /\ fst (deriveKeyFromPassword password salt w1)
     = rbind (base64ToArrayBuffer salt)
         (fun saltBuffer =>
            Ok (pbkdf2_sha256 (TextEncoder_encode password) saltBuffer 600000 256))
  /\ drawn (snd (deriveKeyFromPassword password salt w1)) = drawn w1
  /\ this_key (snd (deriveKeyFromPassword password salt w1)) = this_key w1.
Proof.
  rewrite !deriveKeyFromPassword_run.
  destruct (base64ToArrayBuffer salt) as [sb|e]; cbn; auto.
Qed.

End KeyDerivation.

(** ** The wire format *)

Section WireFormat.
Context {SC : SubtleCrypto}.

(** C5. Blob wire format: the blob [encryptString] and [encryptBinary]
    return decodes to the 12 bytes drawn from the CSPRNG followed by the
    output of AES-GCM under that nonce, and nothing else; [decryptString] and
    [decryptBinary] decode the text, take the first 12 bytes as the nonce and
    give the rest to AES-GCM. *)
Theorem blob_wire_format (key : CryptoKey) (w : World) :
  let nonce := next_bytes w 12 in
  length nonce = 12%nat
  /\ (forall data,
        exists blob, fst (encryptBinary data key w) = Ok blob
          /\ arrayBufferToBase64 (nonce ++ aes_gcm_encrypt key nonce data) = Ok blob
          /\ base64ToArrayBuffer blob = Ok (nonce ++ aes_gcm_encrypt key nonce data))
  /\ (forall plaintext,
        exists blob, fst (encryptString plaintext key w) = Ok blob
          /\ arrayBufferToBase64
               (nonce ++ aes_gcm_encrypt key nonce (TextEncoder_encode plaintext))
             = Ok blob
          /\ base64ToArrayBuffer blob
             = Ok (nonce ++ aes_gcm_encrypt key nonce (TextEncoder_encode plaintext)))
  /\ (forall text,
        fst (decryptBinary text key w)
        = rbind (base64ToArrayBuffer text)
            (fun bs =>
               match aes_gcm_decrypt key (firstn 12 bs) (skipn 12 bs) with
               | Some data => Ok data
               | None => Throw OperationError
               end))
  /\ (forall text,
        fst (decryptString text key w)
        = rbind (base64ToArrayBuffer text)
            (fun bs =>
               match aes_gcm_decrypt key (firstn 12 bs) (skipn 12 bs) with
               | Some data => Ok (TextDecoder_decode data)
               | None => Throw OperationError
               end)).
Proof.
  cbv zeta. split; [apply length_next_bytes|]. split; [|split; [|split]].
  - intros data. eexists. rewrite encryptBinary_run. cbn [fst]. split; [reflexivity|].
    split; [apply arrayBufferToBase64_eq | apply base64ToArrayBuffer_blob].
  - intros plaintext. eexists. rewrite encryptString_run, encryptBinary_run.
    cbn [fst]. split; [reflexivity|].
    split; [apply arrayBufferToBase64_eq | apply base64ToArrayBuffer_blob].
  - intros text. rewrite decryptBinary_run.
    destruct (base64ToArrayBuffer text); reflexivity.
  - intros text. rewrite decryptString_run, decryptBinary_run.
    destruct (base64ToArrayBuffer text) as [bs|e]; [|reflexivity].
    cbn [fst rbind]. change IV_LENGTH with 12%nat.
    destruct (aes_gcm_decrypt key (firstn 12 bs) (skipn 12 bs)); reflexivity.
Qed.

End WireFormat.

(** ** The session *)

Section Session.
Context {SC : SubtleCrypto}.

Lemma require_key_none w A (k : CryptoKey -> M A) :
  this_key w = None -> bind require_key k w = (Throw NotInitializedError, w).
Proof. intros H. unfold bind, require_key. now rewrite H. Qed.

Lemma require_key_some w key A (k : CryptoKey -> M A) :
  this_key w = Some key -> bind require_key k w = k key w.
Proof. intros H. unfold bind, require_key. now rewrite H. Qed.

Lemma clear_run w :
  clear w = (Ok tt, mkWorld (entropy w) (drawn w) (calls w) None None).
Proof. reflexivity. Qed.

Lemma initialize_run password salt w :
  initialize password salt w =
    match base64ToArrayBuffer salt with
    | Ok saltBuffer =>
        (Ok tt,
         mkWorld (entropy w) (drawn w)
           (calls w ++ [ImportKey (TextEncoder_encode password);
                        DeriveKey saltBuffer PBKDF2_ITERATIONS KEY_LENGTH])
           (Some (pbkdf2_sha256 (TextEncoder_encode password) saltBuffer
                    PBKDF2_ITERATIONS KEY_LENGTH))
           (Some salt))
    | Throw e =>
        (Throw e, mkWorld (entropy w) (drawn w) (calls w) (this_key w) (Some salt))
    end.
Proof.
  unfold initialize, bind, set_salt. rewrite deriveKeyFromPassword_run.
  destruct (base64ToArrayBuffer salt); reflexivity.
Qed.

(** A completed [initialize] leaves a key in the service. *)
Lemma initialize_key password salt w :
  fst (initialize password salt w) = Ok tt ->
  exists key, this_key (snd (initialize password salt w)) = Some key.
Proof.
  rewrite initialize_run. destruct (base64ToArrayBuffer salt); cbn; [eauto | discriminate].
Qed.

(** C6. Session lifecycle: in the world [clear] leaves, each of the six
    operations throws the "not initialized" error; in the world a completed
    [initialize] leaves, the three encryptions return a blob and the three
    decryptions are the decryption under the derived key, so that none of
    the six throws that error. *)
Theorem session_lifecycle (w : World) :
  (let w' := snd (clear w) in
   (forall t c, fst (encryptNote t c w') = Throw NotInitializedError)
   /\ (forall t c, fst (decryptNote t c w') = Throw NotInitializedError)
   /\ (forall d, fst (encryptImage d w') = Throw NotInitializedError)
   /\ (forall e, fst (decryptImage e w') = Throw NotInitializedError)
   /\ (forall n, fst (encryptLabel n w') = Throw NotInitializedError)
   /\ (forall n, fst (decryptLabel n w') = Throw NotInitializedError)
   /\ exn_kind NotInitializedError = NotInitialized)
  /\ (forall password salt,
        fst (initialize password salt w) = Ok tt ->
        let w' := snd (initialize password salt w) in
        (forall t c, exists n, fst (encryptNote t c w') = Ok n)
        /\ (forall d, exists blob, fst (encryptImage d w') = Ok blob)
        /\ (forall n, exists blob, fst (encryptLabel n w') = Ok blob)
        /\ (forall t c e, fst (decryptNote t c w') = Throw e ->
                          exn_kind e <> NotInitialized)
        /\ (forall x e, fst (decryptImage x w') = Throw e ->
                        exn_kind e <> NotInitialized)
        /\ (forall n e, fst (decryptLabel n w') = Throw e ->
                        exn_kind e <> NotInitialized)).
Proof.
  split.
  - cbv zeta. rewrite clear_run. cbn [snd].
    repeat split; intros;
      unfold encryptNote, decryptNote, encryptImage, decryptImage, encryptLabel,
        decryptLabel; now rewrite require_key_none.
  - intros password salt Hinit. cbv zeta.
    destruct (initialize_key _ _ _ Hinit) as [key Hkey].
    set (w' := snd (initialize password salt w)) in *.
    assert (Hdec : forall x e, fst (decryptBinary x key w') = Throw e ->
                               exn_kind e <> NotInitialized).
    { intros x e. rewrite decryptBinary_run. unfold base64ToArrayBuffer, Base64.atob.
      destruct (Base64.decode x); cbn [rbind fst].
      - destruct (aes_gcm_decrypt _ _ _); [discriminate|].
        intros [= <-]. discriminate.
      - intros [= <-]. discriminate. }
    assert (Hdecs : forall x e, fst (decryptString x key w') = Throw e ->
                                exn_kind e <> NotInitialized).
    { intros x e. rewrite decryptString_run. cbn [fst].
      destruct (fst (decryptBinary x key w')) eqn:E; [discriminate|].
      intros [= <-]. now apply (Hdec x). }
    repeat split.
    + intros t c. unfold encryptNote. rewrite (require_key_some _ key) by assumption.
      unfold bind. rewrite encryptString_run, encryptBinary_run.
      rewrite encryptString_run, encryptBinary_run. eexists. reflexivity.
    + intros d. unfold encryptImage. rewrite (require_key_some _ key) by assumption.
      rewrite encryptBinary_run. eexists. reflexivity.
    + intros n. unfold encryptLabel. rewrite (require_key_some _ key) by assumption.
      rewrite encryptString_run, encryptBinary_run. eexists. reflexivity.
    + intros t c e. unfold decryptNote. rewrite (require_key_some _ key) by assumption.
      unfold bind.
      destruct (decryptString t key w') as [[title|e1] w1] eqn:Et.
      * destruct c as [|c0 c'].
        -- cbn. discriminate.
        -- destruct (decryptString (c0 :: c') key w1) as [[body|e2] w2] eqn:Ec.
           ++ cbn. discriminate.
           ++ cbn [fst]. intros [= <-].
              (* the key-independent classification of a decryption error *)
              revert Ec. rewrite decryptString_run, decryptBinary_run.
              unfold base64ToArrayBuffer, Base64.atob.
              destruct (Base64.decode (c0 :: c')); cbn [rbind fst].
              ** destruct (aes_gcm_decrypt _ _ _); [discriminate|].
                 intros [= <- _]. discriminate.
              ** intros [= <- _]. discriminate.
      * cbn [fst]. intros [= <-]. apply (Hdecs t). now rewrite Et.
    + intros x e. unfold decryptImage. rewrite (require_key_some _ key) by assumption.
      apply Hdec.
    + intros n e. unfold decryptLabel. rewrite (require_key_some _ key) by assumption.
      apply Hdecs.
Qed.

End Session.

(** ** Notes with an empty body *)

Lemma encode_not_nil (a : N) (l : list N) : Base64.encode (a :: l) <> [].
Proof.
  unfold Base64.encode. destruct l as [|b [|c l]]; cbn; discriminate.
Qed.

Section EmptyContent.
Context {SC : SubtleCrypto}.

Lemma blob_of_not_nil key w data : blob_of key (next_bytes w IV_LENGTH) data <> [].
Proof.
  unfold blob_of, next_bytes. cbn [IV_LENGTH seq map app]. apply encode_not_nil.
Qed.

(** C10. Empty-content bypass: in a service that holds a key,
    [decryptNote t ""] decrypts the title only: it is [decryptString t] with
    the content set to [""], and the one call of [crypto.subtle.decrypt] it
    makes is the title's (none when the title is not base64).  [encryptNote]
    never returns an empty content, not even for the body [""]; and for any
    other content [decryptNote] does decrypt it after the title. *)
Theorem decryptNote_empty_content
    (rng : nat -> byte) (n : nat) (log : list Call) (key : CryptoKey)
    (salt : option jsstring) (t : jsstring) :
  let w := mkWorld rng n log (Some key) salt in
  decryptNote t [] w
    = (match fst (decryptString t key w) with
       | Ok plain => Ok (mkNote plain [])
       | Throw e => Throw e
       end,
       snd (decryptString t key w))
  /\ calls (snd (decryptNote t [] w))
     = log ++ match base64ToArrayBuffer t with
              | Ok bs => [Decrypt (firstn 12 bs) (skipn 12 bs)]
              | Throw _ => []
              end
  /\ (forall plain, exists note,
        fst (encryptNote plain [] w) = Ok note /\ content note <> [])
  /\ (forall c0 c',
        decryptNote t (c0 :: c') w
        = (plain <- decryptString t key ;;
           body <- decryptString (c0 :: c') key ;;
           ret (mkNote plain body)) w).
Proof.
  cbv zeta. set (w := mkWorld rng n log (Some key) salt).
  assert (Hkey : this_key w = Some key) by reflexivity.
  split; [|split; [|split]].
  - unfold decryptNote. rewrite (require_key_some _ key) by assumption.
    unfold bind, ret. destruct (decryptString t key w) as [[plain|e] w1]; reflexivity.
  - unfold decryptNote. rewrite (require_key_some _ key) by assumption.
    unfold bind, ret. rewrite decryptString_run, decryptBinary_run.
    destruct (base64ToArrayBuffer t) as [bs|e]; cbn [fst snd].
    + destruct (aes_gcm_decrypt _ _ _); reflexivity.
    + cbn. now rewrite app_nil_r.
  - intros plain. unfold encryptNote. rewrite (require_key_some _ key) by assumption.
    unfold bind, ret. rewrite encryptString_run, encryptBinary_run.
    rewrite encryptString_run, encryptBinary_run.
    eexists. split; [reflexivity|]. cbn [content]. apply blob_of_not_nil.
  - intros c0 c'. unfold decryptNote.
    now rewrite (require_key_some _ key) by assumption.
Qed.

End EmptyContent.

(** ** Nonces *)

Section Nonces.
Context {SC : SubtleCrypto}.

Lemma map_fromCharCode_inj (a b : list byte) :
  map fromCharCode a = map fromCharCode b -> a = b.
Proof.
  intros H. rewrite <- (map_to_uint8_fromCharCode a), <- (map_to_uint8_fromCharCode b).
  now rewrite H.
Qed.

Lemma blob_of_inj key iv1 iv2 data1 data2 :
  blob_of key iv1 data1 = blob_of key iv2 data2 ->
  iv1 ++ aes_gcm_encrypt key iv1 data1 = iv2 ++ aes_gcm_encrypt key iv2 data2.
Proof.
  intros H. apply (f_equal base64ToArrayBuffer) in H.
  rewrite !base64ToArrayBuffer_blob in H. now injection H.
Qed.

Lemma app_eq_length_inv {A} (a b c d : list A) :
  length a = length b -> a ++ c = b ++ d -> a = b /\ c = d.
Proof.
  revert b. induction a as [|x a IH]; intros [|y b] Hlen H; try discriminate.
  - auto.
  - cbn in *. injection H as -> H. injection Hlen as Hlen.
    destruct (IH b Hlen H) as [-> ->]. auto.
Qed.

(** Two blobs for the same data under the same key are the same exactly
    when their nonces are. *)
Lemma blob_of_eq_iff key iv1 iv2 data :
  length iv1 = length iv2 ->
  blob_of key iv1 data = blob_of key iv2 data <-> iv1 = iv2.
Proof.
  intros Hlen. split.
  - intros H. apply blob_of_inj in H. now apply app_eq_length_inv in H.
  - now intros ->.
Qed.

Lemma next_bytes_advanced w n m cs :
  next_bytes (logged (advanced w n) cs) m
  = map (fun i => entropy w (drawn w + n + i)%nat) (seq 0 m).
Proof. reflexivity. Qed.

Lemma encryptBinary_twice (data : list byte) (key : CryptoKey) (w : World) :
  let first := encryptBinary data key w in
  let second := encryptBinary data key (snd first) in
  let nonce1 := map (fun i => entropy w (drawn w + i)%nat) (seq 0 12) in
  let nonce2 := map (fun i => entropy w (drawn w + 12 + i)%nat) (seq 0 12) in
  exists blob1 blob2,
    fst first = Ok blob1 /\ fst second = Ok blob2
    /\ base64ToArrayBuffer blob1 = Ok (nonce1 ++ aes_gcm_encrypt key nonce1 data)
    /\ base64ToArrayBuffer blob2 = Ok (nonce2 ++ aes_gcm_encrypt key nonce2 data)
    /\ drawn (snd second) = (drawn w + 24)%nat
    /\ (blob1 <> blob2 <-> nonce1 <> nonce2).
Proof.
  cbv zeta. rewrite encryptBinary_run. cbn [fst snd]. rewrite encryptBinary_run.
  cbn [fst snd]. rewrite next_bytes_advanced.
  change (next_bytes w IV_LENGTH)
    with (map (fun i => entropy w (drawn w + i)%nat) (seq 0 12)).
  change IV_LENGTH with 12%nat.
  set (nonce1 := map (fun i => entropy w (drawn w + i)%nat) (seq 0 12)).
  set (nonce2 := map (fun i => entropy w (drawn w + 12 + i)%nat) (seq 0 12)).
  exists (blob_of key nonce1 data), (blob_of key nonce2 data).
  split; [reflexivity|]. split; [reflexivity|].
  split; [apply base64ToArrayBuffer_blob|].
  split; [apply base64ToArrayBuffer_blob|].
  split; [cbn [drawn logged advanced]; lia|].
  split.
  - intros H Hn. apply H. now rewrite Hn.
  - intros H Hb. apply H. apply blob_of_eq_iff in Hb; [assumption|].
    unfold nonce1, nonce2. now rewrite !length_map.
Qed.

(** C2 (amended). Nonce freshness: each call of [encryptString] and of
    [encryptBinary] takes its own 12 bytes from the CSPRNG, the first call
    the next 12 and the second call the 12 after those; each call returns a
    blob that begins with its nonce, and the two blobs differ exactly when
    the two nonces differ. *)
Theorem nonce_freshness (key : CryptoKey) (w : World) :
  let nonce1 := map (fun i => entropy w (drawn w + i)%nat) (seq 0 12) in
  let nonce2 := map (fun i => entropy w (drawn w + 12 + i)%nat) (seq 0 12) in
  (forall plaintext,
     let first := encryptString plaintext key w in
     let second := encryptString plaintext key (snd first) in
     exists blob1 blob2,
       fst first = Ok blob1 /\ fst second = Ok blob2
       /\ base64ToArrayBuffer blob1
          = Ok (nonce1 ++ aes_gcm_encrypt key nonce1 (TextEncoder_encode plaintext))
       /\ base64ToArrayBuffer blob2
          = Ok (nonce2 ++ aes_gcm_encrypt key nonce2 (TextEncoder_encode plaintext))
       /\ drawn (snd second) = (drawn w + 24)%nat
       /\ (blob1 <> blob2 <-> nonce1 <> nonce2))
  /\ (forall data,
        let first := encryptBinary data key w in
        let second := encryptBinary data key (snd first) in
        exists blob1 blob2,
          fst first = Ok blob1 /\ fst second = Ok blob2
          /\ base64ToArrayBuffer blob1 = Ok (nonce1 ++ aes_gcm_encrypt key nonce1 data)
          /\ base64ToArrayBuffer blob2 = Ok (nonce2 ++ aes_gcm_encrypt key nonce2 data)
          /\ drawn (snd second) = (drawn w + 24)%nat
          /\ (blob1 <> blob2 <-> nonce1 <> nonce2)).
Proof.
  cbv zeta. split.
  - intros plaintext. rewrite !encryptString_run.
    exact (encryptBinary_twice (TextEncoder_encode plaintext) key w).
  - intros data. exact (encryptBinary_twice data key w).
Qed.

End Nonces.

(** ** Truncated blobs *)

Section Truncated.
Context {SC : SubtleCrypto} {L : SubtleCryptoLaws SC}.

Lemma base64ToArrayBuffer_throws text e :
  base64ToArrayBuffer text = Throw e -> e = InvalidCharacterError.
Proof.
  unfold base64ToArrayBuffer, Base64.atob.
  destruct (Base64.decode text); cbn [rbind]; [discriminate|]. now intros [= <-].
Qed.

(** C9. Truncated-blob safety: when the blob decodes to fewer than 12 bytes,
    or does not decode, [decryptString] throws; what it throws is
    [InvalidCharacterError] when the text is not base64 and [OperationError]
    otherwise, the two exceptions that stand for [MalformedEncoding] and
    [DecryptionFailed]. *)
Theorem decryptString_truncated (blob : jsstring) (key : CryptoKey) (w : World) :
  (forall bs, base64ToArrayBuffer blob = Ok bs -> (length bs < 12)%nat) ->
  exists e,
    fst (decryptString blob key w) = Throw e
    /\ e = match base64ToArrayBuffer blob with
           | Ok _ => OperationError
           | Throw _ => InvalidCharacterError
           end
    /\ (exn_kind e = MalformedEncoding \/ exn_kind e = DecryptionFailed).
Proof.
  intros Hshort. rewrite decryptString_run, decryptBinary_run.
  destruct (base64ToArrayBuffer blob) as [bs|e] eqn:E.
  - specialize (Hshort bs eq_refl).
    rewrite aes_gcm_short.
    + exists OperationError. cbn. auto.
    + rewrite length_skipn. change IV_LENGTH with 12%nat. lia.
  - apply base64ToArrayBuffer_throws in E. subst e.
    exists InvalidCharacterError. cbn. auto.
Qed.

End Truncated.

(** ** UTF-8 *)

Lemma list_ind2 {A} (P : list A -> Prop) :
  P [] -> (forall a, P [a]) ->
  (forall a b l, P l -> P (b :: l) -> P (a :: b :: l)) ->
  forall l, P l.
Proof.
  intros H0 H1 H2 l.
  enough (H : P l /\ forall a, P (a :: l)) by apply H.
  induction l as [|b l [IHl IHc]]; split; auto.
Qed.

Section Utf8Facts.
Import Utf8.

Lemma lead_1 b : b <= 0x7F -> lead b = ([b], start).
Proof. intros H. unfold lead. ncases. Qed.

Lemma lead_2 b :
  0xC2 <= b <= 0xDF -> lead b = ([], mkDecoder (b mod 32) 0 1 0x80 0xBF).
Proof. intros H. unfold lead. ncases. Qed.

Lemma lead_3 b :
  0xE0 <= b <= 0xEF ->
  lead b = ([], mkDecoder (b mod 16) 0 2 (if b =? 0xE0 then 0xA0 else 0x80)
                  (if b =? 0xED then 0x9F else 0xBF)).
Proof.
  intros H. unfold lead.
  destruct (N.leb_spec b 0x7F); [lia|].
  destruct (N.leb_spec 0xC2 b); [|lia].
  destruct (N.leb_spec b 0xDF); [lia|]. cbn [andb].
  destruct (N.leb_spec 0xE0 b); [|lia].
  destruct (N.leb_spec b 0xEF); [|lia]. reflexivity.
Qed.

Lemma lead_4 b :
  0xF0 <= b <= 0xF4 ->
  lead b = ([], mkDecoder (b mod 8) 0 3 (if b =? 0xF0 then 0x90 else 0x80)
                  (if b =? 0xF4 then 0x8F else 0xBF)).
Proof.
  intros H. unfold lead.
  destruct (N.leb_spec b 0x7F); [lia|].
  destruct (N.leb_spec 0xC2 b); [|lia].
  destruct (N.leb_spec b 0xDF); [lia|]. cbn [andb].
  destruct (N.leb_spec 0xE0 b); [|lia].
  destruct (N.leb_spec b 0xEF); [lia|]. cbn [andb].
  destruct (N.leb_spec 0xF0 b); [|lia].
  destruct (N.leb_spec b 0xF4); [|lia]. reflexivity.
Qed.

Lemma run_start b rest :
  run start (b :: rest) = fst (lead b) ++ run (snd (lead b)) rest.
Proof. reflexivity. Qed.

(** A continuation byte inside its boundaries: the last of its sequence,
    or one more. *)
Lemma run_last cp seen needed lo hi b rest :
  needed <> 0 -> seen + 1 = needed -> lo <= b <= hi ->
  run (mkDecoder cp seen needed lo hi) (b :: rest)
  = cp * 64 + b mod 64 :: run start rest.
Proof.
  intros Hn Hs Hb.
  cbn [run bytes_needed lower_boundary upper_boundary code_point bytes_seen].
  destruct (N.eqb_spec needed 0); [contradiction|].
  destruct (N.ltb_spec b lo); [lia|].
  destruct (N.ltb_spec hi b); [lia|]. cbn [orb].
  destruct (N.eqb_spec (seen + 1) needed); [reflexivity | contradiction].
Qed.

Lemma run_more cp seen needed lo hi b rest :
  needed <> 0 -> seen + 1 <> needed -> lo <= b <= hi ->
  run (mkDecoder cp seen needed lo hi) (b :: rest)
  = run (mkDecoder (cp * 64 + b mod 64) (seen + 1) needed 0x80 0xBF) rest.
Proof.
  intros Hn Hs Hb.
  cbn [run bytes_needed lower_boundary upper_boundary code_point bytes_seen].
  destruct (N.eqb_spec needed 0); [contradiction|].
  destruct (N.ltb_spec b lo); [lia|].
  destruct (N.ltb_spec hi b); [lia|]. cbn [orb].
  destruct (N.eqb_spec (seen + 1) needed); [contradiction | reflexivity].
Qed.

Lemma run_encode_scalar cp rest :
  is_scalar cp -> run start (encode_scalar cp ++ rest) = cp :: run start rest.
Proof.
  intros Hcp. unfold encode_scalar.
  destruct (N.ltb_spec cp 0x80) as [H1|H1].
  { cbn [app]. rewrite run_start, lead_1 by lia. reflexivity. }
  destruct (N.ltb_spec cp 0x800) as [H2|H2].
  { cbn [app]. rewrite run_start, lead_2 by lia. cbn [fst snd app].
    rewrite run_last by lia. f_equal. lia. }
  destruct (N.ltb_spec cp 0x10000) as [H3|H3].
  { cbn [app]. rewrite run_start, lead_3 by lia. cbn [fst snd app].
    rewrite run_more.
    - rewrite run_last by lia. f_equal. lia.
    - lia.
    - lia.
    - unfold is_scalar in Hcp.
      destruct (N.eqb_spec (0xE0 + cp / 4096) 0xE0);
        destruct (N.eqb_spec (0xE0 + cp / 4096) 0xED); lia. }
  cbn [app]. unfold is_scalar in Hcp.
  rewrite run_start, lead_4 by lia. cbn [fst snd app].
  rewrite run_more.
  - rewrite run_more by lia. rewrite run_last by lia. f_equal. lia.
  - lia.
  - lia.
  - destruct (N.eqb_spec (0xF0 + cp / 262144) 0xF0);
      destruct (N.eqb_spec (0xF0 + cp / 262144) 0xF4); lia.
Qed.

Lemma run_encode cps :
  Forall is_scalar cps -> run start (flat_map encode_scalar cps) = cps.
Proof.
  induction 1 as [|cp cps Hcp _ IH]; cbn [flat_map]; [reflexivity|].
  now rewrite run_encode_scalar, IH.
Qed.

Lemma encode_scalar_octets cp :
  cp < 0x110000 -> Forall (fun b => b < 256) (encode_scalar cp).
Proof.
  intros H. unfold encode_scalar.
  destruct (N.ltb_spec cp 0x80); [|destruct (N.ltb_spec cp 0x800);
    [|destruct (N.ltb_spec cp 0x10000)]];
    repeat (apply Forall_cons; [lia|]); apply Forall_nil.
Qed.

Lemma is_scalar_lt cp : is_scalar cp -> cp < 0x110000.
Proof. unfold is_scalar. lia. Qed.

Lemma encode_octets s :
  Forall is_scalar (scalar_values s) -> Forall (fun b => b < 256) (encode s).
Proof.
  unfold encode. induction 1 as [|cp cps Hcp _ IH]; cbn [flat_map]; [constructor|].
  apply Forall_app. split; [|assumption].
  now apply encode_scalar_octets, is_scalar_lt.
Qed.

Lemma surrogate_cases c :
  (is_lead_surrogate c = true /\ 0xD800 <= c <= 0xDBFF)
  \/ (is_lead_surrogate c = false /\ is_trail_surrogate c = true /\ 0xDC00 <= c <= 0xDFFF)
  \/ (is_lead_surrogate c = false /\ is_trail_surrogate c = false
      /\ (c < 0xD800 \/ 0xDFFF < c)).
Proof.
  unfold is_lead_surrogate, is_trail_surrogate.
  destruct (N.leb_spec 0xD800 c), (N.leb_spec c 0xDBFF), (N.leb_spec 0xDC00 c),
    (N.leb_spec c 0xDFFF); cbn [andb]; first [left; split; [reflexivity | lia]
      | right; left; repeat split; lia
      | right; right; repeat split; lia].
Qed.

Lemma scalar_values_cons c s :
  scalar_values (c :: s)
  = if is_lead_surrogate c then
      match s with
      | d :: s' =>
          if is_trail_surrogate d
          then 0x10000 + (c - 0xD800) * 0x400 + (d - 0xDC00) :: scalar_values s'
          else replacement :: scalar_values s
      | [] => [replacement]
      end
    else if is_trail_surrogate c then replacement :: scalar_values s
    else c :: scalar_values s.
Proof. reflexivity. Qed.

Lemma well_formed_cons c s :
  well_formed (c :: s)
  = if is_lead_surrogate c then
      match s with
      | d :: s' => is_trail_surrogate d && well_formed s'
      | [] => false
      end
    else negb (is_trail_surrogate c) && (c <? 0x10000) && well_formed s.
Proof. reflexivity. Qed.

(** In a well-formed string every code unit or surrogate pair is one scalar
    value, and the code units of the scalar values are the string. *)
Lemma well_formed_scalar_values s :
  well_formed s = true ->
  Forall is_scalar (scalar_values s)
  /\ flat_map code_units (scalar_values s) = s.
Proof.
  induction s as [|c|c d s IHs IHd] using list_ind2.
  - intros _. split; [constructor | reflexivity].
  - rewrite well_formed_cons, scalar_values_cons.
    destruct (surrogate_cases c) as [[-> Hc] | [[-> [-> Hc]] | [-> [-> Hc]]]];
      cbn [negb andb]; try discriminate.
    destruct (N.ltb_spec c 0x10000); [|discriminate]. intros _. split.
    + apply Forall_cons; [unfold is_scalar; lia | apply Forall_nil].
    + cbn [scalar_values flat_map app]. unfold code_units.
      destruct (N.ltb_spec c 0x10000); [reflexivity | lia].
  - rewrite (well_formed_cons c), (scalar_values_cons c).
    destruct (surrogate_cases c) as [[-> Hc] | [[-> [-> Hc]] | [-> [-> Hc]]]];
      cbn [negb andb]; try discriminate.
    + destruct (surrogate_cases d) as [[Hl Hd] | [[Hl [-> Hd]] | [Hl [-> Hd]]]];
        cbn [andb]; try discriminate.
      * unfold is_trail_surrogate.
        destruct (N.leb_spec 0xDC00 d); [|discriminate].
        destruct (N.leb_spec d 0xDFFF); [lia | discriminate].
      * intros Hs. destruct (IHs Hs) as [IH1 IH2]. split.
        -- apply Forall_cons; [unfold is_scalar; lia | assumption].
        -- cbn [flat_map]. rewrite IH2. unfold code_units.
           destruct (N.ltb_spec (0x10000 + (c - 0xD800) * 0x400 + (d - 0xDC00)) 0x10000);
             [lia|]. cbn [app]. repeat f_equal; lia.
    + destruct (N.ltb_spec c 0x10000); [|discriminate]. intros Hs.
      destruct (IHd Hs) as [IH1 IH2]. split.
      * apply Forall_cons; [unfold is_scalar; lia | assumption].
      * cbn [flat_map]. rewrite IH2. unfold code_units.
        destruct (N.ltb_spec c 0x10000); [reflexivity | lia].
Qed.

(** A well-formed string that does not begin with U+FEFF loses nothing to
    the byte order mark rule. *)
Lemma drop_bom_scalar_values s :
  starts_with_bom s = false -> drop_bom (scalar_values s) = scalar_values s.
Proof.
  destruct s as [|c s]; [reflexivity|]. cbn [starts_with_bom scalar_values].
  intros Hc. apply N.eqb_neq in Hc.
  destruct (surrogate_cases c) as [[-> Hl] | [[-> [-> Hl]] | [-> [-> Hl]]]].
  - destruct s as [|d s]; [reflexivity|].
    destruct (is_trail_surrogate d) eqn:Hd; [|reflexivity].
    unfold is_trail_surrogate in Hd. apply andb_true_iff in Hd.
    destruct Hd as [Hd1 Hd2]. apply N.leb_le in Hd1, Hd2.
    cbn [drop_bom].
    destruct (N.eqb_spec (0x10000 + (c - 0xD800) * 0x400 + (d - 0xDC00)) 0xFEFF);
      [lia | reflexivity].
  - reflexivity.
  - cbn [drop_bom]. destruct (N.eqb_spec c 0xFEFF); [contradiction | reflexivity].
Qed.

End Utf8Facts.

Lemma map_to_N_to_uint8 ns :
  Forall (fun b => b < 256) ns -> map Byte.to_N (map to_uint8 ns) = ns.
Proof.
  induction 1 as [|n ns Hn _ IH]; cbn [map]; [reflexivity|].
  rewrite IH. f_equal. unfold to_uint8. rewrite N.mod_small by assumption.
  destruct (Byte.of_N n) as [b|] eqn:E.
  - now apply Byte.to_of_N.
  - apply Byte.of_N_None_iff in E. lia.
Qed.

(** [TextDecoder] inverts [TextEncoder] on the well-formed strings that do
    not begin with a byte order mark. *)
Lemma TextDecoder_TextEncoder s :
  Utf8.well_formed s = true -> Utf8.starts_with_bom s = false ->
  TextDecoder_decode (TextEncoder_encode s) = s.
Proof.
  intros Hwf Hbom. destruct (well_formed_scalar_values s Hwf) as [Hsc Hunits].
  unfold TextDecoder_decode, TextEncoder_encode.
  rewrite map_to_N_to_uint8 by now apply encode_octets.
  unfold Utf8.decode, Utf8.encode. rewrite run_encode by assumption.
  now rewrite drop_bom_scalar_values.
Qed.

(** ** AES-GCM as the platform implements it satisfies the laws

    None of this depends on the block cipher: GCM is a counter mode, and its
    decryption recomputes the tag and the key stream of the encryption. *)

Lemma length_N_to_be len n : length (N_to_be len n) = len.
Proof.
  revert n. induction len as [|len IH]; intros n; cbn [N_to_be]; [reflexivity|].
  rewrite length_app, IH. cbn [length]. lia.
Qed.

Lemma N_to_be_octets len n : Forall (fun b => b < 256) (N_to_be len n).
Proof.
  revert n. induction len as [|len IH]; intros n; cbn [N_to_be]; [constructor|].
  apply Forall_app. split; [apply IH|]. apply Forall_cons; [lia | apply Forall_nil].
Qed.

Lemma lxor_octet a b : a < 256 -> b < 256 -> N.lxor a b < 256.
Proof.
  intros Ha Hb. destruct (N.eq_dec (N.lxor a b) 0) as [E|E]; [rewrite E; lia|].
  change 256 with (2 ^ 8). apply N.log2_lt_pow2; [lia|].
  eapply N.le_lt_trans; [apply N.log2_lxor|].
  assert (Hlog : forall x, x < 256 -> N.log2 x < 8).
  { intros x Hx. destruct (N.eq_dec x 0) as [->|Hx0]; [cbn; lia|].
    apply N.log2_lt_pow2; [lia | exact Hx]. }
  apply N.max_lub_lt; auto.
Qed.

Lemma xor_bytes_octets a b :
  Forall (fun x => x < 256) a -> Forall (fun x => x < 256) b ->
  Forall (fun x => x < 256) (xor_bytes a b).
Proof.
  intros Ha. revert b. induction Ha as [|x a Hx _ IH]; intros b Hb; [constructor|].
  destruct Hb as [|y b Hy Hb]; cbn [xor_bytes]; [constructor|].
  apply Forall_cons; [now apply lxor_octet | now apply IH].
Qed.

Lemma length_xor_bytes a b :
  (length a <= length b)%nat -> length (xor_bytes a b) = length a.
Proof.
  revert b. induction a as [|x a IH]; intros b H; [destruct b; reflexivity|].
  destruct b as [|y b]; cbn [length xor_bytes] in *; [lia|].
  rewrite IH; lia.
Qed.

Lemma xor_bytes_involutive a b :
  (length a <= length b)%nat -> xor_bytes (xor_bytes a b) b = a.
Proof.
  revert b. induction a as [|x a IH]; intros b H; [destruct b; reflexivity|].
  destruct b as [|y b]; cbn [length xor_bytes] in *; [lia|].
  rewrite IH by lia. f_equal.
  now rewrite N.lxor_assoc, N.lxor_nilpotent, N.lxor_0_r.
Qed.

Section GcmFacts.
Variable E : N -> N.

Lemma length_key_stream n cb : length (GCM.key_stream E n cb) = (16 * n)%nat.
Proof.
  revert cb. induction n as [|n IH]; intros cb; cbn [GCM.key_stream]; [reflexivity|].
  rewrite length_app, length_N_to_be, IH. lia.
Qed.

Lemma key_stream_octets n cb : Forall (fun b => b < 256) (GCM.key_stream E n cb).
Proof.
  revert cb. induction n as [|n IH]; intros cb; cbn [GCM.key_stream]; [constructor|].
  apply Forall_app. split; [apply N_to_be_octets | apply IH].
Qed.

Lemma key_stream_covers (data : list N) cb :
  (length data <= length (GCM.key_stream E ((length data + 15) / 16) cb))%nat.
Proof.
  rewrite length_key_stream.
  pose proof (Nat.div_mod_eq (length data + 15) 16).
  pose proof (Nat.mod_upper_bound (length data + 15) 16). lia.
Qed.

Lemma length_gctr cb data : length (GCM.gctr E cb data) = length data.
Proof. unfold GCM.gctr. apply length_xor_bytes, key_stream_covers. Qed.

Lemma gctr_involutive cb data : GCM.gctr E cb (GCM.gctr E cb data) = data.
Proof.
  unfold GCM.gctr at 1. rewrite length_gctr. unfold GCM.gctr.
  apply xor_bytes_involutive, key_stream_covers.
Qed.

Lemma gctr_octets cb data :
  Forall (fun b => b < 256) data -> Forall (fun b => b < 256) (GCM.gctr E cb data).
Proof. intros H. unfold GCM.gctr. apply xor_bytes_octets; [assumption | apply key_stream_octets]. Qed.

Lemma length_tag iv c : length (GCM.tag E iv c) = 16%nat.
Proof. apply length_N_to_be. Qed.

Lemma gcm_decrypt_encrypt iv p :
  GCM.decrypt E iv (GCM.encrypt E iv p) = Some p.
Proof.
  unfold GCM.decrypt, GCM.encrypt.
  set (c := GCM.gctr E (GCM.inc32 (GCM.j0 E iv)) p).
  rewrite length_app, length_tag.
  destruct (Nat.ltb_spec (length c + 16) 16); [lia|].
  replace (length c + 16 - 16)%nat with (length c) by lia.
  rewrite firstn_app, firstn_all, Nat.sub_diag. cbn [firstn]. rewrite app_nil_r.
  rewrite skipn_app, skipn_all, Nat.sub_diag. cbn [skipn app].
  destruct (list_eq_dec N.eq_dec (GCM.tag E iv c) (GCM.tag E iv c)); [|contradiction].
  unfold c. now rewrite gctr_involutive.
Qed.

Lemma gcm_decrypt_inv iv data p :
  GCM.decrypt E iv data = Some p ->
  GCM.encrypt E iv p = data
  /\ p = GCM.gctr E (GCM.inc32 (GCM.j0 E iv)) (firstn (length data - 16) data).
Proof.
  unfold GCM.decrypt, GCM.encrypt.
  destruct (Nat.ltb_spec (length data) 16); [discriminate|].
  set (c := firstn (length data - 16) data).
  destruct (list_eq_dec N.eq_dec (skipn (length data - 16) data) (GCM.tag E iv c))
    as [Ht|]; [|discriminate].
  intros [= <-]. split; [|reflexivity].
  rewrite gctr_involutive, <- Ht. apply firstn_skipn.
Qed.

Lemma gcm_encrypt_octets iv p :
  Forall (fun b => b < 256) p -> Forall (fun b => b < 256) (GCM.encrypt E iv p).
Proof.
  intros H. unfold GCM.encrypt. apply Forall_app. split.
  - now apply gctr_octets.
  - apply N_to_be_octets.
Qed.

End GcmFacts.

Lemma Forall_firstn_of {A} (P : A -> Prop) n (l : list A) :
  Forall P l -> Forall P (firstn n l).
Proof.
  intros H. revert n. induction H as [|x l Hx _ IH]; intros [|n]; cbn [firstn];
    constructor; auto.
Qed.

Lemma bytes_octets (b : list byte) : bytes (octets b) = b.
Proof. apply map_to_uint8_fromCharCode. Qed.

Lemma octets_bytes ns : Forall (fun b => b < 256) ns -> octets (bytes ns) = ns.
Proof. apply map_to_N_to_uint8. Qed.

#[export] Instance WebCrypto_laws : SubtleCryptoLaws WebCrypto.
Proof.
  constructor.
  - intros k iv p. cbn [aes_gcm_decrypt aes_gcm_encrypt WebCrypto].
    rewrite octets_bytes by apply gcm_encrypt_octets, octets_of_bytes.
    rewrite gcm_decrypt_encrypt. cbn [option_map]. now rewrite bytes_octets.
  - intros k iv c p. cbn [aes_gcm_decrypt aes_gcm_encrypt WebCrypto].
    destruct (GCM.decrypt _ _ _) as [q|] eqn:Eq; [|discriminate].
    cbn [option_map]. intros [= <-].
    apply gcm_decrypt_inv in Eq. destruct Eq as [Henc Hq].
    rewrite octets_bytes.
    + rewrite Henc. apply bytes_octets.
    + rewrite Hq. apply gctr_octets, Forall_firstn_of, octets_of_bytes.
  - intros k iv c Hlen. cbn [aes_gcm_decrypt WebCrypto]. unfold GCM.decrypt.
    unfold octets. rewrite length_map.
    destruct (Nat.ltb_spec (length c) 16); [reflexivity | lia].
Qed.

(** ** Round trip *)

Section RoundTrip.
Context {SC : SubtleCrypto} {L : SubtleCryptoLaws SC}.

Lemma decryptBinary_blob key iv data w :
  length iv = IV_LENGTH ->
  fst (decryptBinary (blob_of key iv data) key w) = Ok data.
Proof.
  intros Hiv. rewrite decryptBinary_run, base64ToArrayBuffer_blob. cbn [fst].
  rewrite firstn_app, <- Hiv, firstn_all, Nat.sub_diag. cbn [firstn].
  rewrite app_nil_r, skipn_app, skipn_all, Nat.sub_diag. cbn [skipn app].
  now rewrite aes_gcm_correct.
Qed.

(** What comes back from [decryptString] is the text as [TextDecoder] reads
    the bytes [TextEncoder] wrote. *)
Lemma decryptString_encryptString plaintext key w w' :
  exists blob,
    fst (encryptString plaintext key w) = Ok blob
    /\ fst (decryptString blob key w')
       = Ok (TextDecoder_decode (TextEncoder_encode plaintext)).
Proof.
  rewrite encryptString_run, encryptBinary_run. eexists. split; [reflexivity|].
  rewrite decryptString_run. cbn [fst].
  now rewrite decryptBinary_blob by apply length_next_bytes.
Qed.

(** C1 (amended). Round trip of the authenticated cipher: for every binary
    payload [b], [decryptBinary] of the blob [encryptBinary] returned gives
    [b] back; and for every string [p] in which no surrogate is unpaired and
    which does not begin with U+FEFF, [decryptString] of the blob
    [encryptString] returned gives [p] back. *)
Theorem encrypt_decrypt_round_trip (key : CryptoKey) (w w' : World) :
  (forall b, exists blob,
      fst (encryptBinary b key w) = Ok blob
      /\ fst (decryptBinary blob key w') = Ok b)
  /\ (forall p,
        Utf8.well_formed p = true -> Utf8.starts_with_bom p = false ->
        exists blob,
          fst (encryptString p key w) = Ok blob
          /\ fst (decryptString blob key w') = Ok p).
Proof.
  split.
  - intros b. rewrite encryptBinary_run. eexists. split; [reflexivity|].
    apply decryptBinary_blob, length_next_bytes.
  - intros p Hwf Hbom.
    destruct (decryptString_encryptString p key w w') as [blob [Henc Hdec]].
    exists blob. split; [assumption|].
    now rewrite Hdec, TextDecoder_TextEncoder.
Qed.

End RoundTrip.

(** ** Tampering *)

Section Tampering.
Context {SC : SubtleCrypto} {L : SubtleCryptoLaws SC}.


End Tampering.

(** ** Malformed transport text *)

Lemma list_ind4 {A} (P : list A -> Prop) :
  P [] -> (forall a, P [a]) -> (forall a b, P [a; b]) -> (forall a b c, P [a; b; c]) ->
  (forall a b c d l, P l -> P (a :: b :: c :: d :: l)) ->
  forall l, P l.
Proof.
  intros H0 H1 H2 H3 H4.
  fix IH 1. intros [|a [|b [|c [|d l]]]];
    [apply H0 | apply H1 | apply H2 | apply H3 | apply H4, IH].
Qed.

Section Malformed.
Import Base64.

Lemma length_octets_of_sextets vs :
  length (octets_of_sextets vs) = (length vs * 3 / 4)%nat.
Proof.
  induction vs as [|a|a b|a b c|a b c d l IH] using list_ind4; try reflexivity.
  cbn [octets_of_sextets length]. rewrite IH.
  replace (S (S (S (S (length l)))) * 3)%nat with (length l * 3 + 3 * 4)%nat by lia.
  rewrite Nat.div_add by lia. lia.
Qed.

Lemma sextets_of_chars_some s vs :
  sextets_of_chars s = Some vs ->
  length vs = length s /\ Forall (fun c => sextet_of_char c <> None) s.
Proof.
  revert vs. induction s as [|c s IH]; intros vs; cbn [sextets_of_chars].
  - intros [= <-]. split; [reflexivity | constructor].
  - destruct (sextet_of_char c) as [v|] eqn:Ec; [|discriminate].
    destruct (sextets_of_chars s) as [vs'|]; [|discriminate].
    intros [= <-]. destruct (IH vs' eq_refl) as [Hlen Hall]. split.
    + cbn [length]. now rewrite Hlen.
    + constructor; [congruence | assumption].
Qed.

Lemma sextets_of_chars_none s :
  sextets_of_chars s = None <-> Exists (fun c => sextet_of_char c = None) s.
Proof.
  induction s as [|c s IH]; cbn [sextets_of_chars].
  - split; [discriminate | intros H; inversion H].
  - destruct (sextet_of_char c) as [v|] eqn:Ec.
    + destruct (sextets_of_chars s) as [vs|].
      * split; [discriminate|]. intros H. inversion H as [? ? Hc|? ? Hs]; subst.
        -- congruence.
        -- apply IH in Hs. discriminate.
      * split; [|reflexivity]. intros _. apply Exists_cons_tl. now apply IH.
    + split; [|reflexivity]. intros _. now apply Exists_cons_hd.
Qed.

(** C8 (amended). Malformed-encoding rejection: [base64ToArrayBuffer]
    throws exactly when the text, once its ASCII whitespace is removed and,
    if its length is then a multiple of four, one or two final [=] are
    dropped, has a length of 1 modulo 4 or a character outside the base64
    alphabet; it then throws [InvalidCharacterError] and nothing else.  Any
    other text is decoded in full, three bytes for four characters; every
    text the encoder produces is among these. *)
Theorem base64ToArrayBuffer_rejects (text : jsstring) :
  let data := strip_padding (remove_whitespace text) in
  (base64ToArrayBuffer text = Throw InvalidCharacterError
   <-> ((length data mod 4 = 1)%nat
        \/ Exists (fun c => sextet_of_char c = None) data))
  /\ (forall e, base64ToArrayBuffer text = Throw e -> e = InvalidCharacterError)
  /\ (forall bs, base64ToArrayBuffer text = Ok bs ->
        length bs = (length data * 3 / 4)%nat
        /\ Forall (fun c => sextet_of_char c <> None) data)
  /\ (valid_transport text -> exists bs, base64ToArrayBuffer text = Ok bs).
Proof.
  cbv zeta. split; [|split; [|split]].
  - unfold base64ToArrayBuffer, atob, decode.
    destruct (Nat.eqb_spec (length (strip_padding (remove_whitespace text)) mod 4) 1)
      as [Hlen|Hlen].
    + cbn [rbind]. split; auto.
    + destruct (sextets_of_chars (strip_padding (remove_whitespace text))) as [vs|] eqn:Ev;
        cbn [option_map rbind].
      * split; [discriminate|]. intros [H|H]; [contradiction|].
        apply sextets_of_chars_none in H. congruence.
      * split; [|reflexivity]. intros _. right. now apply sextets_of_chars_none.
  - apply base64ToArrayBuffer_throws.
  - intros bs. unfold base64ToArrayBuffer, atob, decode.
    destruct (Nat.eqb_spec (length (strip_padding (remove_whitespace text)) mod 4) 1);
      [discriminate|].
    destruct (sextets_of_chars (strip_padding (remove_whitespace text))) as [vs|] eqn:Ev;
      cbn [option_map rbind]; [|discriminate].
    intros [= <-]. apply sextets_of_chars_some in Ev. destruct Ev as [Hlen Hall].
    split; [|assumption]. now rewrite length_map, length_octets_of_sextets, Hlen.
  - intros [b Hb]. exists b. rewrite arrayBufferToBase64_eq in Hb.
    injection Hb as <-. apply base64ToArrayBuffer_encode.
Qed.

End Malformed.

(** * Concrete runs

    The runs below are on the platform [WebCrypto], with the key of 32 zero
    bytes and a CSPRNG that returns zeros. *)

(** C1, as stated, fails: a string that begins with U+FEFF comes back
    without it, and an unpaired surrogate comes back as U+FFFD. *)
Lemma round_trip_loses_byte_order_mark :
  fst (encryptString [0xFEFF] zero_key zero_world)
    = Ok (js "AAAAAAAAAAAAAAAAIRz/tOVw9ws5vY/e+0RL9XXFkA==")
  /\ fst (decryptString (js "AAAAAAAAAAAAAAAAIRz/tOVw9ws5vY/e+0RL9XXFkA==")
            zero_key zero_world) = Ok []
  /\ fst (decryptString (js "AAAAAAAAAAAAAAAAIRz/tOVw9ws5vY/e+0RL9XXFkA==")
            zero_key zero_world) <> Ok [0xFEFF]
  /\ fst (encryptString [0xD800] zero_key zero_world)
     = Ok (js "AAAAAAAAAAAAAAAAIRj9w0U1Q/bZyEJv/uD3d/dSOQ==")
  /\ fst (decryptString (js "AAAAAAAAAAAAAAAAIRj9w0U1Q/bZyEJv/uD3d/dSOQ==")
            zero_key zero_world) = Ok [0xFFFD].
Proof.
  split; [vm_compute; reflexivity|]. split; [vm_compute; reflexivity|].
  split; [vm_compute; discriminate|]. split; vm_compute; reflexivity.
Qed.

Lemma encrypt_decrypt_round_trip_witness :
  exists blob,
    fst (encryptString (js "Groceries") zero_key zero_world) = Ok blob
    /\ fst (decryptString blob zero_key zero_world) = Ok (js "Groceries").
Proof.
  apply (proj2 (encrypt_decrypt_round_trip zero_key zero_world zero_world));
    reflexivity.
Defined.

(** C2, as stated, fails: when the CSPRNG returns the same 12 bytes twice,
    the two blobs are the same. *)
Lemma repeated_nonce_repeats_blob :
  fst (encryptString (js "milk, eggs") zero_key zero_world)
    = Ok (js "AAAAAAAAAAAAAAAAo84sVmFADglgPdHd78AQN9VzCUc9nUHl2UI=")
  /\ fst (encryptString (js "milk, eggs") zero_key
            (snd (encryptString (js "milk, eggs") zero_key zero_world)))
     = Ok (js "AAAAAAAAAAAAAAAAo84sVmFADglgPdHd78AQN9VzCUc9nUHl2UI=").
Proof. split; vm_compute; reflexivity. Qed.



(** In that run the flipped bit is in the tag, and the outcome is the
    third one. *)
Example flipped_tag_bit_is_rejected :
  fst (decryptString (flip_bit (js "AAAAAAAAAAAAAAAAUw+K+8dFNrmpY7TxxMtziw==") 16 0)
         zero_key zero_world) = Throw OperationError.
Proof. vm_compute. reflexivity. Qed.

(** C8, as stated, fails: no byte array encodes to [QR==] (the one byte
    0x41 encodes to [QQ==]), to [QQ] or to [Q Q = =], and all three are
    decoded, the bits past the last byte being dropped. *)
Lemma malformed_text_is_accepted :
  ~ valid_transport (js "QR==")
  /\ base64ToArrayBuffer (js "QR==") = Ok [x41]
  /\ ~ valid_transport (js "QQ")
  /\ base64ToArrayBuffer (js "QQ") = Ok [x41]
  /\ ~ valid_transport (js "Q Q = =")
  /\ base64ToArrayBuffer (js "Q Q = =") = Ok [x41].
Proof.
  assert (H : forall text,
             base64ToArrayBuffer text = Ok [x41] -> text <> js "QQ==" ->
             ~ valid_transport text).
  { intros text Hdec Hne [b Hb]. rewrite arrayBufferToBase64_eq in Hb.
    injection Hb as Hb. subst text.
    rewrite base64ToArrayBuffer_encode in Hdec. injection Hdec as ->.
    now apply Hne. }
  repeat split; try (vm_compute; reflexivity);
    (apply H; [vm_compute; reflexivity | discriminate]).
Qed.

Lemma initialize_completes password salt saltBuffer (w : @World WebCrypto) :
  base64ToArrayBuffer salt = Ok saltBuffer ->
  fst (initialize password salt w) = Ok tt.
Proof. intros H. rewrite initialize_run, H. reflexivity. Qed.

Lemma session_lifecycle_witness :
  fst (initialize (js "correcthorse123") (js "QmFzZTY0U2FsdA==") zero_world) = Ok tt
  /\ exists blob,
       fst (encryptLabel (js "Groceries")
              (snd (initialize (js "correcthorse123") (js "QmFzZTY0U2FsdA==")
                      zero_world))) = Ok blob.
Proof.
  assert (H : fst (initialize (js "correcthorse123") (js "QmFzZTY0U2FsdA==") zero_world)
              = Ok tt).
  { apply (initialize_completes _ _ (map to_uint8 (js "Base64Salt"))).
    vm_compute. reflexivity. }
  split; [exact H|].
  apply (proj2 (session_lifecycle zero_world) _ _ H).
Defined.

Lemma decryptString_truncated_witness :
  exists e,
    fst (decryptString (js "QUJD") zero_key zero_world) = Throw e
    /\ e = match base64ToArrayBuffer (js "QUJD") with
           | Ok _ => OperationError
           | Throw _ => InvalidCharacterError
           end
    /\ (exn_kind e = MalformedEncoding \/ exn_kind e = DecryptionFailed).
Proof.
  apply decryptString_truncated.
  intros bs H. vm_compute in H. injection H as <-. cbn [length]. lia.
Defined.

(** * The rest of [encryption.ts] *)

(** ** The text of a blob *)

Lemma length_encode bs :
  length (Base64.encode bs) = (4 * ((length bs + 2) / 3))%nat.
Proof.
  unfold Base64.encode. rewrite length_app, length_map.
  induction bs as [|a|a b|a b c l IH] using list_ind3; try reflexivity.
  cbn [Base64.sextets_of_octets length]. rewrite padding_SSS.
  replace (S (S (S (length l))) + 2)%nat with (length l + 2 + 1 * 3)%nat by lia.
  rewrite Nat.div_add by lia. cbn [length] in IH. lia.
Qed.

Lemma is_base64_char_of_sextet v :
  v < 64 -> is_base64_char (Base64.char_of_sextet v) = true.
Proof.
  intros Hv. unfold is_base64_char. now rewrite sextet_of_char_of_sextet.
Qed.

Lemma encode_alphabet bs :
  Forall (fun b => b < 256) bs ->
  Forall (fun c => is_base64_char c = true) (Base64.encode bs).
Proof.
  intros H. unfold Base64.encode. apply Forall_app. split.
  - apply sextets_of_octets_lt in H.
    induction H; cbn [map]; constructor; auto using is_base64_char_of_sextet.
  - destruct (padding_cases (length bs)) as [-> | [-> | ->]];
      repeat constructor.
Qed.

(** X1. The text [arrayBufferToBase64] returns for [n] bytes has
    [4 * ceil (n / 3)] characters, each of them a letter, a digit, [+], [/]
    or [=]; and no other byte array encodes to the same text. *)
Theorem arrayBufferToBase64_text (b : list byte) :
  exists text,
    arrayBufferToBase64 b = Ok text
    /\ length text = (4 * ((length b + 2) / 3))%nat
    /\ Forall (fun c => is_base64_char c = true) text
    /\ (forall b', arrayBufferToBase64 b' = Ok text -> b' = b).
Proof.
  rewrite arrayBufferToBase64_eq. eexists. split; [reflexivity|].
  split; [|split].
  - now rewrite length_encode, length_map.
  - apply encode_alphabet, octets_of_bytes.
  - intros b'. rewrite arrayBufferToBase64_eq. intros [= H].
    apply (f_equal base64ToArrayBuffer) in H.
    rewrite !base64ToArrayBuffer_encode in H. now injection H.
Qed.

Lemma length_bytes ns : length (bytes ns) = length ns.
Proof. apply length_map. Qed.

Lemma length_octets b : length (octets b) = length b.
Proof. apply length_map. Qed.

Lemma length_aes_gcm_encrypt (key : @CryptoKey WebCrypto) iv data :
  length (aes_gcm_encrypt key iv data) = (length data + 16)%nat.
Proof.
  cbn [aes_gcm_encrypt WebCrypto]. rewrite length_bytes. unfold GCM.encrypt.
  now rewrite length_app, length_gctr, length_tag, length_octets.
Qed.

(** X2. The size of a blob: with AES-256-GCM, the blob of [n] bytes of data
    decodes to [n + 28] bytes (the nonce, the data and the tag), and so has
    [4 * ceil ((n + 28) / 3)] characters of the base64 alphabet; for a
    string, [n] is the number of bytes of its UTF-8 encoding. *)
Theorem blob_size (key : @CryptoKey WebCrypto) (w : World) :
  (forall data, exists blob bs,
      fst (encryptBinary data key w) = Ok blob
      /\ base64ToArrayBuffer blob = Ok bs
      /\ length bs = (length data + 28)%nat
      /\ length blob = (4 * ((length data + 30) / 3))%nat
      /\ Forall (fun c => is_base64_char c = true) blob)
  /\ (forall plaintext, exists blob,
        fst (encryptString plaintext key w) = Ok blob
        /\ length blob
           = (4 * ((length (TextEncoder_encode plaintext) + 30) / 3))%nat
        /\ Forall (fun c => is_base64_char c = true) blob).
Proof.
  assert (H : forall data, exists blob bs,
      fst (encryptBinary data key w) = Ok blob
      /\ base64ToArrayBuffer blob = Ok bs
      /\ length bs = (length data + 28)%nat
      /\ length blob = (4 * ((length data + 30) / 3))%nat
      /\ Forall (fun c => is_base64_char c = true) blob).
  { intros data. rewrite encryptBinary_run. cbn [fst].
    eexists. eexists. split; [reflexivity|].
    split; [apply base64ToArrayBuffer_blob|].
    assert (Hlen : length (next_bytes w IV_LENGTH
                             ++ aes_gcm_encrypt key (next_bytes w IV_LENGTH) data)
                   = (length data + 28)%nat).
    { rewrite length_app, length_next_bytes, length_aes_gcm_encrypt.
      change IV_LENGTH with 12%nat. lia. }
    split; [exact Hlen|]. split.
    - unfold blob_of. rewrite length_encode, length_map, Hlen.
      f_equal. f_equal. lia.
    - unfold blob_of. apply encode_alphabet, octets_of_bytes. }
  split; [exact H|].
  intros plaintext. rewrite encryptString_run.
  destruct (H (TextEncoder_encode plaintext)) as [blob [bs [H1 [_ [_ [H2 H3]]]]]].
  exists blob. auto.
Qed.

(** ** [generateSalt] *)

Section Salt.
Context {SC : SubtleCrypto}.

Lemma generateSalt_run w :
  generateSalt w
  = (Ok (Base64.encode (map fromCharCode (next_bytes w SALT_LENGTH))),
     logged (advanced w SALT_LENGTH) [GetRandomValues SALT_LENGTH]).
Proof.
  unfold generateSalt, bind, getRandomValues, lift.
  now rewrite arrayBufferToBase64_eq.
Qed.

(** X3. [generateSalt] always returns: a text of 24 characters that decodes
    to the 16 bytes it took from the CSPRNG, and it took no more.  With that
    salt [deriveKeyFromPassword] and [initialize] never throw, whatever the
    password, and the key is PBKDF2 over those 16 bytes. *)
Theorem generateSalt_usable (w : World) :
  exists salt,
    fst (generateSalt w) = Ok salt
    /\ length salt = 24%nat
    /\ base64ToArrayBuffer salt = Ok (next_bytes w 16)
    /\ drawn (snd (generateSalt w)) = (drawn w + 16)%nat
    /\ (forall password w',
          fst (deriveKeyFromPassword password salt w')
          = Ok (pbkdf2_sha256 (TextEncoder_encode password) (next_bytes w 16)
                  600000 256))
    /\ (forall password w',
          fst (initialize password salt w') = Ok tt
          /\ this_key (snd (initialize password salt w'))
             = Some (pbkdf2_sha256 (TextEncoder_encode password) (next_bytes w 16)
                       600000 256)).
Proof.
  rewrite generateSalt_run. cbn [fst snd]. eexists. split; [reflexivity|].
  change SALT_LENGTH with 16%nat.
  split; [|split; [|split; [|split]]].
  - now rewrite length_encode, length_map, length_next_bytes.
  - apply base64ToArrayBuffer_encode.
  - reflexivity.
  - intros password w'. rewrite deriveKeyFromPassword_run.
    now rewrite base64ToArrayBuffer_encode.
  - intros password w'. rewrite initialize_run.
    now rewrite base64ToArrayBuffer_encode.
Qed.

End Salt.

(** ** The service *)

Section Service.
Context {SC : SubtleCrypto}.

(** X4. When the salt is not base64, [initialize] throws
    [InvalidCharacterError] before any call of the platform; the salt of the
    service is already the new one, and the key is the one the service had:
    a service that was initialized goes on working under its old key. *)
Theorem initialize_malformed_salt (password salt : jsstring) (w : World) :
  (forall saltBuffer, base64ToArrayBuffer salt <> Ok saltBuffer) ->
  initialize password salt w
  = (Throw InvalidCharacterError,
     mkWorld (entropy w) (drawn w) (calls w) (this_key w) (Some salt))
  /\ fst (isInitialized (snd (initialize password salt w))) = fst (isInitialized w)
  /\ (forall name,
        fst (encryptLabel name (snd (initialize password salt w)))
        = fst (encryptLabel name w))
  /\ (forall name,
        fst (decryptLabel name (snd (initialize password salt w)))
        = fst (decryptLabel name w)).
Proof.
  intros Hsalt. rewrite initialize_run.
  destruct (base64ToArrayBuffer salt) as [sb|e] eqn:E; [now destruct (Hsalt sb)|].
  apply base64ToArrayBuffer_throws in E. subst e. cbn [snd].
  split; [reflexivity|]. split; [reflexivity|].
  split; intros name; unfold encryptLabel, decryptLabel;
    destruct (this_key w) as [key|] eqn:Ek.
  - rewrite !(require_key_some _ key) by (first [reflexivity | exact Ek]).
    now rewrite !encryptString_run, !encryptBinary_run.
  - now rewrite !require_key_none by (first [reflexivity | exact Ek]).
  - rewrite !(require_key_some _ key) by (first [reflexivity | exact Ek]).
    rewrite !decryptString_run, !decryptBinary_run.
    destruct (base64ToArrayBuffer name); reflexivity.
  - now rewrite !require_key_none by (first [reflexivity | exact Ek]).
Qed.

(** X5. [isInitialized] never throws and changes nothing; it returns
    [false] exactly when the six operations throw the "not initialized"
    error, and these then leave the world as it was: no random byte is
    taken and the platform is not called. *)
Theorem isInitialized_guards_operations (w : World) :
  (exists b, isInitialized w = (Ok b, w))
  /\ (fst (isInitialized w) = Ok false <-> this_key w = None)
  /\ (fst (isInitialized w) = Ok false <->
      forall t c, encryptNote t c w = (Throw NotInitializedError, w))
  /\ (fst (isInitialized w) = Ok false <->
      forall t c, decryptNote t c w = (Throw NotInitializedError, w))
  /\ (fst (isInitialized w) = Ok false <->
      forall d, encryptImage d w = (Throw NotInitializedError, w))
  /\ (fst (isInitialized w) = Ok false <->
      forall d, decryptImage d w = (Throw NotInitializedError, w))
  /\ (fst (isInitialized w) = Ok false <->
      forall n, encryptLabel n w = (Throw NotInitializedError, w))
  /\ (fst (isInitialized w) = Ok false <->
      forall n, decryptLabel n w = (Throw NotInitializedError, w)).
Proof.
  unfold isInitialized. cbn [fst].
  destruct (this_key w) as [key|] eqn:Ek.
  - split; [eauto|]. split; [split; discriminate|].
    assert (Hdec : forall x, fst (decryptBinary x key w) <> Throw NotInitializedError).
    { intros x. rewrite decryptBinary_run.
      destruct (base64ToArrayBuffer x) as [bs|e] eqn:E; cbn [fst].
      - destruct (aes_gcm_decrypt _ _ _); discriminate.
      - apply base64ToArrayBuffer_throws in E. subst e. discriminate. }
    assert (Hdecs : forall x, fst (decryptString x key w) <> Throw NotInitializedError).
    { intros x. rewrite decryptString_run. cbn [fst].
      specialize (Hdec x). destruct (fst (decryptBinary x key w)); [discriminate|].
      congruence. }
    repeat split; try discriminate; intros H; exfalso.
    + specialize (H [] []). unfold encryptNote in H.
      rewrite (require_key_some _ key) in H by assumption. unfold bind in H.
      rewrite encryptString_run, encryptBinary_run in H. cbv beta iota in H.
      rewrite encryptString_run, encryptBinary_run in H. discriminate.
    + specialize (H [] []). unfold decryptNote in H.
      rewrite (require_key_some _ key) in H by assumption. unfold bind in H.
      pose proof (Hdecs []) as Hd.
      destruct (decryptString [] key w) as [[pt|e] w1]; cbn in H, Hd;
        [discriminate | injection H as -> _; congruence].
    + specialize (H []). unfold encryptImage in H.
      rewrite (require_key_some _ key) in H by assumption.
      rewrite encryptBinary_run in H. discriminate.
    + specialize (H []). unfold decryptImage in H.
      rewrite (require_key_some _ key) in H by assumption.
      apply (Hdec []). now rewrite H.
    + specialize (H []). unfold encryptLabel in H.
      rewrite (require_key_some _ key) in H by assumption.
      rewrite encryptString_run, encryptBinary_run in H. discriminate.
    + specialize (H []). unfold decryptLabel in H.
      rewrite (require_key_some _ key) in H by assumption.
      apply (Hdecs []). now rewrite H.
  - split; [eauto|]. split; [tauto|].
    repeat split; intros;
      unfold encryptNote, decryptNote, encryptImage, decryptImage, encryptLabel,
        decryptLabel; now rewrite require_key_none.
Qed.

(** The value of a decryption does not depend on the world it runs in. *)
Lemma decryptBinary_value text key w :
  fst (decryptBinary text key w)
  = rbind (base64ToArrayBuffer text)
      (fun bs =>
         match aes_gcm_decrypt key (firstn 12 bs) (skipn 12 bs) with
         | Some data => Ok data
         | None => Throw OperationError
         end).
Proof.
  rewrite decryptBinary_run. destruct (base64ToArrayBuffer text); reflexivity.
Qed.

Lemma decryptString_value text key w :
  fst (decryptString text key w)
  = rbind (fst (decryptBinary text key w)) (fun data => Ok (TextDecoder_decode data)).
Proof.
  rewrite decryptString_run. cbn [fst].
  destruct (fst (decryptBinary text key w)); reflexivity.
Qed.

Lemma decryptString_any_world text key w w' :
  fst (decryptString text key w) = fst (decryptString text key w').
Proof. now rewrite !decryptString_value, !decryptBinary_value. Qed.

(** A decryption leaves the CSPRNG and the service as they were. *)
Lemma decryptString_frame text key w :
  let w' := snd (decryptString text key w) in
  entropy w' = entropy w /\ drawn w' = drawn w
  /\ this_key w' = this_key w /\ this_salt w' = this_salt w.
Proof.
  cbv zeta. rewrite decryptString_run, decryptBinary_run. cbn [snd].
  destruct (base64ToArrayBuffer text); cbn; auto.
Qed.

(** X6. [encryptNote] in a service that holds a key: four calls of the
    platform in this order, 12 random bytes for the title, its encryption,
    the next 12 random bytes for the content, its encryption; the title is
    sealed under the first nonce and the content under the second, and the
    key and the salt of the service are left as they were. *)
Theorem encryptNote_effects
    (rng : nat -> byte) (n : nat) (log : list Call) (key : CryptoKey)
    (salt : option jsstring) (t c : jsstring) :
  let w := mkWorld rng n log (Some key) salt in
  let nonce1 := map (fun i => rng (n + i)%nat) (seq 0 12) in
  let nonce2 := map (fun i => rng (n + 12 + i)%nat) (seq 0 12) in
  exists note,
    encryptNote t c w
    = (Ok note,
       mkWorld rng (n + 24)
         (log ++ [GetRandomValues 12; Encrypt nonce1 (TextEncoder_encode t);
                  GetRandomValues 12; Encrypt nonce2 (TextEncoder_encode c)])
         (Some key) salt)
    /\ base64ToArrayBuffer (title note)
       = Ok (nonce1 ++ aes_gcm_encrypt key nonce1 (TextEncoder_encode t))
    /\ base64ToArrayBuffer (content note)
       = Ok (nonce2 ++ aes_gcm_encrypt key nonce2 (TextEncoder_encode c)).
Proof.
  cbv zeta. unfold encryptNote.
  rewrite (require_key_some _ key) by reflexivity.
  unfold bind, ret. rewrite encryptString_run, encryptBinary_run.
  rewrite encryptString_run, encryptBinary_run.
  exists (mkNote
            (blob_of key (map (fun i => rng (n + i)%nat) (seq 0 12)) (TextEncoder_encode t))
            (blob_of key (map (fun i => rng (n + 12 + i)%nat) (seq 0 12))
               (TextEncoder_encode c))).
  split; [|split].
  - unfold logged, advanced, next_bytes.
    cbn [entropy drawn calls this_key this_salt].
    change IV_LENGTH with 12%nat. rewrite <- app_assoc. cbn [app].
    replace (n + 12 + 12)%nat with (n + 24)%nat by lia. reflexivity.
  - cbn [title]. apply base64ToArrayBuffer_blob.
  - cbn [content]. apply base64ToArrayBuffer_blob.
Qed.

(** X7. [decryptNote] is all or nothing.  In a service that holds a key its
    value is: the error of the title when the title does not decrypt (the
    content is then not looked at); otherwise the error of the content when
    the content is not empty and does not decrypt; otherwise the two
    plaintexts.  It takes no random byte and leaves the key and the salt. *)
Theorem decryptNote_all_or_nothing
    (rng : nat -> byte) (n : nat) (log : list Call) (key : CryptoKey)
    (salt : option jsstring) (t c : jsstring) :
  let w := mkWorld rng n log (Some key) salt in
  fst (decryptNote t c w)
  = match fst (decryptString t key w) with
    | Throw e => Throw e
    | Ok plain =>
        match c with
        | [] => Ok (mkNote plain [])
        | _ :: _ =>
            match fst (decryptString c key w) with
            | Throw e => Throw e
            | Ok body => Ok (mkNote plain body)
            end
        end
    end
  /\ (forall e, fst (decryptString t key w) = Throw e ->
        calls (snd (decryptNote t c w)) = calls (snd (decryptString t key w)))
  /\ drawn (snd (decryptNote t c w)) = n
  /\ this_key (snd (decryptNote t c w)) = Some key
  /\ this_salt (snd (decryptNote t c w)) = salt.
Proof.
  cbv zeta. set (w := mkWorld rng n log (Some key) salt).
  unfold decryptNote. rewrite (require_key_some _ key) by reflexivity.
  unfold bind, ret.
  pose proof (decryptString_frame t key w) as Ft. cbv zeta in Ft.
  destruct (decryptString t key w) as [[plain|e] w1] eqn:Et; cbn [fst snd] in *.
  - destruct Ft as [_ [Fd [Fk Fs]]].
    split; [|split; [discriminate|]].
    + destruct c as [|c0 c']; [reflexivity|].
      rewrite (decryptString_any_world (c0 :: c') key w w1).
      destruct (decryptString (c0 :: c') key w1) as [[body|e] w2]; reflexivity.
    + destruct c as [|c0 c']; [cbn [snd]; auto|].
      pose proof (decryptString_frame (c0 :: c') key w1) as Fc. cbv zeta in Fc.
      destruct (decryptString (c0 :: c') key w1) as [[body|e] w2];
        cbn [fst snd] in *; destruct Fc as [_ [Fd' [Fk' Fs']]];
        rewrite Fd', Fk', Fs'; auto.
  - destruct Ft as [_ [Fd [Fk Fs]]]. auto.
Qed.

End Service.

(** ** Round trips of the service *)

Section ServiceRoundTrip.
Context {SC : SubtleCrypto} {L : SubtleCryptoLaws SC}.

Lemma decryptString_blob key iv p w :
  length iv = IV_LENGTH ->
  Utf8.well_formed p = true -> Utf8.starts_with_bom p = false ->
  fst (decryptString (blob_of key iv (TextEncoder_encode p)) key w) = Ok p.
Proof.
  intros Hiv Hwf Hbom. rewrite decryptString_value, decryptBinary_blob by assumption.
  cbn [rbind]. now rewrite TextDecoder_TextEncoder.
Qed.

(** X8. What one session encrypts, another session with the same password
    and salt decrypts.  Let [initialize password salt] complete in two
    worlds (two logins, or twice the same one).  A note whose title and
    content have no unpaired surrogate and do not begin with U+FEFF, the
    empty content included, comes back from [decryptNote] in the second
    world as [encryptNote] took it in the first; so does a label from
    [decryptLabel], and any image from [decryptImage]. *)
Theorem service_round_trip (password salt : jsstring) (w1 w2 : World) :
  fst (initialize password salt w1) = Ok tt ->
  let s1 := snd (initialize password salt w1) in
  let s2 := snd (initialize password salt w2) in
  fst (initialize password salt w2) = Ok tt
  /\ (forall t c,
        Utf8.well_formed t = true -> Utf8.starts_with_bom t = false ->
        Utf8.well_formed c = true -> Utf8.starts_with_bom c = false ->
        exists note,
          fst (encryptNote t c s1) = Ok note
          /\ fst (decryptNote (title note) (content note) s2) = Ok (mkNote t c))
  /\ (forall name,
        Utf8.well_formed name = true -> Utf8.starts_with_bom name = false ->
        exists blob,
          fst (encryptLabel name s1) = Ok blob
          /\ fst (decryptLabel blob s2) = Ok name)
  /\ (forall image,
        exists blob,
          fst (encryptImage image s1) = Ok blob
          /\ fst (decryptImage blob s2) = Ok image).
Proof.
  intros Hinit. cbv zeta. revert Hinit. rewrite !initialize_run.
  destruct (base64ToArrayBuffer salt) as [sb|e]; [|discriminate].
  intros _. cbn [fst snd].
  set (key := pbkdf2_sha256 (TextEncoder_encode password) sb PBKDF2_ITERATIONS KEY_LENGTH).
  set (s1 := mkWorld (entropy w1) _ _ _ _).
  set (s2 := mkWorld (entropy w2) _ _ _ _).
  assert (K1 : this_key s1 = Some key) by reflexivity.
  assert (K2 : this_key s2 = Some key) by reflexivity.
  split; [reflexivity|]. split; [|split].
  - intros t c Hwt Hbt Hwc Hbc. unfold encryptNote.
    rewrite (require_key_some _ key) by assumption.
    unfold bind, ret. rewrite encryptString_run, encryptBinary_run.
    rewrite encryptString_run, encryptBinary_run.
    eexists. split; [reflexivity|]. cbn [title content].
    unfold decryptNote. rewrite (require_key_some _ key) by assumption.
    unfold bind, ret.
    pose proof (decryptString_blob key (next_bytes s1 IV_LENGTH) t s2
                  (length_next_bytes _ _) Hwt Hbt) as Ht.
    destruct (decryptString (blob_of key (next_bytes s1 IV_LENGTH) (TextEncoder_encode t))
                key s2) as [[pt|e] s3] eqn:Et; cbn [fst] in Ht; [|discriminate].
    injection Ht as ->.
    set (iv2 := next_bytes _ IV_LENGTH).
    assert (Hiv2 : length iv2 = IV_LENGTH) by apply length_next_bytes.
    pose proof (decryptString_blob key iv2 c s3 Hiv2 Hwc Hbc) as Hc.
    assert (Hnn : blob_of key iv2 (TextEncoder_encode c) <> []) by apply blob_of_not_nil.
    destruct (blob_of key iv2 (TextEncoder_encode c)) as [|b0 b'] eqn:Eb;
      [now destruct Hnn|].
    destruct (decryptString (b0 :: b') key s3) as [[pc|e] s4]; cbn [fst] in Hc;
      [|discriminate].
    injection Hc as ->. reflexivity.
  - intros name Hw Hb. unfold encryptLabel.
    rewrite (require_key_some _ key) by assumption.
    rewrite encryptString_run, encryptBinary_run. eexists. split; [reflexivity|].
    unfold decryptLabel. rewrite (require_key_some _ key) by assumption.
    apply decryptString_blob; [apply length_next_bytes | assumption | assumption].
  - intros image. unfold encryptImage.
    rewrite (require_key_some _ key) by assumption.
    rewrite encryptBinary_run. eexists. split; [reflexivity|].
    unfold decryptImage. rewrite (require_key_some _ key) by assumption.
    apply decryptBinary_blob, length_next_bytes.
Qed.

(** X9. A blob that decodes to fewer than 28 bytes, the 12 of the nonce and
    the 16 of the tag, is refused by [decryptBinary] and [decryptString]
    with [OperationError]; the empty text is one. *)
Theorem short_blob_is_refused (blob : jsstring) (bs : list byte) (key : CryptoKey)
    (w : World) :
  base64ToArrayBuffer blob = Ok bs -> (length bs < 28)%nat ->
  fst (decryptBinary blob key w) = Throw OperationError
  /\ fst (decryptString blob key w) = Throw OperationError
  /\ fst (decryptBinary [] key w) = Throw OperationError
  /\ fst (decryptString [] key w) = Throw OperationError.
Proof.
  intros Hbs Hlen.
  assert (H : forall text bs', base64ToArrayBuffer text = Ok bs' ->
                (length bs' < 28)%nat ->
                fst (decryptBinary text key w) = Throw OperationError
                /\ fst (decryptString text key w) = Throw OperationError).
  { intros text bs' Hd Hl. rewrite decryptString_value, decryptBinary_value, Hd.
    cbn [rbind]. rewrite aes_gcm_short; [auto|]. rewrite length_skipn. lia. }
  destruct (H blob bs Hbs Hlen) as [H1 H2].
  destruct (H [] [] eq_refl) as [H3 H4]; [cbn; lia|]. auto.
Qed.

End ServiceRoundTrip.

(** ** Strings that are not well formed *)

Section IllFormed.
Import Utf8.

(** Every string of 16-bit code units has scalar values. *)
Lemma scalar_values_scalar s :
  Forall (fun c => c < 0x10000) s -> Forall is_scalar (scalar_values s).
Proof.
  induction s as [|c|c d s IHs IHd] using list_ind2.
  - intros _. constructor.
  - intros H. inversion_clear H as [|? ? Hc _]. rewrite scalar_values_cons.
    destruct (surrogate_cases c) as [[-> Hl] | [[-> [-> Hl]] | [-> [-> Hl]]]];
      (apply Forall_cons; [unfold is_scalar, replacement; lia | apply Forall_nil]).
  - intros H. inversion H as [|? ? Hc H']; subst.
    inversion H' as [|? ? Hd Hs]; subst.
    specialize (IHs Hs). specialize (IHd H').
    rewrite (scalar_values_cons c).
    destruct (surrogate_cases c) as [[-> Hl] | [[-> [-> Hl]] | [-> [-> Hl]]]].
    + destruct (surrogate_cases d) as [[Hdl Hd'] | [[Hdl [-> Hd']] | [Hdl [-> Hd']]]].
      * replace (is_trail_surrogate d) with false.
        -- apply Forall_cons; [unfold is_scalar, replacement; lia | assumption].
        -- unfold is_trail_surrogate.
           destruct (N.leb_spec 0xDC00 d); [lia | reflexivity].
      * apply Forall_cons; [unfold is_scalar; lia | assumption].
      * apply Forall_cons; [unfold is_scalar, replacement; lia | assumption].
    + apply Forall_cons; [unfold is_scalar, replacement; lia | assumption].
    + apply Forall_cons; [unfold is_scalar; lia | assumption].
Qed.

Lemma code_units_cases cp :
  is_scalar cp ->
  (code_units cp = [cp] /\ is_lead_surrogate cp = false
   /\ is_trail_surrogate cp = false /\ cp < 0x10000)
  \/ (exists hi lo,
        code_units cp = [hi; lo] /\ is_lead_surrogate hi = true
        /\ is_trail_surrogate lo = true
        /\ 0x10000 + (hi - 0xD800) * 0x400 + (lo - 0xDC00) = cp).
Proof.
  intros Hcp. unfold code_units. destruct (N.ltb_spec cp 0x10000) as [Hlt|Hge].
  - left. split; [reflexivity|].
    destruct (surrogate_cases cp) as [[_ Hl] | [[_ [_ Hl]] | [-> [-> Hl]]]];
      unfold is_scalar in Hcp; [lia | lia | auto].
  - right. eexists. eexists. split; [reflexivity|].
    apply is_scalar_lt in Hcp. unfold is_lead_surrogate, is_trail_surrogate.
    split; [|split].
    + apply andb_true_iff. split; apply N.leb_le; lia.
    + apply andb_true_iff. split; apply N.leb_le; lia.
    + lia.
Qed.

(** The code units of scalar values are a well-formed string with these
    scalar values. *)
Lemma scalar_values_code_units cps :
  Forall is_scalar cps ->
  scalar_values (flat_map code_units cps) = cps
  /\ well_formed (flat_map code_units cps) = true.
Proof.
  induction 1 as [|cp cps Hcp _ [IH1 IH2]]; [split; reflexivity|].
  cbn [flat_map].
  destruct (code_units_cases cp Hcp) as [[-> [Hl [Ht Hlt]]] | [hi [lo [-> [Hl [Ht Hv]]]]]];
    cbn [app]; rewrite scalar_values_cons, well_formed_cons, Hl.
  - rewrite Ht, IH1, IH2. cbn [negb andb].
    destruct (N.ltb_spec cp 0x10000); [auto | lia].
  - rewrite Ht, IH1, IH2, Hv. auto.
Qed.

End IllFormed.

Lemma to_well_formed_encode (s : jsstring) :
  Forall (fun c => c < 0x10000) s ->
  Utf8.well_formed (to_well_formed s) = true
  /\ TextEncoder_encode (to_well_formed s) = TextEncoder_encode s.
Proof.
  intros H. apply scalar_values_scalar in H.
  destruct (scalar_values_code_units _ H) as [H1 H2]. split; [exact H2|].
  unfold TextEncoder_encode, Utf8.encode, to_well_formed. now rewrite H1.
Qed.

Section Normalization.
Context {SC : SubtleCrypto} {L : SubtleCryptoLaws SC}.

(** X10. What [decryptString] returns for the blob of any string [p]: the
    string [p] with every unpaired surrogate replaced by U+FFFD and, after
    that, without its first character when this is U+FEFF.  Nothing else is
    lost. *)
Theorem round_trip_up_to_normalization (p : jsstring) (key : CryptoKey) (w w' : World) :
  Forall (fun c => c < 0x10000) p ->
  exists blob,
    fst (encryptString p key w) = Ok blob
    /\ fst (decryptString blob key w')
       = Ok (flat_map Utf8.code_units (Utf8.drop_bom (Utf8.scalar_values p)))
    /\ (Utf8.starts_with_bom (to_well_formed p) = false ->
        fst (decryptString blob key w') = Ok (to_well_formed p)).
Proof.
  intros Hp. destruct (decryptString_encryptString p key w w') as [blob [Henc Hdec]].
  exists blob. split; [assumption|].
  assert (Hd : TextDecoder_decode (TextEncoder_encode p)
               = flat_map Utf8.code_units (Utf8.drop_bom (Utf8.scalar_values p))).
  { pose proof (scalar_values_scalar p Hp) as Hsc.
    unfold TextDecoder_decode, TextEncoder_encode.
    rewrite map_to_N_to_uint8 by now apply encode_octets.
    unfold Utf8.decode, Utf8.encode. now rewrite run_encode. }
  split; [now rewrite Hdec, Hd|].
  intros Hbom. rewrite Hdec.
  destruct (to_well_formed_encode p Hp) as [Hwf Henc'].
  now rewrite <- Henc', TextDecoder_TextEncoder.
Qed.

End Normalization.

Section Passwords.
Context {SC : SubtleCrypto}.

(** X11. A password is used through its UTF-8 encoding only: a password
    with unpaired surrogates gives the same key and the same hash as the
    well-formed password in which each of them is U+FFFD. *)
Theorem unpaired_surrogates_in_passwords (password salt : jsstring) (w : World) :
  Forall (fun c => c < 0x10000) password ->
  Utf8.well_formed (to_well_formed password) = true
  /\ fst (deriveKeyFromPassword (to_well_formed password) salt w)
     = fst (deriveKeyFromPassword password salt w)
  /\ fst (hashPassword (to_well_formed password) w)
     = fst (hashPassword password w)
  /\ this_key (snd (initialize (to_well_formed password) salt w))
     = this_key (snd (initialize password salt w)).
Proof.
  intros Hp. destruct (to_well_formed_encode password Hp) as [Hwf Henc].
  split; [exact Hwf|]. split; [|split].
  - rewrite !deriveKeyFromPassword_run, Henc. reflexivity.
  - unfold hashPassword, bind, subtle_digest, bind, record, ret, lift.
    now rewrite Henc.
  - rewrite !initialize_run, Henc. reflexivity.
Qed.

End Passwords.

(** ** [hashPassword] *)

Section Sha256Length.
Import SHA256.

Lemma length_round s kw : length s = 8%nat -> length (round s kw) = 8%nat.
Proof.
  destruct s as [|a [|b [|c [|d [|e [|f [|g [|h [|i s]]]]]]]]]; try discriminate.
  reflexivity.
Qed.

Lemma length_rounds l s :
  length s = 8%nat -> length (fold_left round l s) = 8%nat.
Proof.
  revert s. induction l as [|kw l IH]; intros s Hs; cbn [fold_left]; [exact Hs|].
  apply IH, length_round, Hs.
Qed.

Lemma length_add_words a b :
  length (add_words a b) = Nat.min (length a) (length b).
Proof.
  revert b. induction a as [|x a IH]; intros [|y b]; cbn [add_words length];
    try reflexivity.
  now rewrite IH.
Qed.

Lemma length_compress h block : length h = 8%nat -> length (compress h block) = 8%nat.
Proof.
  intros Hh. unfold compress. rewrite length_add_words, length_rounds by exact Hh.
  rewrite Hh. reflexivity.
Qed.

Lemma length_hash m : length (hash m) = 32%nat.
Proof.
  unfold hash. set (cs := chunks _ _).
  assert (H : forall h, length h = 8%nat -> length (fold_left compress cs h) = 8%nat).
  { induction cs as [|c cs IH]; intros h Hh; cbn [fold_left]; [exact Hh|].
    apply IH, length_compress, Hh. }
  specialize (H H0 eq_refl). revert H.
  generalize (fold_left compress cs H0) as st. intros st Hst.
  assert (Hc : forall l, length (concat (map (N_to_be 4) l)) = (4 * length l)%nat).
  { induction l as [|x l IH]; [reflexivity|].
    cbn [map concat]. rewrite length_app, length_N_to_be, IH. cbn [length]. lia. }
  now rewrite Hc, Hst.
Qed.

End Sha256Length.

(** X12. [hashPassword] never throws: it returns a text of 44 characters
    that decodes to the 32 bytes of the SHA-256 digest of the UTF-8 encoding
    of the password.  It is the same text in every world (no salt, no random
    byte), and the call leaves the service and the CSPRNG as they were. *)
Theorem hashPassword_digest (password : jsstring) (w : @World WebCrypto) :
  exists hash,
    hashPassword password w
    = (Ok hash, logged w [Digest (TextEncoder_encode password)])
    /\ length hash = 44%nat
    /\ base64ToArrayBuffer hash
       = Ok (bytes (SHA256.hash (octets (TextEncoder_encode password))))
    /\ (forall w' : @World WebCrypto, fst (hashPassword password w') = Ok hash).
Proof.
  unfold hashPassword, bind, subtle_digest, bind, record, ret, lift.
  rewrite arrayBufferToBase64_eq. eexists. split; [reflexivity|].
  split; [|split].
  - rewrite length_encode, length_map. cbn [sha256 WebCrypto].
    now rewrite length_bytes, length_hash.
  - apply base64ToArrayBuffer_encode.
  - intros w'. reflexivity.
Qed.

(** * The notes grid *)

Lemma btoa_reduce_fromCharCode buffer :
  Base64.btoa (reduce_fromCharCode buffer)
  = Ok (Base64.encode (map fromCharCode buffer)).
Proof. exact (arrayBufferToBase64_eq buffer). Qed.

(** The conversion [handleSaveNote] writes out is [base64ToArrayBuffer]. *)
Lemma buffer_of_base64_eq data : buffer_of_base64 data = base64ToArrayBuffer data.
Proof.
  unfold buffer_of_base64, base64ToArrayBuffer.
  destruct (Base64.atob data) as [binary|e]; [|reflexivity].
  cbn [rbind]. unfold split_units. rewrite !map_map. reflexivity.
Qed.

Section NotesGridFacts.
Context {SC : SubtleCrypto}.

Lemma same_service_refl w : same_service w w.
Proof. unfold same_service. auto. Qed.

Lemma same_service_trans w1 w2 w3 :
  same_service w1 w2 -> same_service w2 w3 -> same_service w1 w3.
Proof.
  unfold same_service. intros [A1 [A2 [A3 A4]]] [B1 [B2 [B3 B4]]].
  repeat split; congruence.
Qed.

Lemma decryptBinary_frame text key w :
  same_service w (snd (decryptBinary text key w)).
Proof.
  rewrite decryptBinary_run. unfold same_service.
  destruct (base64ToArrayBuffer text); cbn; auto.
Qed.

Lemma decryptBinary_any_world text key w w' :
  fst (decryptBinary text key w) = fst (decryptBinary text key w').
Proof. now rewrite !decryptBinary_value. Qed.

Lemma decryptImage_some key x w :
  this_key w = Some key -> decryptImage x w = decryptBinary x key w.
Proof. intros H. unfold decryptImage. now rewrite (require_key_some _ key). Qed.

Lemma decryptImage_frame x w : same_service w (snd (decryptImage x w)).
Proof.
  destruct (this_key w) as [key|] eqn:Ek.
  - rewrite (decryptImage_some key) by assumption. apply decryptBinary_frame.
  - unfold decryptImage. rewrite require_key_none by assumption.
    apply same_service_refl.
Qed.

Lemma decryptNote_frame t c w : same_service w (snd (decryptNote t c w)).
Proof.
  destruct (this_key w) as [key|] eqn:Ek.
  - unfold decryptNote. rewrite (require_key_some _ key) by assumption.
    unfold bind, ret.
    pose proof (decryptString_frame t key w) as Ft. cbv zeta in Ft.
    destruct (decryptString t key w) as [[plain|e] w1]; cbn [snd] in *; [|exact Ft].
    destruct c as [|c0 c']; [exact Ft|].
    pose proof (decryptString_frame (c0 :: c') key w1) as Fc. cbv zeta in Fc.
    destruct (decryptString (c0 :: c') key w1) as [[body|e] w2]; cbn [snd] in *;
      exact (same_service_trans _ _ _ Ft Fc).
  - unfold decryptNote. rewrite require_key_none by assumption.
    apply same_service_refl.
Qed.

(** One turn of the loop of [fetchNotes]. *)
Lemma decryptImages_cons image rest acc w :
  decryptImages (image :: rest) acc w
  = decryptImages rest
      (match fst (decryptImage (ImageRow.data image) w) with
       | Ok buffer => acc ++ [shown_image image buffer]
       | Throw _ => acc
       end)
      (snd (decryptImage (ImageRow.data image) w)).
Proof.
  cbn [decryptImages]. unfold bind at 1. unfold try_catch, bind, lift, ret.
  destruct (decryptImage (ImageRow.data image) w) as [[buffer|e] w1]; cbn [fst snd].
  - now rewrite btoa_reduce_fromCharCode.
  - reflexivity.
Qed.

Lemma decryptImages_run images :
  forall acc w,
    exists w',
      decryptImages images acc w
      = (Ok (acc ++ flat_map
                      (fun image =>
                         match fst (decryptImage (ImageRow.data image) w) with
                         | Ok buffer => [shown_image image buffer]
                         | Throw _ => []
                         end) images), w')
      /\ same_service w w'.
Proof.
  induction images as [|image rest IH]; intros acc w.
  - exists w. cbn [decryptImages flat_map]. rewrite app_nil_r.
    split; [reflexivity | apply same_service_refl].
  - rewrite decryptImages_cons.
    pose proof (decryptImage_frame (ImageRow.data image) w) as F.
    set (w1 := snd (decryptImage (ImageRow.data image) w)) in *.
    destruct (IH (match fst (decryptImage (ImageRow.data image) w) with
                  | Ok buffer => acc ++ [shown_image image buffer]
                  | Throw _ => acc
                  end) w1) as [w' [Hrun F']].
    exists w'. split; [|exact (same_service_trans _ _ _ F F')].
    rewrite Hrun. f_equal. f_equal. cbn [flat_map].
    assert (Hsame : forall x, fst (decryptImage x w1) = fst (decryptImage x w)).
    { intros x. destruct F as [_ [_ [Fk _]]].
      destruct (this_key w) as [key|] eqn:Ek.
      - rewrite !(decryptImage_some key) by congruence.
        apply decryptBinary_any_world.
      - unfold decryptImage. rewrite !require_key_none by congruence. reflexivity. }
    replace (flat_map
               (fun image0 =>
                  match fst (decryptImage (ImageRow.data image0) w1) with
                  | Ok buffer => [shown_image image0 buffer]
                  | Throw _ => []
                  end) rest)
      with (flat_map
              (fun image0 =>
                 match fst (decryptImage (ImageRow.data image0) w) with
                 | Ok buffer => [shown_image image0 buffer]
                 | Throw _ => []
                 end) rest).
    + destruct (fst (decryptImage (ImageRow.data image) w)); [|reflexivity].
      now rewrite <- app_assoc.
    + apply flat_map_ext. intros x. now rewrite Hsame.
Qed.

(** X13. The function [fetchNotes] maps over the notes never throws.  It
    returns [null] exactly when [decryptNote] throws on the title and the
    content, so that the note is left out of the grid; with a service that
    holds no key this is the case of every note.  It takes no random byte
    and leaves the service as it was. *)
Theorem fetchNotes_note_never_throws (note : NoteRow.t) (w : World) :
  exists r w',
    fetchNotes_note note w = (Ok r, w')
    /\ (r = None <->
        exists e,
          fst (decryptNote (NoteRow.title note) (or_empty (NoteRow.content note)) w)
          = Throw e)
    /\ (this_key w = None -> r = None /\ w' = w)
    /\ same_service w w'.
Proof.
  unfold fetchNotes_note, try_catch. unfold bind at 1.
  pose proof (decryptNote_frame (NoteRow.title note) (or_empty (NoteRow.content note)) w)
    as F.
  assert (Hnone : this_key w = None ->
                  decryptNote (NoteRow.title note) (or_empty (NoteRow.content note)) w
                  = (Throw NotInitializedError, w)).
  { intros Hk. unfold decryptNote. now rewrite require_key_none. }
  destruct (decryptNote (NoteRow.title note) (or_empty (NoteRow.content note)) w)
    as [[decrypted|e] w1] eqn:Ed; cbn [fst snd] in *.
  - unfold bind at 1.
    assert (Himgs : exists imgs w2,
               match NoteRow.images note with
               | Some (image :: rest) => decryptImages (image :: rest) []
               | _ => ret []
               end w1 = (Ok imgs, w2) /\ same_service w1 w2).
    { destruct (NoteRow.images note) as [[|image rest]|].
      - exists [], w1. split; [reflexivity | apply same_service_refl].
      - destruct (decryptImages_run (image :: rest) [] w1) as [w2 [Hrun F2]].
        eexists. exists w2. split; [exact Hrun | exact F2].
      - exists [], w1. split; [reflexivity | apply same_service_refl]. }
    destruct Himgs as [imgs [w2 [-> F2]]]. unfold ret.
    eexists. exists w2. split; [reflexivity|]. split; [|split].
    + split; [discriminate | intros [e He]; discriminate].
    + intros Hk. specialize (Hnone Hk). discriminate.
    + exact (same_service_trans _ _ _ F F2).
  - exists None, w1. split; [reflexivity|]. split; [|split].
    + split; eauto.
    + intros Hk. specialize (Hnone Hk). split; [reflexivity | congruence].
    + exact F.
Qed.

(** The value of the function [fetchNotes] maps over the notes, in a
    service that holds a key. *)
Lemma fetchNotes_note_run key (note : NoteRow.t) (w : World) :
  this_key w = Some key ->
  fst (fetchNotes_note note w)
  = Ok match fst (decryptNote (NoteRow.title note) (or_empty (NoteRow.content note)) w)
       with
       | Ok decrypted =>
           Some (DecryptedNote.mk
                   (Some (NoteRow.id note))
                   (title decrypted)
                   (content decrypted)
                   (NoteRow.color note)
                   (NoteRow.isPinned note)
                   (flat_map
                      (fun image =>
                         match fst (decryptImage (ImageRow.data image) w) with
                         | Ok buffer => [shown_image image buffer]
                         | Throw _ => []
                         end) (or_nil (NoteRow.images note)))
                   match NoteRow.labels note with
                   | Some ls => map or_empty ls
                   | None => []
                   end
                   (Some (new_Date (NoteRow.createdAt note)))
                   (Some (new_Date (NoteRow.updatedAt note))))
       | Throw _ => None
       end.
Proof.
  intros Hk. unfold fetchNotes_note, try_catch. unfold bind at 1.
  pose proof (decryptNote_frame (NoteRow.title note) (or_empty (NoteRow.content note)) w)
    as F.
  destruct (decryptNote (NoteRow.title note) (or_empty (NoteRow.content note)) w)
    as [[decrypted|e] w1] eqn:Ed; cbn [fst snd] in *; [|reflexivity].
  unfold bind at 1.
  assert (Hsame : forall x, fst (decryptImage x w1) = fst (decryptImage x w)).
  { intros x. destruct F as [_ [_ [Fk _]]].
    rewrite !(decryptImage_some key) by congruence.
    apply decryptBinary_any_world. }
  assert (Himgs : exists w2,
             match NoteRow.images note with
             | Some (image :: rest) => decryptImages (image :: rest) []
             | _ => ret []
             end w1
             = (Ok (flat_map
                      (fun image =>
                         match fst (decryptImage (ImageRow.data image) w) with
                         | Ok buffer => [shown_image image buffer]
                         | Throw _ => []
                         end) (or_nil (NoteRow.images note))), w2)).
  { destruct (NoteRow.images note) as [[|image rest]|]; cbn [or_nil].
    - exists w1. reflexivity.
    - destruct (decryptImages_run (image :: rest) [] w1) as [w2 [Hrun _]].
      exists w2. rewrite Hrun. cbn [app]. f_equal. f_equal.
      apply flat_map_ext. intros x. now rewrite Hsame.
    - exists w1. reflexivity. }
  destruct Himgs as [w2 ->]. reflexivity.
Qed.

(** X14. What the grid shows of a note that decrypts: the title and the
    content [decryptNote] returns; of the images, those that [decryptImage]
    decrypts, in the order of the server, each with its [id], [mimeType] and
    [order] and with the base64 text of the decrypted bytes.  An image that
    does not decrypt is left out and the note is still shown. *)
Theorem fetchNotes_note_shows
    (rng : nat -> byte) (n : nat) (log : list Call) (key : CryptoKey)
    (salt : option jsstring) (note : NoteRow.t) :
  let w := mkWorld rng n log (Some key) salt in
  match fst (fetchNotes_note note w) with
  | Ok (Some shown) =>
      fst (decryptNote (NoteRow.title note) (or_empty (NoteRow.content note)) w)
      = Ok (mkNote (DecryptedNote.title shown) (DecryptedNote.content shown))
      /\ DecryptedNote.images shown
         = flat_map
             (fun image =>
                match fst (decryptImage (ImageRow.data image) w) with
                | Ok buffer =>
                    [DecryptedImage.mk (ImageRow.id image)
                       (Base64.encode (map fromCharCode buffer))
                       (ImageRow.mimeType image) (ImageRow.order image)]
                | Throw _ => []
                end)
             (or_nil (NoteRow.images note))
      /\ Forall (fun image =>
                   exists buffer,
                     base64ToArrayBuffer (DecryptedImage.data image) = Ok buffer
                     /\ arrayBufferToBase64 buffer = Ok (DecryptedImage.data image))
           (DecryptedNote.images shown)
      /\ DecryptedNote.id shown = Some (NoteRow.id note)
      /\ DecryptedNote.color shown = NoteRow.color note
      /\ DecryptedNote.isPinned shown = NoteRow.isPinned note
  | Ok None =>
      exists e,
        fst (decryptNote (NoteRow.title note) (or_empty (NoteRow.content note)) w)
        = Throw e
  | Throw _ => False
  end.
Proof.
  cbv zeta. set (w := mkWorld rng n log (Some key) salt).
  rewrite (fetchNotes_note_run key note w eq_refl).
  destruct (fst (decryptNote (NoteRow.title note) (or_empty (NoteRow.content note)) w))
    as [[t c]|e]; [|exists e; reflexivity].
  cbn [DecryptedNote.title DecryptedNote.content DecryptedNote.images DecryptedNote.id
       DecryptedNote.color DecryptedNote.isPinned title content].
  split; [reflexivity|]. split; [reflexivity|].
  split; [|split; [reflexivity|split; reflexivity]].
  apply Forall_flat_map. apply Forall_forall. intros image _.
  destruct (fst (decryptImage (ImageRow.data image) w)) as [buffer|e]; [|constructor].
  constructor; [|constructor]. exists buffer. cbn [shown_image DecryptedImage.data].
  split; [apply base64ToArrayBuffer_encode | apply arrayBufferToBase64_eq].
Qed.

End NotesGridFacts.

(** ** Saving *)

Section SaveFacts.
Context {SC : SubtleCrypto}.

Lemma encryptImage_some key d w :
  this_key w = Some key -> encryptImage d w = encryptBinary d key w.
Proof. intros H. unfold encryptImage. now rewrite (require_key_some _ key). Qed.

(** One turn of the loop of [handleSaveNote]. *)
Lemma encryptImages_cons key image rest acc w :
  this_key w = Some key ->
  encryptImages (image :: rest) acc w
  = match base64ToArrayBuffer (DecryptedImage.data image) with
    | Ok buffer =>
        encryptImages rest
          (acc ++ [EncryptedImageInput.mk (blob_of key (next_bytes w IV_LENGTH) buffer)
                     (DecryptedImage.mimeType image) (DecryptedImage.order image)])
          (logged (advanced w IV_LENGTH)
             [GetRandomValues IV_LENGTH; Encrypt (next_bytes w IV_LENGTH) buffer])
    | Throw e => (Throw e, w)
    end.
Proof.
  intros Hk. cbn [encryptImages]. unfold bind at 1. unfold lift.
  rewrite buffer_of_base64_eq.
  destruct (base64ToArrayBuffer (DecryptedImage.data image)) as [buffer|e];
    [|reflexivity].
  unfold bind at 1. rewrite (encryptImage_some key) by assumption.
  now rewrite encryptBinary_run.
Qed.

Lemma encryptImages_run key images :
  forall acc w,
    this_key w = Some key ->
    Forall (fun image =>
              exists buffer, base64ToArrayBuffer (DecryptedImage.data image) = Ok buffer)
      images ->
    exists res w',
      encryptImages images acc w = (Ok (acc ++ res), w')
      /\ sealed_from key (entropy w) (drawn w) images res
      /\ this_key w' = Some key
      /\ drawn w' = (drawn w + 12 * length images)%nat.
Proof.
  induction images as [|image rest IH]; intros acc w Hk Hall.
  - exists [], w. cbn [encryptImages length sealed_from]. rewrite app_nil_r.
    split; [reflexivity|]. split; [exact I|]. split; [assumption | lia].
  - inversion_clear Hall as [|? ? [buffer Hb] Hrest].
    rewrite (encryptImages_cons key) by assumption. rewrite Hb.
    destruct (IH (acc ++ [EncryptedImageInput.mk (blob_of key (next_bytes w IV_LENGTH) buffer)
                            (DecryptedImage.mimeType image) (DecryptedImage.order image)])
                (logged (advanced w IV_LENGTH)
                   [GetRandomValues IV_LENGTH; Encrypt (next_bytes w IV_LENGTH) buffer])
                Hk Hrest) as [res [w' [Hrun [Hsealed [Hk' Hd]]]]].
    eexists. exists w'. split; [|split; [|split]].
    + rewrite Hrun, <- app_assoc. reflexivity.
    + cbn [sealed_from]. split; [|exact Hsealed].
      exists buffer.
      cbn [EncryptedImageInput.data EncryptedImageInput.mimeType EncryptedImageInput.order].
      split; [exact Hb|]. split; [reflexivity|]. auto.
    + exact Hk'.
    + rewrite Hd. cbn [logged advanced drawn length]. change IV_LENGTH with 12%nat. lia.
Qed.

Lemma encryptImages_throws key images :
  forall acc w,
    this_key w = Some key ->
    Exists (fun image =>
              base64ToArrayBuffer (DecryptedImage.data image) = Throw InvalidCharacterError)
      images ->
    fst (encryptImages images acc w) = Throw InvalidCharacterError.
Proof.
  induction images as [|image rest IH]; intros acc w Hk Hex; [inversion Hex|].
  rewrite (encryptImages_cons key) by assumption.
  destruct (base64ToArrayBuffer (DecryptedImage.data image)) as [buffer|e] eqn:Eb.
  - apply IH; [exact Hk|]. inversion Hex as [? ? H|? ? H]; subst; [congruence | exact H].
  - apply base64ToArrayBuffer_throws in Eb. now subst e.
Qed.

Lemma decodes_or_not (images : list DecryptedImage.t) :
  Forall (fun image =>
            exists buffer, base64ToArrayBuffer (DecryptedImage.data image) = Ok buffer)
    images
  \/ Exists (fun image =>
               base64ToArrayBuffer (DecryptedImage.data image) = Throw InvalidCharacterError)
       images.
Proof.
  induction images as [|image rest [IH|IH]].
  - left. constructor.
  - destruct (base64ToArrayBuffer (DecryptedImage.data image)) as [buffer|e] eqn:Eb.
    + left. constructor; eauto.
    + right. apply Exists_cons_hd. apply base64ToArrayBuffer_throws in Eb as He.
      now subst e.
  - right. now apply Exists_cons_tl.
Qed.

Lemma blob_of_nonempty key iv data : length iv = IV_LENGTH -> blob_of key iv data <> [].
Proof.
  intros Hiv. destruct iv as [|b iv]; [discriminate|].
  unfold blob_of. cbn [map app]. apply encode_not_nil.
Qed.

Lemma encryptNote_run t c key w :
  this_key w = Some key ->
  encryptNote t c w
  = (Ok (mkNote (blob_of key (next_bytes w IV_LENGTH) (TextEncoder_encode t))
           (blob_of key (next_bytes (snd (encryptString t key w)) IV_LENGTH)
              (TextEncoder_encode c))),
     snd (encryptString c key (snd (encryptString t key w)))).
Proof.
  intros Hk. unfold encryptNote. rewrite (require_key_some _ key) by assumption.
  unfold bind, ret.
  repeat (rewrite encryptString_run, encryptBinary_run; cbn [fst snd]).
  reflexivity.
Qed.

Lemma encryptString_frame t key w :
  this_key (snd (encryptString t key w)) = this_key w
  /\ drawn (snd (encryptString t key w)) = (drawn w + 12)%nat
  /\ entropy (snd (encryptString t key w)) = entropy w.
Proof. rewrite encryptString_run, encryptBinary_run. repeat split. Qed.

Lemma handleSaveNote_noteData_run key u note w :
  User.id u <> [] ->
  this_key w = Some key ->
  Forall (fun image =>
            exists buffer, base64ToArrayBuffer (DecryptedImage.data image) = Ok buffer)
    (DecryptedNote.images note) ->
  exists iv1 iv2 res w',
    handleSaveNote_noteData (Some u) note w
    = (Ok (Some (NoteData.mk (User.id u)
                   (blob_of key iv1 (TextEncoder_encode (DecryptedNote.title note)))
                   (blob_of key iv2 (TextEncoder_encode (DecryptedNote.content note)))
                   (DecryptedNote.color note) (DecryptedNote.isPinned note) res)), w')
    /\ length iv1 = IV_LENGTH /\ length iv2 = IV_LENGTH
    /\ sealed_from key (entropy w) (drawn w + 24) (DecryptedNote.images note) res
    /\ drawn w' = (drawn w + 12 * (2 + length (DecryptedNote.images note)))%nat.
Proof.
  intros Hid Hk Hall. unfold handleSaveNote_noteData.
  destruct (User.id u) as [|c userId] eqn:Eid; [now destruct Hid|].
  unfold bind at 1.
  rewrite (encryptNote_run _ _ key) by assumption.
  set (w1 := snd (encryptString (DecryptedNote.title note) key w)).
  set (w2 := snd (encryptString (DecryptedNote.content note) key w1)).
  destruct (encryptString_frame (DecryptedNote.title note) key w) as [Hk1 [Hd1 He1]].
  destruct (encryptString_frame (DecryptedNote.content note) key w1) as [Hk2 [Hd2 He2]].
  fold w1 in Hk1, Hd1, He1, Hk2, Hd2, He2. fold w2 in Hk2, Hd2, He2.
  assert (Hkey2 : this_key w2 = Some key) by congruence.
  destruct (encryptImages_run key (DecryptedNote.images note) [] w2 Hkey2 Hall)
    as [res [w' [Hrun [Hsealed [_ Hd]]]]].
  unfold bind. rewrite Hrun. cbn [app title content]. unfold ret.
  exists (next_bytes w IV_LENGTH), (next_bytes w1 IV_LENGTH), res, w'.
  split; [reflexivity|].
  split; [apply length_next_bytes|]. split; [apply length_next_bytes|].
  split; [|lia].
  replace (drawn w + 24)%nat with (drawn w2) by lia.
  replace (entropy w) with (entropy w2) by congruence. exact Hsealed.
Qed.

Lemma handleSaveNote_noteData_throws key u note w :
  User.id u <> [] ->
  this_key w = Some key ->
  Exists (fun image =>
            base64ToArrayBuffer (DecryptedImage.data image) = Throw InvalidCharacterError)
    (DecryptedNote.images note) ->
  fst (handleSaveNote_noteData (Some u) note w) = Throw InvalidCharacterError.
Proof.
  intros Hid Hk Hex. unfold handleSaveNote_noteData.
  destruct (User.id u) as [|c userId] eqn:Eid; [now destruct Hid|].
  unfold bind at 1.
  rewrite (encryptNote_run _ _ key) by assumption.
  set (w1 := snd (encryptString (DecryptedNote.title note) key w)).
  set (w2 := snd (encryptString (DecryptedNote.content note) key w1)).
  destruct (encryptString_frame (DecryptedNote.title note) key w) as [Hk1 _].
  destruct (encryptString_frame (DecryptedNote.content note) key w1) as [Hk2 _].
  fold w1 in Hk1, Hk2. fold w2 in Hk2.
  assert (Hkey2 : this_key w2 = Some key) by congruence.
  pose proof (encryptImages_throws key (DecryptedNote.images note) [] w2 Hkey2 Hex)
    as Ht.
  unfold bind.
  destruct (encryptImages (DecryptedNote.images note) [] w2) as [[r|e] w3];
    cbn [fst] in *; [discriminate | now injection Ht as ->].
Qed.

(** X15. What [handleSaveNote] sends.  Without a user in the store, or for
    a user whose [id] is the empty string, the handler returns at once: no
    byte of the CSPRNG is drawn, nothing is encrypted and no request body is
    made.  For a user with an [id], in a service that holds a key, the
    request body is made unless the data of some image is not base64, and
    then [InvalidCharacterError] is thrown and nothing is sent.  In the body
    the title and the content are never empty (the server takes an empty
    title for a missing one); the images are sealed one by one, each under
    the next 12 bytes of the CSPRNG after the 24 of the title and the
    content, and keep their type and their rank; [userId] is the [id] of the
    user, [color] and [isPinned] are copied. *)
Theorem handleSaveNote_noteData_outcome
    (rng : nat -> byte) (n : nat) (log : list Call) (key : CryptoKey)
    (salt : option jsstring) (user : option User.t) (note : DecryptedNote.t) :
  let w := mkWorld rng n log (Some key) salt in
  match user with
  | None => handleSaveNote_noteData user note w = (Ok None, w)
  | Some u =>
      match User.id u with
      | [] => handleSaveNote_noteData user note w = (Ok None, w)
      | _ :: _ =>
          match fst (handleSaveNote_noteData user note w) with
          | Ok None => False
          | Ok (Some noteData) =>
              NoteData.userId noteData = User.id u
              /\ NoteData.color noteData = DecryptedNote.color note
              /\ NoteData.isPinned noteData = DecryptedNote.isPinned note
              /\ NoteData.title noteData <> []
              /\ NoteData.content noteData <> []
              /\ sealed_from key rng (n + 24) (DecryptedNote.images note)
                   (NoteData.images noteData)
              /\ drawn (snd (handleSaveNote_noteData user note w))
                 = (n + 12 * (2 + length (DecryptedNote.images note)))%nat
          | Throw e =>
              e = InvalidCharacterError
              /\ Exists (fun image =>
                           base64ToArrayBuffer (DecryptedImage.data image)
                           = Throw InvalidCharacterError)
                   (DecryptedNote.images note)
          end
      end
  end.
Proof.
  cbv zeta. set (w := mkWorld rng n log (Some key) salt).
  assert (Hk : this_key w = Some key) by reflexivity.
  destruct user as [u|]; [|reflexivity].
  destruct (User.id u) as [|c userId] eqn:Eid.
  - unfold handleSaveNote_noteData. now rewrite Eid.
  - assert (Hid : User.id u <> []) by (rewrite Eid; discriminate).
    destruct (decodes_or_not (DecryptedNote.images note)) as [Hall|Hex].
    + destruct (handleSaveNote_noteData_run key u note w Hid Hk Hall)
        as [iv1 [iv2 [res [w' [-> [H1 [H2 [Hs Hd]]]]]]]].
      cbn [fst snd NoteData.userId NoteData.color NoteData.isPinned NoteData.title
           NoteData.content NoteData.images].
      repeat split; try assumption; now apply blob_of_nonempty.
    + rewrite (handleSaveNote_noteData_throws key u note w Hid Hk Hex).
      split; [reflexivity | exact Hex].
Qed.

End SaveFacts.

Section SaveThenFetch.
Context {SC : SubtleCrypto} {L : SubtleCryptoLaws SC}.

Lemma decryptNote_blobs key iv1 iv2 t c w :
  this_key w = Some key ->
  length iv1 = IV_LENGTH -> length iv2 = IV_LENGTH ->
  Utf8.well_formed t = true -> Utf8.starts_with_bom t = false ->
  Utf8.well_formed c = true -> Utf8.starts_with_bom c = false ->
  fst (decryptNote (blob_of key iv1 (TextEncoder_encode t))
         (blob_of key iv2 (TextEncoder_encode c)) w)
  = Ok (mkNote t c).
Proof.
  intros Hk H1 H2 Hwt Hbt Hwc Hbc. unfold decryptNote.
  rewrite (require_key_some _ key) by assumption. unfold bind, ret.
  pose proof (decryptString_blob key iv1 t w H1 Hwt Hbt) as Ht.
  destruct (decryptString (blob_of key iv1 (TextEncoder_encode t)) key w)
    as [[pt|e] w1]; cbn [fst] in Ht; [|discriminate].
  injection Ht as ->.
  pose proof (decryptString_blob key iv2 c w1 H2 Hwc Hbc) as Hc.
  pose proof (blob_of_nonempty key iv2 (TextEncoder_encode c) H2) as Hnn.
  destruct (blob_of key iv2 (TextEncoder_encode c)) as [|b0 b']; [now destruct Hnn|].
  destruct (decryptString (b0 :: b') key w1) as [[pc|e] w2]; cbn [fst] in Hc;
    [|discriminate].
  injection Hc as ->. reflexivity.
Qed.

(** What the loop of [fetchNotes] makes of the images [handleSaveNote]
    sealed. *)
Lemma sealed_rows_shown key w entropy images :
  this_key w = Some key ->
  forall d res rows,
    sealed_from key entropy d images res ->
    map (fun i => (ImageRow.data i, ImageRow.mimeType i, ImageRow.order i)) rows
    = map (fun i => (EncryptedImageInput.data i, EncryptedImageInput.mimeType i,
                     EncryptedImageInput.order i)) res ->
    let shown :=
      flat_map
        (fun image =>
           match fst (decryptImage (ImageRow.data image) w) with
           | Ok buffer =>
               [DecryptedImage.mk (ImageRow.id image)
                  (Base64.encode (map fromCharCode buffer))
                  (ImageRow.mimeType image) (ImageRow.order image)]
           | Throw _ => []
           end) rows in
    map DecryptedImage.id shown = map ImageRow.id rows
    /\ Forall2 (fun image s =>
                  DecryptedImage.mimeType s = DecryptedImage.mimeType image
                  /\ DecryptedImage.order s = DecryptedImage.order image
                  /\ exists buffer,
                       base64ToArrayBuffer (DecryptedImage.data image) = Ok buffer
                       /\ arrayBufferToBase64 buffer = Ok (DecryptedImage.data s))
         images shown.
Proof.
  intros Hk. induction images as [|image images IH]; intros d res rows Hs Hrows.
  - destruct res; [|destruct Hs]. destruct rows; [|discriminate].
    cbn. split; [reflexivity | constructor].
  - destruct res as [|enc res]; [destruct Hs|]. cbn [sealed_from] in Hs.
    destruct Hs as [[buffer [Hb [Hdata [Hmime Hord]]]] Hs].
    destruct rows as [|row rows]; [discriminate|]. cbn [map] in Hrows.
    injection Hrows as Hd Hm Ho Hrest.
    specialize (IH _ res rows Hs Hrest). cbv zeta in IH.
    destruct IH as [IHid IHall]. cbv zeta. cbn [flat_map].
    rewrite (decryptImage_some key) by assumption.
    rewrite Hd, Hdata, decryptBinary_blob
      by (now rewrite length_map, length_seq).
    cbn [app map].
    split; [cbn [DecryptedImage.id]; now rewrite IHid|].
    constructor; [|exact IHall].
    cbn [DecryptedImage.mimeType DecryptedImage.order DecryptedImage.data].
    split; [congruence|]. split; [congruence|].
    exists buffer. split; [exact Hb | apply arrayBufferToBase64_eq].
Qed.

(** X16. What is saved is what is shown.  Take a note whose title and
    content have no unpaired surrogate and do not begin with U+FEFF and
    whose images are base64, and let [handleSaveNote] make the request body
    for a user with an [id], in a service that holds a key.  For any row of the server that carries
    this title, this content and these images, [fetchNotes], in a service
    with the same key, shows the title and the content of the note and one
    image for each image of the note, in the same order, with the same
    type, rank and bytes; the base64 text of an image is the same when it
    was the encoding of its bytes. *)
Theorem save_then_fetch
    (rng : nat -> byte) (n : nat) (log : list Call) (salt : option jsstring)
    (rng' : nat -> byte) (n' : nat) (log' : list Call) (salt' : option jsstring)
    (key : CryptoKey) (u : User.t) (note : DecryptedNote.t) :
  let w := mkWorld rng n log (Some key) salt in
  let w' := mkWorld rng' n' log' (Some key) salt' in
  User.id u <> [] ->
  Utf8.well_formed (DecryptedNote.title note) = true ->
  Utf8.starts_with_bom (DecryptedNote.title note) = false ->
  Utf8.well_formed (DecryptedNote.content note) = true ->
  Utf8.starts_with_bom (DecryptedNote.content note) = false ->
  Forall (fun image =>
            exists buffer, base64ToArrayBuffer (DecryptedImage.data image) = Ok buffer)
    (DecryptedNote.images note) ->
  exists noteData,
    fst (handleSaveNote_noteData (Some u) note w) = Ok (Some noteData)
    /\ NoteData.userId noteData = User.id u
    /\ forall row : NoteRow.t,
         NoteRow.title row = NoteData.title noteData ->
         or_empty (NoteRow.content row) = NoteData.content noteData ->
         map (fun i => (ImageRow.data i, ImageRow.mimeType i, ImageRow.order i))
           (or_nil (NoteRow.images row))
         = map (fun i => (EncryptedImageInput.data i, EncryptedImageInput.mimeType i,
                          EncryptedImageInput.order i)) (NoteData.images noteData) ->
         exists shown,
           fst (fetchNotes_note row w') = Ok (Some shown)
           /\ DecryptedNote.title shown = DecryptedNote.title note
           /\ DecryptedNote.content shown = DecryptedNote.content note
           /\ map DecryptedImage.id (DecryptedNote.images shown)
              = map ImageRow.id (or_nil (NoteRow.images row))
           /\ Forall2 (fun image s =>
                         DecryptedImage.mimeType s = DecryptedImage.mimeType image
                         /\ DecryptedImage.order s = DecryptedImage.order image
                         /\ exists buffer,
                              base64ToArrayBuffer (DecryptedImage.data image) = Ok buffer
                              /\ arrayBufferToBase64 buffer = Ok (DecryptedImage.data s))
                (DecryptedNote.images note) (DecryptedNote.images shown)
           /\ (Forall (fun image =>
                         rbind (base64ToArrayBuffer (DecryptedImage.data image))
                           arrayBufferToBase64
                         = Ok (DecryptedImage.data image))
                 (DecryptedNote.images note) ->
               map DecryptedImage.data (DecryptedNote.images shown)
               = map DecryptedImage.data (DecryptedNote.images note)).
Proof.
  cbv zeta. intros Hid Hwt Hbt Hwc Hbc Hall.
  set (w := mkWorld rng n log (Some key) salt).
  set (w' := mkWorld rng' n' log' (Some key) salt').
  destruct (handleSaveNote_noteData_run key u note w Hid eq_refl Hall)
    as [iv1 [iv2 [res [w1 [Hrun [H1 [H2 [Hs _]]]]]]]].
  rewrite Hrun. cbn [fst]. eexists. split; [reflexivity|].
  split; [reflexivity|].
  cbn [NoteData.title NoteData.content NoteData.images].
  intros row Ht Hc Himgs.
  rewrite (fetchNotes_note_run key row w' eq_refl).
  pose proof (decryptNote_blobs key iv1 iv2 _ _ w' eq_refl H1 H2 Hwt Hbt Hwc Hbc) as Hd.
  rewrite <- Ht, <- Hc in Hd. rewrite Hd.
  eexists. split; [reflexivity|].
  cbn [DecryptedNote.title DecryptedNote.content DecryptedNote.images title content].
  split; [reflexivity|]. split; [reflexivity|].
  destruct (sealed_rows_shown key w' _ _ eq_refl _ _ _ Hs Himgs) as [Hids Hall2].
  unfold shown_image. cbv zeta in Hids, Hall2.
  set (shownImages := flat_map _ (or_nil (NoteRow.images row))) in *.
  split; [exact Hids|]. split; [exact Hall2|].
  intros Hcanon. clear - Hall2 Hcanon.
  induction Hall2 as [|image s images shown' [_ [_ [buffer [Hb He]]]] _ IH];
    [reflexivity|].
  inversion_clear Hcanon as [|? ? Hc Hrest]. cbn [map].
  rewrite (IH Hrest). f_equal.
  rewrite Hb in Hc. cbn [rbind] in Hc. congruence.
Qed.

End SaveThenFetch.

(** ** The layout *)

Section Masonry.
Context {A : Type}.

Lemma length_push_at (cols : list (list A)) i x :
  length (push_at cols i x) = length cols.
Proof.
  unfold push_at. revert i. induction cols as [|col cols IH]; intros [|i];
    cbn [firstn skipn app length]; try reflexivity.
  f_equal. apply IH.
Qed.

Lemma nth_push_at (cols : list (list A)) i x j :
  (i < length cols)%nat ->
  nth j (push_at cols i x) [] = if (j =? i)%nat then nth i cols [] ++ [x] else nth j cols [].
Proof.
  unfold push_at. revert i j. induction cols as [|col cols IH]; intros i j Hi;
    cbn [length] in Hi; [lia|].
  destruct i as [|i], j as [|j]; cbn [firstn skipn app nth Nat.eqb]; try reflexivity.
  apply IH. lia.
Qed.

Lemma forEach_push_snoc columns (l : list A) x :
  forall index cols,
    forEach_push columns (l ++ [x]) index cols
    = push_at (forEach_push columns l index cols) ((index + length l) mod columns) x.
Proof.
  induction l as [|y l IH]; intros index cols; cbn [app forEach_push length].
  - now rewrite Nat.add_0_r.
  - rewrite IH. do 2 f_equal. lia.
Qed.

Lemma masonryColumns_snoc columns (l : list A) x :
  masonryColumns columns (l ++ [x])
  = push_at (masonryColumns columns l) (length l mod columns) x.
Proof. unfold masonryColumns. now rewrite forEach_push_snoc. Qed.

Lemma length_masonryColumns columns (l : list A) :
  length (masonryColumns columns l) = columns.
Proof.
  induction l as [|x l IH] using rev_ind.
  - unfold masonryColumns. cbn [forEach_push]. apply repeat_length.
  - now rewrite masonryColumns_snoc, length_push_at.
Qed.

Lemma nth_repeat_nil columns j : nth j (repeat (@nil A) columns) [] = [].
Proof.
  revert j. induction columns as [|c IH]; intros [|j]; cbn [repeat nth]; auto.
Qed.

Lemma masonryColumns_deals (columns : nat) (filteredNotes : list A) :
  (0 < columns)%nat ->
  length (masonryColumns columns filteredNotes) = columns
  /\ forall j i,
       (j < columns)%nat ->
       nth_error (nth j (masonryColumns columns filteredNotes) []) i
       = nth_error filteredNotes (j + i * columns).
Proof.
  intros Hc. split; [apply length_masonryColumns|].
  induction filteredNotes as [|x l IH] using rev_ind; intros j i Hj.
  - unfold masonryColumns. cbn [forEach_push]. rewrite nth_repeat_nil.
    assert (H : forall k, @nth_error A [] k = None) by (intros [|?]; reflexivity).
    now rewrite !H.
  - rewrite masonryColumns_snoc.
    pose proof (Nat.mod_upper_bound (length l) columns ltac:(lia)) as Hm.
    rewrite nth_push_at by (rewrite length_masonryColumns; exact Hm).
    pose proof (Nat.div_mod_eq (length l) columns) as Hdm.
    set (c := (length l mod columns)%nat) in *.
    set (q := (length l / columns)%nat) in *.
    destruct (Nat.eqb_spec j c) as [->|Hjc].
    + (* the column that takes the note *)
      assert (Hlen : length (nth c (masonryColumns columns l) []) = q).
      { apply Nat.le_antisymm.
        - apply nth_error_None. rewrite IH by exact Hm.
          apply nth_error_None. lia.
        - destruct q as [|q']; [lia|].
          assert (Hs : nth_error (nth c (masonryColumns columns l) []) q' <> None).
          { rewrite IH by exact Hm. apply nth_error_Some.
            cbn [Nat.mul] in Hdm. rewrite Nat.mul_succ_r in Hdm. lia. }
          apply nth_error_Some in Hs. lia. }
      destruct (Nat.lt_trichotomy i q) as [Hi|[Hi|Hi]].
      * rewrite nth_error_app1 by lia. rewrite IH by exact Hm.
        assert (c + i * columns < length l)%nat.
        { assert (S i * columns <= q * columns)%nat by (apply Nat.mul_le_mono_r; lia).
          cbn [Nat.mul] in *. lia. }
        now rewrite nth_error_app1.
      * subst i. rewrite nth_error_app2 by lia. rewrite Hlen, Nat.sub_diag.
        replace (c + q * columns)%nat with (length l) by lia.
        rewrite nth_error_app2 by lia. now rewrite Nat.sub_diag.
      * assert (length l + 1 <= c + i * columns)%nat.
        { assert (S q * columns <= i * columns)%nat by (apply Nat.mul_le_mono_r; lia).
          cbn [Nat.mul] in *. lia. }
        transitivity (@None A); [|symmetry]; apply nth_error_None;
          rewrite length_app; cbn [length]; lia.
    + (* another column *)
      rewrite IH by exact Hj.
      assert (Hne : (j + i * columns)%nat <> length l).
      { intros He. apply Hjc. unfold c. rewrite <- He.
        rewrite Nat.Div0.mod_add. symmetry. now apply Nat.mod_small. }
      destruct (Nat.lt_ge_cases (j + i * columns) (length l)) as [Hlt|Hge].
      * now rewrite nth_error_app1.
      * transitivity (@None A); [|symmetry]; apply nth_error_None;
          [|rewrite length_app; cbn [length]]; lia.
Qed.

(** X17. The masonry layout deals the notes to the columns in turn.  The
    grid has the columns [handleResize] gives for the width of the window,
    one to four; the note of rank [i] in column [j] is the note of rank
    [j + i * columns] of the list, and there is no other: every note is in
    one column, once, and the notes of a column are in the order of the
    list. *)
Theorem masonry_layout (width : Z) (filteredNotes : list A) :
  let columns := handleResize width in
  (1 <= columns <= 4)%nat
  /\ length (masonryColumns columns filteredNotes) = columns
  /\ forall j i,
       (j < columns)%nat ->
       nth_error (nth j (masonryColumns columns filteredNotes) []) i
       = nth_error filteredNotes (j + i * columns).
Proof.
  cbv zeta.
  assert (H : (1 <= handleResize width <= 4)%nat).
  { unfold handleResize.
    destruct (width <? 640)%Z, (width <? 768)%Z, (width <? 1024)%Z, (width <? 1280)%Z;
      lia. }
  split; [exact H|]. apply masonryColumns_deals. lia.
Qed.

End Masonry.

(** * The note editor *)

Lemma string_eq_true a b : string_eq a b = true <-> a = b.
Proof. unfold string_eq. destruct (list_eq_dec N.eq_dec a b); split; congruence. Qed.

Lemma string_eq_false a b : string_eq a b = false <-> a <> b.
Proof. unfold string_eq. destruct (list_eq_dec N.eq_dec a b); split; congruence. Qed.

Section EditorFacts.
Import NoteEditor.

Lemma map_order_unranked images idx :
  map unranked (map_order images idx) = map unranked images.
Proof.
  revert idx. induction images as [|img rest IH]; intros idx; cbn [map_order map];
    [reflexivity|].
  now rewrite IH.
Qed.

Lemma map_order_order images idx :
  map DecryptedImage.order (map_order images idx)
  = map Z.of_nat (seq idx (length images)).
Proof.
  revert idx. induction images as [|img rest IH]; intros idx;
    cbn [map_order map length seq]; [reflexivity|].
  now rewrite IH.
Qed.

Lemma length_map_order images idx : length (map_order images idx) = length images.
Proof.
  revert idx. induction images as [|img rest IH]; intros idx; cbn [map_order length];
    [reflexivity|].
  now rewrite IH.
Qed.

Lemma ranked_map_order images : ranked (map_order images 0).
Proof. unfold ranked. now rewrite map_order_order, length_map_order. Qed.

Lemma map_order_opt_Some images idx :
  map_order_opt (map Some images) idx = map Some (map_order images idx).
Proof.
  revert idx. induction images as [|img rest IH]; intros idx;
    cbn [map map_order_opt map_order option_map]; [reflexivity|].
  now rewrite IH.
Qed.

(** X18. [handleRemoveImage] takes out every image that has this id and
    no other: the images that stay keep their id, data and type and their
    order in the list, and their ranks are made 0, 1, 2, ...  When no image
    has this id only the ranks can change. *)
Theorem handleRemoveImage_outcome (images : list DecryptedImage.t) (imageId : jsstring) :
  let images' := handleRemoveImage images imageId in
  map unranked images'
  = map unranked (filter (fun img => negb (string_eq (DecryptedImage.id img) imageId)) images)
  /\ Forall (fun img => DecryptedImage.id img <> imageId) images'
  /\ (forall img, In img images -> DecryptedImage.id img <> imageId ->
        In (unranked img) (map unranked images'))
  /\ ranked images'
  /\ (length images' <= length images)%nat
  /\ (Forall (fun img => DecryptedImage.id img <> imageId) images ->
      map unranked images' = map unranked images
      /\ (ranked images -> images' = images)).
Proof.
  cbv zeta. unfold handleRemoveImage.
  set (keep := fun img => negb (string_eq (DecryptedImage.id img) imageId)).
  assert (Hkeep : forall img, keep img = true <-> DecryptedImage.id img <> imageId).
  { intros img. unfold keep. rewrite negb_true_iff. apply string_eq_false. }
  split; [apply map_order_unranked|]. split; [|split; [|split; [|split]]].
  - apply Forall_forall. intros img Hin.
    assert (Hu : In (unranked img) (map unranked (filter keep images))).
    { rewrite <- (map_order_unranked _ 0). now apply in_map. }
    apply in_map_iff in Hu. destruct Hu as [img' [Heq Hin']].
    apply filter_In in Hin'. destruct Hin' as [_ Hk]. apply Hkeep in Hk.
    unfold unranked in Heq. congruence.
  - intros img Hin Hid. rewrite map_order_unranked. apply in_map.
    apply filter_In. split; [assumption | now apply Hkeep].
  - apply ranked_map_order.
  - rewrite length_map_order. apply filter_length_le.
  - intros Hall.
    assert (Hf : filter keep images = images).
    { clear - Hall Hkeep. induction Hall as [|img rest Hi _ IH]; cbn [filter];
        [reflexivity|].
      apply Hkeep in Hi. now rewrite Hi, IH. }
    rewrite Hf. split; [apply map_order_unranked|].
    unfold ranked. generalize 0%nat. clear.
    induction images as [|img rest IH]; intros idx; cbn [map_order map length seq];
      [reflexivity|].
    intros [= Ho Hrest]. rewrite (IH _ Hrest). destruct img. cbn in *. now subst.
Qed.

Lemma findIndex_from_app {A} (p : A -> bool) before x after i :
  Forall (fun y => p y = false) before -> p x = true ->
  findIndex_from p (before ++ x :: after) i = (i + Z.of_nat (length before))%Z.
Proof.
  intros Hb Hx. revert i. induction Hb as [|y before Hy _ IH]; intros i;
    cbn [app findIndex_from length].
  - rewrite Hx. lia.
  - rewrite Hy, IH. lia.
Qed.

Lemma findIndex_from_none {A} (p : A -> bool) a i :
  Forall (fun y => p y = false) a -> findIndex_from p a i = (-1)%Z.
Proof.
  intros H. revert i. induction H as [|y a Hy _ IH]; intros i; cbn [findIndex_from];
    [reflexivity|].
  now rewrite Hy, IH.
Qed.

Lemma at_index_middle {A} (before : list (option A)) x after :
  at_index (before ++ x :: after) (Z.of_nat (length before)) = x.
Proof.
  unfold at_index. destruct (Z.leb_spec 0 (Z.of_nat (length before))); [|lia].
  rewrite Nat2Z.id, app_nth2, Nat.sub_diag by lia. reflexivity.
Qed.

Lemma assign_middle {A} (before : list (option A)) x after v :
  assign (before ++ x :: after) (Z.of_nat (length before)) v = before ++ v :: after.
Proof.
  unfold assign. destruct (Z.ltb_spec (Z.of_nat (length before)) 0); [lia|].
  rewrite length_app. cbn [length].
  destruct (Z.ltb_spec (Z.of_nat (length before))
              (Z.of_nat (length before + S (length after)))); [|lia].
  rewrite Nat2Z.id, firstn_app, firstn_all, Nat.sub_diag. cbn [firstn].
  rewrite app_nil_r. f_equal.
  replace (S (length before)) with (length before + 1)%nat by lia.
  rewrite skipn_app, skipn_all2 by lia.
  replace (length before + 1 - length before)%nat with 1%nat by lia. reflexivity.
Qed.

(** The two places [k] and [k + 1] of an array exchanged. *)
Lemma swap_neighbours (before : list DecryptedImage.t) a b after :
  let newImages := map Some (before ++ a :: b :: after) in
  let k := Z.of_nat (length before) in
  assign (assign newImages k (at_index newImages (k + 1))) (k + 1) (at_index newImages k)
  = map Some (before ++ b :: a :: after)
  /\ assign (assign newImages (k + 1) (at_index newImages k)) k (at_index newImages (k + 1))
     = map Some (before ++ b :: a :: after).
Proof.
  cbv zeta. rewrite !map_app. cbn [map].
  set (bs := map Some before). set (as' := map Some after).
  assert (Hlen : length bs = length before) by apply length_map.
  rewrite <- Hlen.
  assert (H1 : (Z.of_nat (length bs) + 1)%Z = Z.of_nat (length (bs ++ [Some a]))).
  { rewrite length_app. cbn [length]. lia. }
  assert (Hget1 : at_index (bs ++ Some a :: Some b :: as') (Z.of_nat (length bs) + 1) = Some b).
  { rewrite H1. replace (bs ++ Some a :: Some b :: as')
      with ((bs ++ [Some a]) ++ Some b :: as') by now rewrite <- app_assoc.
    apply at_index_middle. }
  rewrite Hget1, at_index_middle. split.
  - rewrite assign_middle.
    replace (bs ++ Some b :: Some b :: as')
      with ((bs ++ [Some b]) ++ Some b :: as') by now rewrite <- app_assoc.
    replace (Z.of_nat (length bs) + 1)%Z with (Z.of_nat (length (bs ++ [Some b])))
      by (rewrite length_app; cbn [length]; lia).
    rewrite assign_middle. now rewrite <- app_assoc.
  - replace (bs ++ Some a :: Some b :: as')
      with ((bs ++ [Some a]) ++ Some b :: as') by now rewrite <- app_assoc.
    rewrite H1, assign_middle, <- app_assoc. cbn [app].
    replace (length (bs ++ [Some a])) with (length bs + 1)%nat
      by (rewrite length_app; cbn [length]; lia).
    rewrite assign_middle. reflexivity.
Qed.

(** X19. [handleReorderImage] moves the first image that has this id by
    one place: to the left it changes places with the image before it, to
    the right with the image after it; the other images stay where they
    are and the ranks are made 0, 1, 2, ...  When that image is the first
    one and the move is to the left, or the last one and the move is to the
    right, the images are left as they are.  When no image has this id, a
    move to the left changes the ranks only, and a move to the right puts
    in the first place an object that is not an image. *)
Theorem handleReorderImage_outcome
    (before after : list DecryptedImage.t) (a b : DecryptedImage.t)
    (imageId : jsstring) :
  Forall (fun img => DecryptedImage.id img <> imageId) before ->
  (DecryptedImage.id a <> imageId -> DecryptedImage.id b = imageId ->
   handleReorderImage (before ++ a :: b :: after) imageId Left
   = map Some (map_order (before ++ b :: a :: after) 0))
  /\ (DecryptedImage.id a = imageId ->
      handleReorderImage (before ++ a :: b :: after) imageId Right
      = map Some (map_order (before ++ b :: a :: after) 0))
  /\ (DecryptedImage.id a = imageId ->
      handleReorderImage (a :: after) imageId Left = map Some (a :: after))
  /\ (DecryptedImage.id a = imageId ->
      handleReorderImage (before ++ [a]) imageId Right = map Some (before ++ [a]))
  /\ handleReorderImage before imageId Left = map Some (map_order before 0)
  /\ handleReorderImage before imageId Right
     = match before with
       | [] => []
       | _ :: rest => None :: map Some (map_order rest 1)
       end.
Proof.
  intros Hbefore.
  set (p := fun img => string_eq (DecryptedImage.id img) imageId).
  assert (Hp : Forall (fun img => p img = false) before).
  { eapply Forall_impl; [|exact Hbefore]. intros img H. now apply string_eq_false. }
  split; [|split; [|split; [|split; [|split]]]].
  - intros Ha Hb. unfold handleReorderImage. fold p.
    assert (Hidx : findIndex p (before ++ a :: b :: after)
                   = (Z.of_nat (length before) + 1)%Z).
    { unfold findIndex.
      replace (before ++ a :: b :: after) with ((before ++ [a]) ++ b :: after)
        by now rewrite <- app_assoc.
      rewrite findIndex_from_app.
      - rewrite length_app. cbn [length]. lia.
      - apply Forall_app. split; [exact Hp|]. constructor; [|constructor].
        now apply string_eq_false.
      - now apply string_eq_true. }
    rewrite Hidx.
    destruct (Z.eqb_spec (Z.of_nat (length before) + 1) 0); [lia|].
    replace (Z.of_nat (length before) + 1 - 1)%Z with (Z.of_nat (length before)) by lia.
    destruct (swap_neighbours before a b after) as [_ Hswap]. cbv zeta in Hswap.
    rewrite Hswap. apply map_order_opt_Some.
  - intros Ha. unfold handleReorderImage. fold p.
    assert (Hidx : findIndex p (before ++ a :: b :: after) = Z.of_nat (length before)).
    { unfold findIndex. rewrite findIndex_from_app; [lia | exact Hp |].
      now apply string_eq_true. }
    rewrite Hidx, length_app. cbn [length].
    destruct (Z.eqb_spec (Z.of_nat (length before))
                (Z.of_nat (length before + S (S (length after))) - 1)); [lia|].
    destruct (swap_neighbours before a b after) as [Hswap _]. cbv zeta in Hswap.
    rewrite Hswap. apply map_order_opt_Some.
  - intros Ha. unfold handleReorderImage, findIndex. cbn [findIndex_from].
    replace (string_eq (DecryptedImage.id a) imageId) with true
      by (symmetry; now apply string_eq_true).
    reflexivity.
  - intros Ha. unfold handleReorderImage. fold p.
    assert (Hidx : findIndex p (before ++ [a]) = Z.of_nat (length before)).
    { unfold findIndex. rewrite findIndex_from_app; [lia | exact Hp |].
      now apply string_eq_true. }
    rewrite Hidx, length_app. cbn [length].
    destruct (Z.eqb_spec (Z.of_nat (length before))
                (Z.of_nat (length before + 1) - 1)); [reflexivity | lia].
  - unfold handleReorderImage. fold p. unfold findIndex.
    rewrite findIndex_from_none by exact Hp. cbn [Z.eqb].
    unfold at_index, assign. cbn. apply map_order_opt_Some.
  - unfold handleReorderImage. fold p. unfold findIndex.
    rewrite findIndex_from_none by exact Hp.
    destruct before as [|x rest]; [reflexivity|].
    cbn [length]. destruct (Z.eqb_spec (-1) (Z.of_nat (S (length rest)) - 1)); [lia|].
    change (-1 + 1)%Z with 0%Z.
    change (at_index (map Some (x :: rest)) (-1)) with (@None DecryptedImage.t).
    change (assign (map Some (x :: rest)) (-1) (at_index (map Some (x :: rest)) 0))
      with (map Some (x :: rest)).
    cbn [map].
    pose proof (assign_middle [] (Some x) (map Some rest) None) as Hs.
    cbn [app length Z.of_nat] in Hs. rewrite Hs.
    cbn [map_order_opt option_map]. f_equal. apply map_order_opt_Some.
Qed.

Lemma map_nth_seq {A} (l : list A) d :
  map (fun k => nth k l d) (seq 0 (length l)) = l.
Proof.
  induction l as [|x l IH]; cbn [length seq map nth]; [reflexivity|].
  f_equal. rewrite <- seq_shift, map_map. exact IH.
Qed.

Lemma seq_shift_by n start len :
  map (fun k => (n + k)%nat) (seq start len) = seq (n + start) len.
Proof.
  revert start. induction len as [|len IH]; intros start; cbn [seq map];
    [reflexivity|].
  rewrite IH. f_equal. f_equal. lia.
Qed.

Lemma select_files_run images files :
  forall i newImages,
    match select_files images files i newImages with
    | Ok result =>
        exists buffers,
          map fst files = map Ok buffers
          /\ result
             = newImages
                 ++ map (fun k =>
                           DecryptedImage.mk
                             (js "temp-" ++ decimal (snd (nth k files (Ok [], 0)))
                                ++ js "-" ++ decimal (N.of_nat (i + k)))
                             (Base64.encode
                                (map fromCharCode (nth k buffers [])))
                             (js "image/jpeg")
                             (Z.of_nat (length images + (i + k))))
                     (seq 0 (length files))
    | Throw e => Exists (fun file => fst file = Throw e) files
    end.
Proof.
  induction files as [|[resized now] rest IH]; intros i newImages;
    cbn [select_files].
  - exists []. split; [reflexivity|]. cbn. now rewrite app_nil_r.
  - destruct resized as [resizedBuffer|e]; cbn [rbind].
    + rewrite btoa_reduce_fromCharCode. cbn [rbind].
      specialize (IH (S i)
                    (newImages
                       ++ [DecryptedImage.mk
                             (js "temp-" ++ decimal now ++ js "-" ++ decimal (N.of_nat i))
                             (Base64.encode (map fromCharCode resizedBuffer))
                             (js "image/jpeg") (Z.of_nat (length images + i))])).
      destruct (select_files images rest (S i) _) as [result|e].
      * destruct IH as [buffers [Hb Hr]]. exists (resizedBuffer :: buffers).
        split; [cbn [map fst]; now rewrite Hb|].
        rewrite Hr, <- app_assoc. f_equal. cbn [length seq map app nth snd].
        rewrite Nat.add_0_r. f_equal.
        rewrite <- seq_shift, map_map. apply map_ext. intros k.
        cbn [nth]. replace (S i + k)%nat with (i + S k)%nat by lia. reflexivity.
      * now apply Exists_cons_tl.
    + apply Exists_cons_hd. reflexivity.
Qed.

(** X20. [handleImageSelect] adds all the files or none.  When
    [resizeImage] throws for one of them, the images are left as they are,
    whatever came before that file.  Otherwise one image is added at the
    end for each file, in the order of the files: its data is base64 and
    decodes to the bytes [resizeImage] returned, its type is [image/jpeg]
    and its rank is its place in the list when the ranks were 0, 1, 2, ...
    before. *)
Theorem handleImageSelect_outcome (images : list DecryptedImage.t)
    (files : list (Result (list byte) * N)) :
  (Exists (fun file => exists e, fst file = Throw e) files ->
   handleImageSelect images files = images)
  /\ (forall buffers,
        map fst files = map Ok buffers ->
        exists newImages,
          handleImageSelect images files = images ++ newImages
          /\ length newImages = length files
          /\ map (fun img => base64ToArrayBuffer (DecryptedImage.data img)) newImages
             = map Ok buffers
          /\ Forall (fun img => DecryptedImage.mimeType img = js "image/jpeg") newImages
          /\ (ranked images -> ranked (images ++ newImages))).
Proof.
  split.
  - intros Hex. unfold handleImageSelect. destruct files as [|file rest]; [reflexivity|].
    pose proof (select_files_run images (file :: rest) 0 []) as Hrun.
    destruct (select_files images (file :: rest) 0 []) as [result|e]; [|reflexivity].
    destruct Hrun as [buffers [Hb _]]. exfalso.
    apply Exists_exists in Hex. destruct Hex as [f [Hin [e He]]].
    assert (Hin' : In (fst f) (map fst (file :: rest))) by now apply in_map.
    rewrite Hb, He in Hin'. apply in_map_iff in Hin'.
    destruct Hin' as [x [Hx _]]. discriminate.
  - intros buffers Hb. unfold handleImageSelect.
    destruct files as [|file rest].
    + exists []. rewrite app_nil_r. destruct buffers; [|discriminate].
      repeat split; auto.
    + pose proof (select_files_run images (file :: rest) 0 []) as Hrun.
      destruct (select_files images (file :: rest) 0 []) as [result|e].
      * destruct Hrun as [buffers' [Hb' Hr]]. cbn [app] in Hr.
        assert (buffers' = buffers).
        { rewrite Hb in Hb'. clear - Hb'. revert buffers' Hb'.
          induction buffers as [|x l IH]; intros [|y l'] H; try discriminate;
            [reflexivity|].
          cbn [map] in H. injection H as -> H. f_equal. now apply IH. }
        subst buffers'. exists result. split; [reflexivity|].
        assert (Hlen : length buffers = length (file :: rest)).
        { apply (f_equal (@length _)) in Hb. now rewrite !length_map in Hb. }
        rewrite Hr. split; [now rewrite length_map, length_seq|].
        split; [|split].
        -- rewrite map_map. cbn [DecryptedImage.data]. rewrite <- Hlen.
           rewrite (map_ext _ (fun k => Ok (nth k buffers [])))
             by (intros k; apply base64ToArrayBuffer_encode).
           rewrite <- (map_map (fun k => nth k buffers []) Ok).
           now rewrite map_nth_seq.
        -- apply Forall_forall. intros img Hin. apply in_map_iff in Hin.
           destruct Hin as [k [<- _]]. reflexivity.
        -- unfold ranked. intros Hranked.
           rewrite map_app, length_app, seq_app, map_app, Hranked. f_equal.
           rewrite length_map, length_seq, map_map. cbn [DecryptedImage.order Nat.add].
           replace (seq (length images) (length (file :: rest)))
             with (seq (length images + 0) (length (file :: rest)))
             by (now rewrite Nat.add_0_r).
           rewrite <- (seq_shift_by (length images)), map_map. reflexivity.
      * exfalso. apply Exists_exists in Hrun. destruct Hrun as [f [Hin He]].
        assert (Hin' : In (fst f) (map fst (file :: rest))) by now apply in_map.
        rewrite Hb, He in Hin'. apply in_map_iff in Hin'.
        destruct Hin' as [x [Hx _]]. discriminate.
Qed.

End EditorFacts.

(** * The image viewer *)

(** X21. In a viewer of [length] images, one at least, [handleNext] and
    [handlePrevious] keep the index among the images: the next image is the
    one after, the first one after the last; the previous one is the one
    before, the last one before the first; each undoes the other. *)
Theorem viewer_navigation (length index : Z) :
  (0 <= index < length)%Z ->
  (0 <= ImageViewer.handleNext length index < length)%Z
  /\ (0 <= ImageViewer.handlePrevious length index < length)%Z
  /\ ImageViewer.handleNext length index = ((index + 1) mod length)%Z
  /\ ImageViewer.handlePrevious length index = ((index - 1) mod length)%Z
  /\ ImageViewer.handlePrevious length (ImageViewer.handleNext length index) = index
  /\ ImageViewer.handleNext length (ImageViewer.handlePrevious length index) = index.
Proof.
  intros H. unfold ImageViewer.handleNext, ImageViewer.handlePrevious.
  assert (Hn : ((index + 1) mod length
                = if index <? length - 1 then index + 1 else 0)%Z).
  { destruct (Z.ltb_spec index (length - 1)).
    - apply Z.mod_small. lia.
    - replace (index + 1)%Z with length by lia. apply Z.mod_same. lia. }
  assert (Hp : ((index - 1) mod length
                = if index >? 0 then index - 1 else length - 1)%Z).
  { destruct (Z.gtb_spec index 0).
    - apply Z.mod_small. lia.
    - replace (index - 1)%Z with (length - 1 + (-1) * length)%Z by lia.
      rewrite Z.mod_add by lia. apply Z.mod_small. lia. }
  rewrite Hn, Hp.
  destruct (Z.ltb_spec index (length - 1)), (Z.gtb_spec index 0);
    repeat match goal with
      | |- context [(?a <? ?b)%Z] => destruct (Z.ltb_spec a b)
      | |- context [(?a >? ?b)%Z] => destruct (Z.gtb_spec a b)
      end; lia.
Qed.

(** * The server *)

Section ServerFacts.
Context {SC : SubtleCrypto}.

(** X22. The salt the server makes at signup is a text of 24 characters
    that decodes to its 16 random bytes; the client derives its key from it
    without an error, whatever the password.  The hash of the server and the
    hash of the client are the same text: the base64 of the SHA-256 digest
    of the UTF-8 encoding of the password. *)
Theorem server_salt_and_hash (entropy : nat -> byte) (password : jsstring) (w : World) :
  length (ServerCrypto.generateSalt entropy) = 24%nat
  /\ base64ToArrayBuffer (ServerCrypto.generateSalt entropy)
     = Ok (ServerCrypto.randomBytes entropy 16)
  /\ fst (initialize password (ServerCrypto.generateSalt entropy) w) = Ok tt
  /\ this_key (snd (initialize password (ServerCrypto.generateSalt entropy) w))
     = Some (pbkdf2_sha256 (TextEncoder_encode password)
               (ServerCrypto.randomBytes entropy 16) 600000 256)
  /\ fst (hashPassword password w) = Ok (ServerCrypto.hashPassword password)
  /\ base64ToArrayBuffer (ServerCrypto.hashPassword password)
     = Ok (sha256 (TextEncoder_encode password)).
Proof.
  unfold ServerCrypto.generateSalt, ServerCrypto.hashPassword,
    ServerCrypto.toString_base64.
  change (map Byte.to_N) with (map fromCharCode).
  split; [|split; [|split; [|split; [|split]]]].
  - rewrite length_encode, length_map. unfold ServerCrypto.randomBytes.
    now rewrite length_map, length_seq.
  - apply base64ToArrayBuffer_encode.
  - rewrite initialize_run. now rewrite base64ToArrayBuffer_encode.
  - rewrite initialize_run. now rewrite base64ToArrayBuffer_encode.
  - unfold hashPassword, bind, subtle_digest, bind, record, ret, lift.
    now rewrite arrayBufferToBase64_eq.
  - apply base64ToArrayBuffer_encode.
Qed.

End ServerFacts.

(** * More concrete runs *)

Lemma initialize_malformed_salt_witness :
  initialize (js "correcthorse123") (js "not base64!") keyed_world
  = (Throw InvalidCharacterError,
     mkWorld (fun _ => x00) 0 [] (Some zero_key) (Some (js "not base64!"))).
Proof.
  apply (initialize_malformed_salt (js "correcthorse123") (js "not base64!") keyed_world).
  intros saltBuffer H. vm_compute in H. discriminate.
Defined.

Lemma service_round_trip_witness :
  exists blob,
    fst (encryptLabel (js "Groceries")
           (snd (initialize (js "correcthorse123") (js "QmFzZTY0U2FsdA==") zero_world)))
    = Ok blob
    /\ fst (decryptLabel blob
              (snd (initialize (js "correcthorse123") (js "QmFzZTY0U2FsdA==")
                      keyed_world)))
       = Ok (js "Groceries").
Proof.
  assert (H : fst (initialize (js "correcthorse123") (js "QmFzZTY0U2FsdA==") zero_world)
              = Ok tt).
  { apply (initialize_completes _ _ (map to_uint8 (js "Base64Salt"))).
    vm_compute. reflexivity. }
  exact (proj1 (proj2 (proj2
           (service_round_trip (js "correcthorse123") (js "QmFzZTY0U2FsdA==")
              zero_world keyed_world H)))
           (js "Groceries") eq_refl eq_refl).
Defined.

Lemma short_blob_is_refused_witness :
  fst (decryptBinary (js "AAAAAAAAAAAAAAAAAAAAAAAAAAAAAAAAAAAA") zero_key zero_world)
  = Throw OperationError.
Proof.
  apply (short_blob_is_refused (js "AAAAAAAAAAAAAAAAAAAAAAAAAAAAAAAAAAAA")
           (repeat x00 27) zero_key zero_world).
  - vm_compute. reflexivity.
  - cbn [repeat length]. lia.
Defined.

Lemma round_trip_up_to_normalization_witness :
  exists blob,
    fst (encryptString [0xFEFF; 0xD800; 0x41] zero_key zero_world) = Ok blob
    /\ fst (decryptString blob zero_key zero_world) = Ok [0xFFFD; 0x41].
Proof.
  destruct (round_trip_up_to_normalization [0xFEFF; 0xD800; 0x41] zero_key
              zero_world zero_world) as [blob [Henc [Hdec _]]].
  - repeat (apply Forall_cons; [lia|]). apply Forall_nil.
  - exists blob. split; [exact Henc | exact Hdec].
Defined.

Lemma unpaired_surrogates_in_passwords_witness :
  Utf8.well_formed (to_well_formed [0x70; 0xDC00; 0x77]) = true
  /\ to_well_formed [0x70; 0xDC00; 0x77] = [0x70; 0xFFFD; 0x77].
Proof.
  split; [|reflexivity].
  apply (unpaired_surrogates_in_passwords [0x70; 0xDC00; 0x77] [] zero_world).
  repeat (apply Forall_cons; [lia|]). apply Forall_nil.
Defined.

Lemma save_then_fetch_witness :
  exists noteData,
    fst (handleSaveNote_noteData (Some ada) shopping_note keyed_world)
    = Ok (Some noteData)
    /\ NoteData.userId noteData = js "user-1".
Proof.
  destruct (save_then_fetch (fun _ => x00) 0 [] None (fun _ => x00) 0 [] None
              zero_key ada shopping_note) as [noteData [H [Hu _]]];
    try reflexivity.
  - discriminate.
  - apply Forall_cons; [|apply Forall_nil]. exists [x41]. vm_compute. reflexivity.
  - exists noteData. split; [exact H | exact Hu].
Defined.

Lemma handleReorderImage_outcome_witness :
  NoteEditor.handleReorderImage
    [DecryptedImage.mk (js "a") (js "QQ==") (js "image/jpeg") 0;
     DecryptedImage.mk (js "b") (js "Qg==") (js "image/jpeg") 1;
     DecryptedImage.mk (js "c") (js "Qw==") (js "image/jpeg") 2]
    (js "b") Right
  = map Some
      [DecryptedImage.mk (js "a") (js "QQ==") (js "image/jpeg") 0;
       DecryptedImage.mk (js "c") (js "Qw==") (js "image/jpeg") 1;
       DecryptedImage.mk (js "b") (js "Qg==") (js "image/jpeg") 2].
Proof.
  apply (proj1 (proj2
           (handleReorderImage_outcome
              [DecryptedImage.mk (js "a") (js "QQ==") (js "image/jpeg") 0] []
              (DecryptedImage.mk (js "b") (js "Qg==") (js "image/jpeg") 1)
              (DecryptedImage.mk (js "c") (js "Qw==") (js "image/jpeg") 2)
              (js "b")
              ltac:(apply Forall_cons; [discriminate | apply Forall_nil])))).
  reflexivity.
Defined.

Lemma viewer_navigation_witness :
  ImageViewer.handleNext 3 2 = 0%Z /\ ImageViewer.handlePrevious 3 0 = 2%Z.
Proof.
  split.
  - rewrite (proj1 (proj2 (proj2 (viewer_navigation 3 2 ltac:(lia))))). reflexivity.
  - rewrite (proj1 (proj2 (proj2 (proj2 (viewer_navigation 3 0 ltac:(lia)))))).
    reflexivity.
Defined.

(** * The algorithms against their published vectors *)

Example aes256_fips197 :
  AES.encrypt_block (hex "000102030405060708090a0b0c0d0e0f101112131415161718191a1b1c1d1e1f")
    (hex "00112233445566778899aabbccddeeff")
  = hex "8ea2b7ca516745bfeafc49904b496089".
Proof. vm_compute. reflexivity. Qed.

Example gcm_aes256_empty :
  GCM.encrypt (AES.encrypt (repeat 0 32)) (repeat 0 12) []
  = hex "530f8afbc74536b9a963b4f1c4cb738b".
Proof. vm_compute. reflexivity. Qed.

Example gcm_aes256_one_block :
  GCM.encrypt (AES.encrypt (repeat 0 32)) (repeat 0 12) (repeat 0 16)
  = hex "cea7403d4d606b6e074ec5d3baf39d18d0d1c8a799996bf0265b98b5d48ab919".
Proof. vm_compute. reflexivity. Qed.

Example gcm_aes256_four_blocks :
  GCM.encrypt
    (AES.encrypt (hex "feffe9928665731c6d6a8f9467308308feffe9928665731c6d6a8f9467308308"))
    (hex "cafebabefacedbaddecaf888")
    (hex "d9313225f88406e5a55909c5aff5269a86a7a9531534f7da2e4c303d8a318a721c3c0c95956809532fcf0e2449a6b525b16aedf5aa0de657ba637b391aafd255")
  = hex "522dc1f099567d07f47f37a32a84427d643a8cdcbfe5c0c97598a2bd2555d1aa8cb08e48590dbb3da7b08b1056828838c5f61e6393ba7a0abcc9f662898015adb094dac5d93471bdec1a502270e3cc6c".
Proof. vm_compute. reflexivity. Qed.

Example sha256_abc :
  SHA256.hash (js "abc")
  = hex "ba7816bf8f01cfea414140de5dae2223b00361a396177a9cb410ff61f20015ad".
Proof. vm_compute. reflexivity. Qed.

Example sha256_two_blocks :
  SHA256.hash (js "abcdbcdecdefdefgefghfghighijhijkijkljklmklmnlmnomnopnopq")
  = hex "248d6a61d20638b8e5c026930c3e6039a33ce45964ff2167f6ecedd419db06c1".
Proof. vm_compute. reflexivity. Qed.

Example hmac_sha256_rfc4231 :
  HMAC.hmac_sha256 (js "Jefe") (js "what do ya want for nothing?")
  = hex "5bdcc146bf60754e6a042426089575c75a003f089d2739839dec58b964ec3843".
Proof. vm_compute. reflexivity. Qed.

Example pbkdf2_sha256_two_iterations :
  PBKDF2.derive (js "password") (js "salt") 2 256
  = hex "ae4d0c95af6b46d32d0adff928f06dd02a303f8ef3c251dfd6e2d85a95474c43".
Proof. vm_compute. reflexivity. Qed.
